(** * Citra-Ramayana: the story generation pipeline and the story session

    A shallow embedding of [services/geminiService.ts] (the remote
    generation client and the two pipelines) and of the state handlers of
    [App.tsx], with the properties of the specification proved about them.

    - JavaScript values that come out of [JSON.parse] are an inductive type;
      the TypeScript types of the source are not checked at run time, so the
      validated response and the scenes carry such values.
    - [throw] / [try]-[catch] is a result type; the asynchronous pipelines
      are written in a state-and-exception monad over the remote service's
      call log and the caller's state.
    - Scene objects live in a store: the handlers of [App.tsx] copy arrays
      and story objects but write some scene objects in place, and the store
      keeps that sharing visible. *)

From Stdlib Require Import ZArith List Lia Ascii.
From stdpp Require Import base option list strings pretty.

Set Default Proof Using "Type".
Local Open Scope list_scope.

(** ** JavaScript values and exceptions *)

(** A number produced by [JSON.parse]: a finite double [m * 2^e] or an
    infinity (a literal that overflows). JSON text cannot denote NaN. *)
Inductive JSNumber :=
| Finite (m e : Z)
| Infinite (negative : bool).

#[warnings="-register-all"]
Inductive JSValue :=
| JUndefined
| JNull
| JBool (b : bool)
| JNumber (n : JSNumber)
| JString (s : string)
| JArray (items : list JSValue)
| JObject (props : list (string * JSValue)).

(** What is thrown: an [Error] instance with its [message], or some other
    value ([e instanceof Error] is false). *)
Inductive Thrown :=
| ErrorObj (message : string)
| NonError.

Inductive Result (A : Type) :=
| Ok (a : A)
| Throw (e : Thrown).
Arguments Ok {A} a.
Arguments Throw {A} e.

#[global] Instance Result_ret : MRet Result := @Ok.
#[global] Instance Result_bind : MBind Result :=
  λ A B f m, match m with Ok a => f a | Throw e => Throw e end.

(** [!v] is [negb (truthy v)]. *)
Definition truthy (v : JSValue) : bool :=
  match v with
  | JUndefined | JNull => false
  | JBool b => b
  | JNumber (Finite m _) => negb (m =? 0)%Z
  | JNumber (Infinite _) => true
  | JString s => negb (String.eqb s "")
  | JArray _ | JObject _ => true
  end.

Definition Array_isArray (v : JSValue) : bool :=
  match v with JArray _ => true | _ => false end.

Fixpoint lookupProp (props : list (string * JSValue)) (key : string) : JSValue :=
  match props with
  | [] => JUndefined
  | (k, v) :: rest => if String.eqb k key then v else lookupProp rest key
  end.

Definition TypeError_read (what key : string) : Thrown :=
  ErrorObj ("Cannot read properties of " +:+ what +:+ " (reading '" +:+ key +:+ "')").

(** [v.key] for a key that is no built-in member: reading from [null] or
    [undefined] throws a TypeError, an object yields its own property, every
    other value yields [undefined]. *)
Definition getProp (v : JSValue) (key : string) : Result JSValue :=
  match v with
  | JNull => Throw (TypeError_read "null" key)
  | JUndefined => Throw (TypeError_read "undefined" key)
  | JObject props => Ok (lookupProp props key)
  | _ => Ok JUndefined
  end.

Fixpoint assignProp (props : list (string * JSValue)) (key : string) (x : JSValue)
  : list (string * JSValue) :=
  match props with
  | [] => [(key, x)]
  | (k, v) :: rest =>
      if String.eqb k key then (k, x) :: rest else (k, v) :: assignProp rest key x
  end.

(** [v.key = x]; the source assigns only to the parsed object. *)
Definition setProp (v : JSValue) (key : string) (x : JSValue) : JSValue :=
  match v with
  | JObject props => JObject (assignProp props key x)
  | _ => v
  end.

(** The elements of an array value; applied only to values that passed
    [Array.isArray]. *)
Definition arrayItems (v : JSValue) : list JSValue :=
  match v with JArray items => items | _ => [] end.

(** [v.slice(0, n)] *)
Definition slice0 (v : JSValue) (n : nat) : JSValue := JArray (take n (arrayItems v)).

(** ** The remote generation client: response validation *)

Definition MalformedResponse : string :=
  "AI response was malformed and is missing required story data.".
Definition EmptyGeneration : string :=
  "AI generated an empty story. Please try again.".
Definition UnparsableResponse : string :=
  "Could not understand the story structure from the AI. Please check the console for details.".
Definition UnknownProcessingError : string :=
  "An unknown error occurred while processing the story. Please try again.".

Section Validation.
(** [String.prototype.trim] and [JSON.parse] belong to the JavaScript
    runtime; [JSON.parse] throws a SyntaxError on text that is not JSON. *)
Variable trim : string -> string.
Variable JSON_parse : string -> Result JSValue.

(** The condition of the first [if]: the four disjuncts, left to right. *)
Definition missingStoryData (parsed : JSValue) : Result bool :=
  a ← getProp parsed "storyParagraphs";
  if negb (truthy a) then Ok true else
  b ← getProp parsed "storyParagraphs";
  if negb (Array_isArray b) then Ok true else
  c ← getProp parsed "imagePrompts";
  if negb (truthy c) then Ok true else
  d ← getProp parsed "imagePrompts";
  Ok (negb (Array_isArray d)).

(** The body of the [try] block. *)
Definition parseAndValidate_try (responseText : string) : Result JSValue :=
  let jsonText := trim responseText in
  parsed ← JSON_parse jsonText;
  missing ← missingStoryData parsed;
  if (missing : bool) then Throw (ErrorObj MalformedResponse) else
  sp ← getProp parsed "storyParagraphs";
  ip ← getProp parsed "imagePrompts";
  let paragraphsCount := length (arrayItems sp) in
  let promptsCount := length (arrayItems ip) in
  if (paragraphsCount =? 0)%nat || (promptsCount =? 0)%nat
  then Throw (ErrorObj EmptyGeneration) else
  if negb (paragraphsCount =? promptsCount)%nat then
    let minCount := Nat.min paragraphsCount promptsCount in
    let parsed1 := setProp parsed "storyParagraphs" (slice0 sp minCount) in
    ip1 ← getProp parsed1 "imagePrompts";
    let parsed2 := setProp parsed1 "imagePrompts" (slice0 ip1 minCount) in
    Ok parsed2
  else Ok parsed.

(** The [catch] block. *)
Definition parseAndValidate_catch (e : Thrown) : Result JSValue :=
  match e with
  | ErrorObj message =>
      if String.prefix "AI response was malformed" message
         || String.prefix "AI generated an empty story" message
      then Throw e
      else Throw (ErrorObj UnparsableResponse)
  | NonError => Throw (ErrorObj UnknownProcessingError)
  end.

Definition parseAndValidateStoryResponse (responseText : string) : Result JSValue :=
  match parseAndValidate_try responseText with
  | Ok parsed => Ok parsed
  | Throw e => parseAndValidate_catch e
  end.

(** [parseAndValidateStoryResponse(response.text)]: the [text] of an answer
    is [undefined] when the answer carries no text; [responseText.trim()],
    the first statement of the [try] block, then throws a TypeError, which
    the [catch] block receives. *)
Definition parseAndValidateResponseText (responseText : option string) : Result JSValue :=
  match responseText with
  | Some responseText => parseAndValidateStoryResponse responseText
  | None => parseAndValidate_catch (TypeError_read "undefined" "trim")
  end.
End Validation.

(** ** The data model of the session ([types.ts]) *)

Inductive StoryMode := conclude | extend.

(** [image]: [undefined] while it is being generated, [null] when its
    generation failed, else the data URL. *)
Inductive Image :=
| ImagePending
| ImageFailed
| ImageReady (dataUrl : string).

Record Scene := {
  paragraph : JSValue;
  imagePrompt : JSValue;
  image : Image;
  videoPrompt : option string;
  isVideoPromptLoading : option bool;
  isRegenerating : option bool;
}.

(** Scene objects are shared between the arrays that successive states
    hold, and some handlers write them in place: they live in a store and an
    array holds references. Arrays and story objects are always copied before
    they are changed, so they are values. *)
Abbreviation loc := nat.
Abbreviation Store := (list Scene).

(** A slot of the [scenes] array is a reference, or [None] where reading
    the slot gives [undefined] (an array extended past its end has such
    slots). *)
Record StoryResult := {
  id : Z;
  title : JSValue;
  scenes : list (option loc);
  storyMode : StoryMode;
  isLoading : option bool;
}.

(** [!image] is [negb (imageTruthy image)]: the empty string is falsy. *)
Definition imageTruthy (i : Image) : bool :=
  match i with
  | ImageReady dataUrl => negb (String.eqb dataUrl "")
  | _ => false
  end.

(** [scenes[i]]: the scene object, if the slot holds one. *)
Definition sceneRef (scenes : list (option loc)) (i : nat) : option loc :=
  mjoin (scenes !! i).

Definition sceneAt (h : Store) (story : StoryResult) (i : nat) : option Scene :=
  l ← sceneRef (scenes story) i; h !! l.

(** [{}], as [{ ...undefined }] yields it: every field reads [undefined]. *)
Definition emptyScene : Scene :=
  {| paragraph := JUndefined; imagePrompt := JUndefined; image := ImagePending;
     videoPrompt := None; isVideoPromptLoading := None; isRegenerating := None |}.

Definition set_image (x : Image) (s : Scene) : Scene :=
  {| paragraph := paragraph s; imagePrompt := imagePrompt s; image := x;
     videoPrompt := videoPrompt s; isVideoPromptLoading := isVideoPromptLoading s;
     isRegenerating := isRegenerating s |}.

Definition set_videoPrompt (x : option string) (s : Scene) : Scene :=
  {| paragraph := paragraph s; imagePrompt := imagePrompt s; image := image s;
     videoPrompt := x; isVideoPromptLoading := isVideoPromptLoading s;
     isRegenerating := isRegenerating s |}.

Definition set_isVideoPromptLoading (x : option bool) (s : Scene) : Scene :=
  {| paragraph := paragraph s; imagePrompt := imagePrompt s; image := image s;
     videoPrompt := videoPrompt s; isVideoPromptLoading := x;
     isRegenerating := isRegenerating s |}.

Definition set_isRegenerating (x : option bool) (s : Scene) : Scene :=
  {| paragraph := paragraph s; imagePrompt := imagePrompt s; image := image s;
     videoPrompt := videoPrompt s; isVideoPromptLoading := isVideoPromptLoading s;
     isRegenerating := x |}.

Definition set_title (x : JSValue) (story : StoryResult) : StoryResult :=
  {| id := id story; title := x; scenes := scenes story;
     storyMode := storyMode story; isLoading := isLoading story |}.

Definition set_scenes (x : list (option loc)) (story : StoryResult) : StoryResult :=
  {| id := id story; title := title story; scenes := x;
     storyMode := storyMode story; isLoading := isLoading story |}.

Definition set_storyMode (x : StoryMode) (story : StoryResult) : StoryResult :=
  {| id := id story; title := title story; scenes := scenes story;
     storyMode := x; isLoading := isLoading story |}.

Definition set_isLoading (x : option bool) (story : StoryResult) : StoryResult :=
  {| id := id story; title := title story; scenes := scenes story;
     storyMode := storyMode story; isLoading := x |}.

(** [image: string | null] as the image callbacks receive it. *)
Definition imageOfCallback (image : option string) : Image :=
  match image with Some dataUrl => ImageReady dataUrl | None => ImageFailed end.

(** [a[i] = x] on an array: past the end JavaScript extends the array, the
    slots in between read [undefined]. *)
Definition arraySet (a : list (option loc)) (i : nat) (x : option loc) : list (option loc) :=
  if (i <? length a)%nat then <[i := x]> a
  else a ++ replicate (i - length a) None ++ [x].

(** [new object]: the store grows by one object, whose reference is
    returned. *)
Definition alloc (s : Scene) (h : Store) : loc * Store := (length h, h ++ [s]).

(** [paragraphs.map((p, i) => ({ paragraph: p, imagePrompt: imagePrompts[i],
    image: undefined }))] *)
Definition scenePlaceholders (paragraphs imagePrompts : list JSValue) : list Scene :=
  imap (λ i p, {| paragraph := p; imagePrompt := default JUndefined (imagePrompts !! i);
                  image := ImagePending; videoPrompt := None;
                  isVideoPromptLoading := None; isRegenerating := None |}) paragraphs.

(** The references of [n] objects allocated in a row in store [h]. *)
Definition freshRefs (h : Store) (n : nat) : list (option loc) := Some <$> seq (length h) n.

(** [scenes.map(s => s.paragraph)], from slot [i] on. A slot that reads
    [undefined] is either an element with the value [undefined], on which
    the arrow function throws, or a hole of the array (an index that a write
    past the end left without an element), which [map] skips: the result has
    a hole there too. A copy [[...scenes]] turns the holes of [scenes] into
    elements, so a list of slots does not tell which of the two a slot is:
    [isHole] does, for the array that is mapped. *)
Fixpoint paragraphsOf (isHole : nat -> bool) (h : Store) (scenes : list (option loc))
    (i : nat) : Result (list (option JSValue)) :=
  match scenes with
  | [] => Ok []
  | slot :: rest =>
      match slot with
      | Some l =>
          match h !! l with
          | Some s => ps ← paragraphsOf isHole h rest (S i); Ok (Some (paragraph s) :: ps)
          | None => Throw (TypeError_read "undefined" "paragraph")
          end
      | None =>
          if isHole i
          then ps ← paragraphsOf isHole h rest (S i); Ok (None :: ps)
          else Throw (TypeError_read "undefined" "paragraph")
      end
  end.

(** The scene objects a story refers to. *)
Definition sceneRefs (story : StoryResult) : list loc := omap (λ slot, slot) (scenes story).

(** The references of a story name distinct objects of the store. *)
Definition storyWf (h : Store) (story : StoryResult) : Prop :=
  NoDup (sceneRefs story) ∧ Forall (λ l, l < length h) (sceneRefs story).

(** No scene object is shared, within a story or between two stories of
    the collection. *)
Definition sessionWf (h : Store) (history : list StoryResult) : Prop :=
  NoDup (history ≫= sceneRefs) ∧ Forall (λ l, l < length h) (history ≫= sceneRefs).

(** A change of one story keeps the scene objects apart: it returns, the
    store does not shrink, and the story it returns refers to distinct
    objects, each of them one the story referred to before or one allocated
    by the change. *)
Definition keepsScenesApart (g : StoryResult -> list Scene -> Result StoryResult * list Scene)
  : Prop :=
  ∀ story h,
    storyWf h story →
    ∃ story' h',
      g story h = (Ok story', h')
      ∧ length h ≤ length h'
      ∧ NoDup (sceneRefs story')
      ∧ Forall (λ l, (l ∈ sceneRefs story ∨ length h ≤ l) ∧ l < length h') (sceneRefs story').

(** ** The remote service and the pipeline monad *)

(** [file.type] and the base64 payload that [FileReader.readAsDataURL]
    yields for the file. *)
Record File := { file_type : string; file_base64 : string }.

Record InlineData := { mimeType : string; data : string }.

Definition fileToGenerativePart (file : File) : InlineData :=
  {| mimeType := file_type file; data := file_base64 file |}.

(** One call of [ai.models.generateContent], by the operation that issues
    it, with the arguments its instruction payload is assembled from; the
    array of the existing paragraphs has [None] at a hole. *)
Inductive Request :=
| StoryRequest (character1Part : InlineData) (character2Part : option InlineData)
    (language artStyle : string) (sceneCount : nat) (storyMode : StoryMode)
| ContinueRequest (existingParagraphs : list (option JSValue))
    (character1Part : InlineData) (character2Part : option InlineData)
    (language artStyle : string) (sceneCount : nat) (storyMode : StoryMode)
| ImageRequest (prompt : JSValue)
    (character1Part : InlineData) (character2Part : option InlineData)
    (aspectRatio : string)
| VideoPromptRequest (paragraph : JSValue) (image : string)
    (character1Part : InlineData) (character2Part : option InlineData)
    (artStyle language : string)
| EditRequest (baseImage prompt : string)
    (character1Part : InlineData) (character2Part : option InlineData).

(** What the client reads of a response: [response.text], which is
    [undefined] ([None]) when the answer carries no text, and
    [response.candidates?.[0]?.content?.parts || []], each part with its
    optional [inlineData]. *)
Record Response := { text : option string; parts : list (option InlineData) }.

Definition NoImageReturned : string :=
  "Image generation failed, no image data received.".
Definition NoEditedImageReturned : string :=
  "Image editing failed, no image data received.".
Definition AllImagesFailed : string :=
  "Failed to generate any images. This could be due to API restrictions or a network issue. Please try again.".
Definition AllNewImagesFailed : string :=
  "Failed to generate any new images. Please try again.".

(** The [for] loop over the parts: the first part that has [inlineData]. *)
Fixpoint firstInlineData (ps : list (option InlineData)) : option string :=
  match ps with
  | [] => None
  | Some d :: _ => Some ("data:" +:+ mimeType d +:+ ";base64," +:+ data d)
  | None :: rest => firstInlineData rest
  end.

(** A computation of the pipeline: it may call the remote service, which
    is logged, change the caller's state through a callback, and return or
    throw. *)
Definition M (S A : Type) : Type := list Request * S -> Result A * (list Request * S).

#[global] Instance M_ret {S} : MRet (M S) := λ A a st, (Ok a, st).
#[global] Instance M_bind {S} : MBind (M S) :=
  λ A B f m st,
    match m st with
    | (Ok a, st') => f a st'
    | (Throw e, st') => (Throw e, st')
    end.

Definition throw {S A} (e : Thrown) : M S A := λ st, (Throw e, st).

(** [try { m } catch (e) { h e }], also [promise.catch(h)]. *)
Definition catch {S A} (m : M S A) (h : Thrown -> M S A) : M S A :=
  λ st,
    match m st with
    | (Ok a, st') => (Ok a, st')
    | (Throw e, st') => h e st'
    end.

(** [try { m } finally { f }] *)
Definition finally {S A} (m : M S A) (f : M S unit) : M S A :=
  λ st,
    match m st with
    | (r, st') =>
        match f st' with
        | (Ok _, st'') => (r, st'')
        | (Throw e, st'') => (Throw e, st'')
        end
    end.

Definition lift {S A} (r : Result A) : M S A := λ st, (r, st).

(** A synchronous callback into the caller's state. *)
Definition notify {S} (f : S -> S) : M S unit := λ st, (Ok tt, (st.1, f st.2)).

Definition getState {S} : M S S := λ st, (Ok st.2, st).

(** [await new Promise(resolve => setTimeout(resolve, ms))]: time is not
    part of the state. *)
Definition sleep {S} (ms : nat) : M S unit := mret tt.

Section Client.
Context {S : Type}.
Variable trim : string -> string.
Variable JSON_parse : string -> Result JSValue.
(** The remote service: the answer to a request, which may depend on how
    many requests were issued before it. *)
Variable ai_generateContent : nat -> Request -> Result Response.

Definition generateContent (req : Request) : M S Response :=
  λ st, (ai_generateContent (length st.1) req, (st.1 ++ [req], st.2)).

Definition generateStoryAndPrompts (character1Part : InlineData)
    (character2Part : option InlineData) (language artStyle : string)
    (sceneCount : nat) (storyMode : StoryMode) : M S JSValue :=
  response ← generateContent
    (StoryRequest character1Part character2Part language artStyle sceneCount storyMode);
  lift (parseAndValidateResponseText trim JSON_parse (text response)).

Definition continueStoryAndPrompts (existingParagraphs : list (option JSValue))
    (character1Part : InlineData) (character2Part : option InlineData)
    (language artStyle : string) (sceneCount : nat) (storyMode : StoryMode)
  : M S (JSValue * JSValue) :=
  response ← generateContent
    (ContinueRequest existingParagraphs character1Part character2Part
       language artStyle sceneCount storyMode);
  parsed ← lift (parseAndValidateResponseText trim JSON_parse (text response));
  storyParagraphs ← lift (getProp parsed "storyParagraphs");
  imagePrompts ← lift (getProp parsed "imagePrompts");
  mret (storyParagraphs, imagePrompts).

Definition generateImage (prompt : JSValue) (character1Part : InlineData)
    (character2Part : option InlineData) (aspectRatio : string) : M S string :=
  response ← generateContent (ImageRequest prompt character1Part character2Part aspectRatio);
  match firstInlineData (parts response) with
  | Some image => mret image
  | None => throw (ErrorObj NoImageReturned)
  end.

(** [return response.text.trim()] is not guarded: on an answer without
    text it throws a TypeError. *)
Definition generateVideoPrompt (paragraph : JSValue) (image : string)
    (character1File : File) (character2File : option File)
    (artStyle language : string) : M S string :=
  let character1Part := fileToGenerativePart character1File in
  let character2Part := fileToGenerativePart <$> character2File in
  response ← generateContent
    (VideoPromptRequest paragraph image character1Part character2Part artStyle language);
  match text response with
  | Some responseText => mret (trim responseText)
  | None => throw (TypeError_read "undefined" "trim")
  end.

Definition editImage (baseImage prompt : string) (character1Part : InlineData)
    (character2Part : option InlineData) : M S string :=
  response ← generateContent (EditRequest baseImage prompt character1Part character2Part);
  match firstInlineData (parts response) with
  | Some image => mret image
  | None => throw (ErrorObj NoEditedImageReturned)
  end.

(** *** The two pipelines *)

Variable updateProgress : nat -> option (nat * nat) -> S -> S.
Variable onImageGenerated : option string -> nat -> S -> S.

(** The body of the [try] statement of one iteration: a first attempt,
    on failure one retry a second later; the pair is the value of [image]
    and of [failedImageCount] after the statement. *)
Definition imageWithRetry (prompt : JSValue) (character1Part : InlineData)
    (character2Part : option InlineData) (aspectRatio : string)
    (failedImageCount : nat) : M S (option string * nat) :=
  catch
    (image ← catch
       (generateImage prompt character1Part character2Part aspectRatio)
       (λ err, sleep 1000;;
               generateImage prompt character1Part character2Part aspectRatio);
     mret (Some image, failedImageCount))
    (λ err, mret (None, Datatypes.S failedImageCount)).

(** The [for] loop, from index [i] on, over the prompts not yet
    processed; it returns [failedImageCount]. *)
Fixpoint imageLoop (character1Part : InlineData) (character2Part : option InlineData)
    (aspectRatio : string) (total : nat)
    (remaining : list JSValue) (i failedImageCount : nat) : M S nat :=
  match remaining with
  | [] => mret failedImageCount
  | prompt :: rest =>
      r ← imageWithRetry prompt character1Part character2Part aspectRatio failedImageCount;
      notify (onImageGenerated r.1 i);;
      notify (updateProgress 3 (Some (Datatypes.S i, total)));;
      imageLoop character1Part character2Part aspectRatio total rest (Datatypes.S i) r.2
  end.

(** The value of [image] with which iteration [n] of the loop ends, the
    loop being started at index [i] with [failedImageCount] failures so
    far: the loop is run over the prompts before the [n]-th, then the
    [try] statement of that iteration. *)
Definition sceneOutcome (character1Part : InlineData) (character2Part : option InlineData)
    (aspectRatio : string) (total : nat) (prompts : list JSValue)
    (i failedImageCount : nat) (st : list Request * S) (n : nat)
  : option (option string) :=
  prompt ← prompts !! n;
  match imageLoop character1Part character2Part aspectRatio total
          (take n prompts) i failedImageCount st with
  | (Ok failed, st_n) =>
      match imageWithRetry prompt character1Part character2Part aspectRatio failed st_n with
      | (Ok r, _) => Some r.1
      | (Throw _, _) => None
      end
  | (Throw _, _) => None
  end.

Definition generateStoryAndImages (character1File : File) (character2File : option File)
    (language aspectRatio artStyle : string) (sceneCount : nat) (storyMode : StoryMode)
    (onStoryGenerated : JSValue -> list JSValue -> list JSValue -> S -> S)
  : M S unit :=
  let character1Part := fileToGenerativePart character1File in
  let character2Part := fileToGenerativePart <$> character2File in
  notify (updateProgress 1 None);;
  parsed ← generateStoryAndPrompts character1Part character2Part language artStyle
             sceneCount storyMode;
  storyTitle ← lift (getProp parsed "storyTitle");
  storyParagraphs ← lift (getProp parsed "storyParagraphs");
  imagePrompts ← lift (getProp parsed "imagePrompts");
  notify (onStoryGenerated storyTitle (arrayItems storyParagraphs) (arrayItems imagePrompts));;
  notify (updateProgress 2 None);;
  notify (updateProgress 3 (Some (0, length (arrayItems imagePrompts))));;
  failedImageCount ← imageLoop character1Part character2Part aspectRatio
                       (length (arrayItems imagePrompts)) (arrayItems imagePrompts) 0 0;
  if (0 <? failedImageCount)%nat
     && (failedImageCount =? length (arrayItems imagePrompts))%nat
  then throw (ErrorObj AllImagesFailed)
  else notify (updateProgress 4 None).

Variable sceneStore : S -> Store.
(** Which slots of [existingStory.scenes] are holes of that array. *)
Variable isHole : nat -> bool.

Definition continueStoryAndImages (existingStory : StoryResult)
    (character1File : File) (character2File : option File)
    (language aspectRatio artStyle : string) (sceneCount : nat) (newStoryMode : StoryMode)
    (onNewStoryPartsGenerated : list JSValue -> list JSValue -> S -> S)
  : M S unit :=
  let character1Part := fileToGenerativePart character1File in
  let character2Part := fileToGenerativePart <$> character2File in
  notify (updateProgress 1 None);;
  s ← getState;
  existingParagraphs ← lift (paragraphsOf isHole (sceneStore s) (scenes existingStory) 0);
  r ← continueStoryAndPrompts existingParagraphs character1Part character2Part
        language artStyle sceneCount newStoryMode;
  let storyParagraphs := r.1 in
  let imagePrompts := r.2 in
  notify (onNewStoryPartsGenerated (arrayItems storyParagraphs) (arrayItems imagePrompts));;
  notify (updateProgress 2 None);;
  notify (updateProgress 3 (Some (0, length (arrayItems imagePrompts))));;
  failedImageCount ← imageLoop character1Part character2Part aspectRatio
                       (length (arrayItems imagePrompts)) (arrayItems imagePrompts) 0 0;
  if (0 <? failedImageCount)%nat
     && (failedImageCount =? length (arrayItems imagePrompts))%nat
  then throw (ErrorObj AllNewImagesFailed)
  else notify (updateProgress 4 None).
End Client.

(** ** The story session ([App.tsx]) *)

(** The React state of [App] that the handlers change, with the store of
    scene objects. [renderError] is set when a queued state updater throws
    while React applies it. *)
Record AppState := {
  store : Store;
  storyHistory : list StoryResult;
  activeStoryIndex : option nat;
  continuationMode : option StoryMode;
  error : option string;
  isEditModalOpen : bool;
  editingSceneIndex : option nat;
  isEditingImage : bool;
  generationStep : nat;
  illustrationProgress : option (nat * nat);
  renderError : option Thrown;
}.

Definition set_session (h : Store) (history : list StoryResult) (s : AppState) : AppState :=
  {| store := h; storyHistory := history; activeStoryIndex := activeStoryIndex s;
     continuationMode := continuationMode s; error := error s;
     isEditModalOpen := isEditModalOpen s; editingSceneIndex := editingSceneIndex s;
     isEditingImage := isEditingImage s; generationStep := generationStep s;
     illustrationProgress := illustrationProgress s; renderError := renderError s |}.

Definition set_renderError (x : option Thrown) (s : AppState) : AppState :=
  {| store := store s; storyHistory := storyHistory s; activeStoryIndex := activeStoryIndex s;
     continuationMode := continuationMode s; error := error s;
     isEditModalOpen := isEditModalOpen s; editingSceneIndex := editingSceneIndex s;
     isEditingImage := isEditingImage s; generationStep := generationStep s;
     illustrationProgress := illustrationProgress s; renderError := x |}.

Definition setError (x : option string) (s : AppState) : AppState :=
  {| store := store s; storyHistory := storyHistory s; activeStoryIndex := activeStoryIndex s;
     continuationMode := continuationMode s; error := x;
     isEditModalOpen := isEditModalOpen s; editingSceneIndex := editingSceneIndex s;
     isEditingImage := isEditingImage s; generationStep := generationStep s;
     illustrationProgress := illustrationProgress s; renderError := renderError s |}.

Definition setContinuationMode (x : option StoryMode) (s : AppState) : AppState :=
  {| store := store s; storyHistory := storyHistory s; activeStoryIndex := activeStoryIndex s;
     continuationMode := x; error := error s;
     isEditModalOpen := isEditModalOpen s; editingSceneIndex := editingSceneIndex s;
     isEditingImage := isEditingImage s; generationStep := generationStep s;
     illustrationProgress := illustrationProgress s; renderError := renderError s |}.

Definition setIsEditingImage (x : bool) (s : AppState) : AppState :=
  {| store := store s; storyHistory := storyHistory s; activeStoryIndex := activeStoryIndex s;
     continuationMode := continuationMode s; error := error s;
     isEditModalOpen := isEditModalOpen s; editingSceneIndex := editingSceneIndex s;
     isEditingImage := x; generationStep := generationStep s;
     illustrationProgress := illustrationProgress s; renderError := renderError s |}.

Definition setGenerationStep (x : nat) (s : AppState) : AppState :=
  {| store := store s; storyHistory := storyHistory s; activeStoryIndex := activeStoryIndex s;
     continuationMode := continuationMode s; error := error s;
     isEditModalOpen := isEditModalOpen s; editingSceneIndex := editingSceneIndex s;
     isEditingImage := isEditingImage s; generationStep := x;
     illustrationProgress := illustrationProgress s; renderError := renderError s |}.

Definition setIllustrationProgress (x : option (nat * nat)) (s : AppState) : AppState :=
  {| store := store s; storyHistory := storyHistory s; activeStoryIndex := activeStoryIndex s;
     continuationMode := continuationMode s; error := error s;
     isEditModalOpen := isEditModalOpen s; editingSceneIndex := editingSceneIndex s;
     isEditingImage := isEditingImage s; generationStep := generationStep s;
     illustrationProgress := x; renderError := renderError s |}.

Definition handleCloseEditModal (s : AppState) : AppState :=
  {| store := store s; storyHistory := storyHistory s; activeStoryIndex := activeStoryIndex s;
     continuationMode := continuationMode s; error := error s;
     isEditModalOpen := false; editingSceneIndex := None;
     isEditingImage := isEditingImage s; generationStep := generationStep s;
     illustrationProgress := illustrationProgress s; renderError := renderError s |}.

Definition handleOpenEditModal (sceneIndex : nat) (s : AppState) : AppState :=
  {| store := store s; storyHistory := storyHistory s; activeStoryIndex := activeStoryIndex s;
     continuationMode := continuationMode s; error := error s;
     isEditModalOpen := true; editingSceneIndex := Some sceneIndex;
     isEditingImage := isEditingImage s; generationStep := generationStep s;
     illustrationProgress := illustrationProgress s; renderError := renderError s |}.

Definition handleProgressUpdate (step : nat) (progress : option (nat * nat))
    (s : AppState) : AppState :=
  let s1 := setGenerationStep step s in
  match progress with
  | Some p => if (step =? 3)%nat then setIllustrationProgress (Some p) s1 else s1
  | None => s1
  end.

(** *** State updaters

    The function a [prev.map(...)] applies to one story, at its index: it
    may allocate scene objects, write one in place, or throw. *)
Definition StoryFn : Type := nat -> StoryResult -> Store -> Result StoryResult * Store.

(** [prev.map((story, index) => f index story)] *)
Fixpoint mapStories (f : StoryFn) (index : nat) (prev : list StoryResult) (h : Store)
  : Result (list StoryResult) * Store :=
  match prev with
  | [] => (Ok [], h)
  | story :: rest =>
      match f index story h with
      | (Ok story', h1) =>
          match mapStories f (S index) rest h1 with
          | (Ok rest', h2) => (Ok (story' :: rest'), h2)
          | (Throw e, h2) => (Throw e, h2)
          end
      | (Throw e, h1) => (Throw e, h1)
      end
  end.

(** [setStoryHistory(prev => prev.map(f))]: React applies the updater to
    the latest collection and installs the array it returns. *)
Definition setStoryHistory (f : StoryFn) (s : AppState) : AppState :=
  match mapStories f 0 (storyHistory s) (store s) with
  | (Ok history, h) => set_session h history s
  | (Throw e, h) => set_renderError (Some e) (set_session h (storyHistory s) s)
  end.

(** [if (story.id !== storyId) return story;] before the change [f]. *)
Definition withId (storyId : Z)
    (f : StoryResult -> Store -> Result StoryResult * Store) : StoryFn :=
  λ _ story h, if negb (id story =? storyId)%Z then (Ok story, h) else f story h.

(** [if (index !== activeStoryIndex) return story;] before the change [f]. *)
Definition atActive (activeStoryIndex : nat)
    (f : StoryResult -> Store -> Result StoryResult * Store) : StoryFn :=
  λ index story h,
    if negb (index =? activeStoryIndex)%nat then (Ok story, h) else f story h.

(** [newScenes[i] = { ...newScenes[i], ...changes }] on a copy of the
    story's array: a new scene object replaces the slot. *)
Definition replaceScene (changes : Scene -> Scene) (sceneIndex : nat)
    (story : StoryResult) (h : Store) : Result StoryResult * Store :=
  let newScenes := scenes story in
  let copy := default emptyScene (sceneRef newScenes sceneIndex ≫= (h !!.)) in
  let '(l, h') := alloc (changes copy) h in
  (Ok (set_scenes (arraySet newScenes sceneIndex (Some l)) story), h').

(** [if (newScenes[i]) { newScenes[i].image = image }] on a copy of the
    story's array: the scene object itself is written. *)
Definition writeImageIfPresent (x : Image) (i : option nat)
    (story : StoryResult) (h : Store) : Result StoryResult * Store :=
  let newScenes := scenes story in
  match i ≫= sceneRef newScenes with
  | Some l => (Ok (set_scenes newScenes story), alter (set_image x) l h)
  | None => (Ok (set_scenes newScenes story), h)
  end.

Definition TypeError_set (what key : string) : Thrown :=
  ErrorObj ("Cannot set properties of " +:+ what +:+ " (setting '" +:+ key +:+ "')").

(** [newScenes[i].image = image] without the guard. *)
Definition writeImage (x : Image) (i : nat)
    (story : StoryResult) (h : Store) : Result StoryResult * Store :=
  let newScenes := scenes story in
  match sceneRef newScenes i with
  | Some l => (Ok (set_scenes newScenes story), alter (set_image x) l h)
  | None => (Throw (TypeError_set "undefined" "image"), h)
  end.

(** An array index computed as a number: a negative one names no slot. *)
Definition indexOfZ (z : Z) : option nat :=
  if (z <? 0)%Z then None else Some (Z.to_nat z).

(** A handler runs on the state it closes over: React creates the handler
    anew at every render, so the state it reads when it starts is the
    current one. The updates it queues are applied as they are queued; the
    scene objects a handler took from the state it closed over are read from
    the store when the source reads them. A reference always names an object
    of the store, so [default emptyScene] is never taken on such a read. *)
Section Handlers.
Variable trim : string -> string.
Variable JSON_parse : string -> Result JSValue.
Variable ai_generateContent : nat -> Request -> Result Response.
(** The translation function of the language context. *)
Variable t : string -> string.
(** The inputs the handlers close over. *)
Variable character1 : option File.
Variable character2 : option File.
Variable language aspectRatio artStyle : string.
(** [parseInt(sceneCount, 10)]; [None] is NaN. *)
Variable sceneCountNum : option Z.

Definition errorMessage (err : Thrown) (fallback : string) : string :=
  match err with ErrorObj message => message | NonError => t fallback end.

(** *** [handleGenerate]: the callbacks of the task of one version *)

Definition onStoryGenerated (storyId : Z) (title : JSValue)
    (paragraphs imagePrompts : list JSValue) : AppState -> AppState :=
  setStoryHistory (withId storyId (λ story h,
    let newScenes := scenePlaceholders paragraphs imagePrompts in
    (Ok (set_scenes (freshRefs h (length newScenes)) (set_title title story)),
     h ++ newScenes))).

Definition onImageGenerated (storyId : Z) (image : option string) (imgIndex : nat)
  : AppState -> AppState :=
  setStoryHistory (withId storyId
    (writeImageIfPresent (imageOfCallback image) (Some imgIndex))).

Definition onGenerationFailed (storyId : Z) (err : Thrown) : AppState -> AppState :=
  setStoryHistory (withId storyId (λ story h,
    let '(l, h') :=
      alloc {| paragraph := JString (errorMessage err "errorUnknown");
               imagePrompt := JString ""; image := ImageFailed;
               videoPrompt := None; isVideoPromptLoading := None;
               isRegenerating := None |} h in
    (Ok (set_isLoading (Some false)
           (set_scenes [Some l] (set_title (JString (t "errorTitle")) story))), h'))).

Definition onGenerationSettled (storyId : Z) : AppState -> AppState :=
  setStoryHistory (withId storyId (λ story h,
    (Ok (set_isLoading (Some false) story), h))).

(** The promise of one version, [index] its position among the versions
    requested together: only the first one reports progress. *)
Definition generationTask (character1File : File) (sceneCount : nat)
    (storyMode : StoryMode) (storyId : Z) (index : nat) : M AppState unit :=
  let progressHandler := if (index =? 0)%nat then handleProgressUpdate else λ _ _ s, s in
  catch
    (generateStoryAndImages trim JSON_parse ai_generateContent
       progressHandler (onImageGenerated storyId)
       character1File character2 language aspectRatio artStyle sceneCount storyMode
       (onStoryGenerated storyId))
    (λ err, notify (onGenerationFailed storyId err);; throw err).

(** *** [handleContinueStory] *)

(** The state of one invocation: the local [newSceneCount] that its two
    callbacks share. *)
Record Continuation := { app : AppState; newSceneCount : nat }.

Definition inApp (f : AppState -> AppState) (c : Continuation) : Continuation :=
  {| app := f (app c); newSceneCount := newSceneCount c |}.

Definition onNewStoryPartsGenerated (activeStoryIndex : nat) (mode : StoryMode)
    (paragraphs imagePrompts : list JSValue) (c : Continuation) : Continuation :=
  let newScenePlaceholders := scenePlaceholders paragraphs imagePrompts in
  let refs := freshRefs (store (app c)) (length newScenePlaceholders) in
  let s1 := set_session (store (app c) ++ newScenePlaceholders) (storyHistory (app c)) (app c) in
  {| newSceneCount := length paragraphs;
     app := setStoryHistory (atActive activeStoryIndex (λ story h,
              (Ok (set_storyMode mode (set_scenes (scenes story ++ refs) story)), h))) s1 |}.

Definition onNewImageGenerated (activeStoryIndex : nat)
    (image : option string) (index : nat) (c : Continuation) : Continuation :=
  inApp (setStoryHistory (atActive activeStoryIndex (λ story h,
    let absoluteIndex :=
      (Z.of_nat (length (scenes story)) - Z.of_nat (newSceneCount c) + Z.of_nat index)%Z in
    writeImageIfPresent (imageOfCallback image) (indexOfZ absoluteIndex) story h))) c.

(** Which slots of [currentStory.scenes], the array of the story that is
    continued, are holes of that array. *)
Variable isHole : nat -> bool.

Definition handleContinueStory (mode : StoryMode) : M Continuation unit :=
  c0 ← getState;
  match activeStoryIndex (app c0), character1 with
  | Some active, Some character1File =>
      let currentStory := storyHistory (app c0) !! active in
      match sceneCountNum with
      | None => notify (inApp (setError (Some (t "errorInvalidSceneCount"))))
      | Some n =>
          if (n <? 1)%Z || (100 <? n)%Z
          then notify (inApp (setError (Some (t "errorInvalidSceneCount"))))
          else
            notify (inApp (setContinuationMode (Some mode)));;
            notify (inApp (setError None));;
            notify (inApp (setGenerationStep 0));;
            notify (inApp (setIllustrationProgress None));;
            finally
              (catch
                 match currentStory with
                 | Some existingStory =>
                     continueStoryAndImages trim JSON_parse ai_generateContent
                       (λ step progress, inApp (handleProgressUpdate step progress))
                       (onNewImageGenerated active)
                       (λ c, store (app c)) isHole
                       existingStory character1File character2
                       language aspectRatio artStyle (Z.to_nat n) mode
                       (onNewStoryPartsGenerated active mode)
                 | None =>
                     notify (inApp (handleProgressUpdate 1 None));;
                     throw (TypeError_read "undefined" "scenes")
                 end
                 (λ err, notify (inApp (setError (Some (errorMessage err "errorUnknown"))))))
              (notify (inApp (setContinuationMode None));;
               notify (inApp (setGenerationStep 0));;
               notify (inApp (setIllustrationProgress None)))
      end
  | _, _ => mret tt
  end.

(** *** The follow-up actions on one scene of the active story *)

(** The scene object [currentStory.scenes[sceneIndex]] of the story the
    handler closes over. *)
Definition closedOverScene (s0 : AppState) (active sceneIndex : nat) : option loc :=
  currentStory ← storyHistory s0 !! active; sceneRef (scenes currentStory) sceneIndex.

Definition handleRegenerateImage (sceneIndex : nat) : M AppState unit :=
  s0 ← getState;
  match activeStoryIndex s0, character1 with
  | Some active, Some character1File =>
      match closedOverScene s0 active sceneIndex with
      | None => mret tt
      | Some sceneToRegenerate =>
          notify (setError None);;
          notify (setStoryHistory (atActive active
                    (replaceScene (set_isRegenerating (Some true)) sceneIndex)));;
          finally
            (catch
               (s1 ← getState;
                let character1Part := fileToGenerativePart character1File in
                let character2Part := fileToGenerativePart <$> character2 in
                let scene := default emptyScene (store s1 !! sceneToRegenerate) in
                newImage ← generateImage ai_generateContent (imagePrompt scene)
                             character1Part character2Part aspectRatio;
                notify (setStoryHistory (atActive active
                          (replaceScene (set_image (ImageReady newImage)) sceneIndex))))
               (λ err, notify (setError (Some (errorMessage err "errorUnknown")))))
            (notify (setStoryHistory (atActive active
                       (replaceScene (set_isRegenerating (Some false)) sceneIndex))))
      end
  | _, _ => mret tt
  end.

(** The [try] statement of [handleGenerateVideoPrompt]; [l] is the scene
    object [currentStory.scenes[sceneIndex]] that the handler closes
    over. *)
Definition handleGenerateVideoPrompt_try (active sceneIndex : nat) (l : loc)
    (character1File : File) : M AppState unit :=
  catch
    (s1 ← getState;
     let scene := default emptyScene (store s1 !! l) in
     videoPrompt ←
       match image scene with
       | ImageReady dataUrl =>
           generateVideoPrompt trim ai_generateContent (paragraph scene)
             dataUrl character1File character2 artStyle language
       | ImageFailed => throw (TypeError_read "null" "split")
       | ImagePending => throw (TypeError_read "undefined" "split")
       end;
     notify (setStoryHistory (atActive active
               (replaceScene
                  (λ sc, set_isVideoPromptLoading (Some false)
                           (set_videoPrompt (Some videoPrompt) sc))
                  sceneIndex))))
    (λ err,
       notify (setStoryHistory (atActive active
                 (replaceScene (set_isVideoPromptLoading (Some false)) sceneIndex)));;
       notify (setError (Some (errorMessage err "errorVideoPrompt")))).

Definition handleGenerateVideoPrompt (sceneIndex : nat) : M AppState unit :=
  s0 ← getState;
  match activeStoryIndex s0, character1 with
  | Some active, Some character1File =>
      match storyHistory s0 !! active with
      | None => mret tt
      | Some currentStory =>
          match sceneRef (scenes currentStory) sceneIndex with
          | None => throw (TypeError_read "undefined" "image")
          | Some l =>
              if negb (imageTruthy (image (default emptyScene (store s0 !! l))))
              then mret tt
              else
                notify (setStoryHistory (atActive active
                          (replaceScene
                             (λ sc, set_videoPrompt None
                                      (set_isVideoPromptLoading (Some true) sc))
                             sceneIndex)));;
                notify (setError None);;
                handleGenerateVideoPrompt_try active sceneIndex l character1File
          end
      end
  | _, _ => mret tt
  end.

Definition handleEditImage (editPrompt : string) : M AppState unit :=
  s0 ← getState;
  match activeStoryIndex s0, editingSceneIndex s0, character1 with
  | Some active, Some editingScene, Some character1File =>
      if String.eqb editPrompt "" then mret tt else
      match storyHistory s0 !! active with
      | None => mret tt
      | Some currentStory =>
          match sceneRef (scenes currentStory) editingScene with
          | None => throw (TypeError_read "undefined" "image")
          | Some l =>
              if negb (imageTruthy (image (default emptyScene (store s0 !! l))))
              then mret tt
              else
                notify (setIsEditingImage true);;
                notify (setError None);;
                finally
                  (catch
                     (s1 ← getState;
                      let sceneToEdit := default emptyScene (store s1 !! l) in
                      let character1Part := fileToGenerativePart character1File in
                      let character2Part := fileToGenerativePart <$> character2 in
                      newImage ←
                        match image sceneToEdit with
                        | ImageReady dataUrl =>
                            editImage ai_generateContent dataUrl editPrompt
                              character1Part character2Part
                        | ImageFailed => throw (TypeError_read "null" "split")
                        | ImagePending => throw (TypeError_read "undefined" "split")
                        end;
                      notify (setStoryHistory (atActive active
                                (writeImage (ImageReady newImage) editingScene))))
                     (λ err, notify (setError (Some (errorMessage err "errorEditImage")))))
                  (notify (setIsEditingImage false);;
                   notify handleCloseEditModal)
          end
      end
  | _, _, _ => mret tt
  end.
End Handlers.

(** A continuation under way: the invocation has appended [p] scenes to
    the [j] scenes the story at index [active] had; the story refers to
    distinct scene objects. *)
Definition continuationInProgress (active j p : nat) (c : Continuation) : Prop :=
  newSceneCount c = p
  ∧ ∃ story,
      storyHistory (app c) !! active = Some story
      ∧ length (scenes story) = j + p
      ∧ storyWf (store (app c)) story
      ∧ ∀ k, k < p → is_Some (sceneRef (scenes story) (j + k)).

(** ** Sample data

    A session of one story of two scenes, some responses of the remote
    service, and stand-ins for the runtime's functions on the few texts the
    examples use. *)

Definition sampleCharacter : File :=
  {| file_type := "image/png"; file_base64 := "iVBORw0KGgo=" |}.

Definition sampleImage : InlineData := {| mimeType := "image/png"; data := "AAAA" |}.

Definition kiteScene : Scene :=
  {| paragraph := JString "Sinta found a red kite.";
     imagePrompt := JString "a girl holding a red kite";
     image := ImageReady "data:image/png;base64,BBBB";
     videoPrompt := Some "the kite rises slowly";
     isVideoPromptLoading := Some false; isRegenerating := None |}.

Definition hillScene : Scene :=
  {| paragraph := JString "She ran up the hill.";
     imagePrompt := JString "a girl running up a green hill";
     image := ImagePending;
     videoPrompt := None; isVideoPromptLoading := None; isRegenerating := None |}.

Definition kiteStory : StoryResult :=
  {| id := 1730000000000; title := JString "The Red Kite";
     scenes := [Some 0; Some 1]; storyMode := extend; isLoading := Some false |}.

Definition sampleSession : AppState :=
  {| store := [kiteScene; hillScene]; storyHistory := [kiteStory];
     activeStoryIndex := Some 0; continuationMode := None; error := None;
     isEditModalOpen := true; editingSceneIndex := Some 0; isEditingImage := false;
     generationStep := 0; illustrationProgress := None; renderError := None |}.

(** The same session after a video prompt whose text was blank: the
    scene holds the empty string, and the interface offers the action
    again. *)
Definition blankPromptSession : AppState :=
  {| store := [set_videoPrompt (Some "") kiteScene; hillScene]; storyHistory := [kiteStory];
     activeStoryIndex := Some 0; continuationMode := None; error := None;
     isEditModalOpen := false; editingSceneIndex := None; isEditingImage := false;
     generationStep := 0; illustrationProgress := None; renderError := None |}.

(** A version that was just requested: a placeholder without scenes. *)
Definition placeholderSession : AppState :=
  {| store := []; 
     storyHistory := [ {| id := 1730000000000; title := JString "Generating";
                          scenes := []; storyMode := conclude; isLoading := Some true |} ];
     activeStoryIndex := Some 0; continuationMode := None; error := None;
     isEditModalOpen := false; editingSceneIndex := None; isEditingImage := false;
     generationStep := 0; illustrationProgress := None; renderError := None |}.

(** Three paragraphs, two prompts. *)
Definition mismatchedResponse : JSValue :=
  JObject [("storyTitle", JString "The Red Kite");
           ("storyParagraphs",
            JArray [JString "Sinta found a red kite."; JString "She ran up the hill.";
                    JString "The wind took the kite."]);
           ("imagePrompts",
            JArray [JString "a girl holding a red kite";
                    JString "a girl running up a green hill"])].

(** No paragraph, one prompt. *)
Definition emptyParagraphsResponse : JSValue :=
  JObject [("storyTitle", JString "The Red Kite");
           ("storyParagraphs", JArray []);
           ("imagePrompts", JArray [JString "a girl holding a red kite"])].

(** What validation makes of [mismatchedResponse]. *)
Definition truncatedResponse : JSValue :=
  JObject [("storyTitle", JString "The Red Kite");
           ("storyParagraphs",
            JArray [JString "Sinta found a red kite."; JString "She ran up the hill."]);
           ("imagePrompts",
            JArray [JString "a girl holding a red kite";
                    JString "a girl running up a green hill"])].

Definition sampleTrim (s : string) : string := s.

Definition sampleParse (jsonText : string) : Result JSValue :=
  if String.eqb jsonText "three paragraphs, two prompts" then Ok mismatchedResponse
  else if String.eqb jsonText "no paragraph, one prompt" then Ok emptyParagraphsResponse
  else if String.eqb jsonText "null" then Ok JNull
  else Throw (ErrorObj "Unexpected token").

Definition imageResponse : Response := {| text := None; parts := [None; Some sampleImage] |}.

(** A service that is down. *)
Definition serviceDown : nat -> Request -> Result Response :=
  λ _ _, Throw (ErrorObj "503 Service Unavailable").

(** A service that fails the first request it gets and answers the later
    ones: a story request with the mismatched response, any other request
    with an image. *)
Definition serviceFailingOnce : nat -> Request -> Result Response :=
  λ n request,
    if (n =? 0)%nat then Throw (ErrorObj "503 Service Unavailable")
    else match request with
         | StoryRequest _ _ _ _ _ _ | ContinueRequest _ _ _ _ _ _ _ =>
             Ok {| text := Some "three paragraphs, two prompts"; parts := [] |}
         | _ => Ok imageResponse
         end.

(** A service that answers story requests and fails every other request. *)
Definition serviceWithoutImages : nat -> Request -> Result Response :=
  λ _ request,
    match request with
    | StoryRequest _ _ _ _ _ _ | ContinueRequest _ _ _ _ _ _ _ =>
        Ok {| text := Some "three paragraphs, two prompts"; parts := [] |}
    | _ => Throw (ErrorObj "503 Service Unavailable")
    end.

(** A service that answers story requests, and image requests from the
    fourth request on. *)
Definition serviceRecovering : nat -> Request -> Result Response :=
  λ n request,
    match request with
    | StoryRequest _ _ _ _ _ _ | ContinueRequest _ _ _ _ _ _ _ =>
        Ok {| text := Some "three paragraphs, two prompts"; parts := [] |}
    | _ => if (n <? 3)%nat then Throw (ErrorObj "503 Service Unavailable")
           else Ok imageResponse
    end.

(** A service that answers every request with an image and no text. *)
Definition serviceUp : nat -> Request -> Result Response := λ _ _, Ok imageResponse.

(** A service that answers every request with a text and no image. *)
Definition serviceWriting : nat -> Request -> Result Response :=
  λ _ _, Ok {| text := Some "slow pan over the green hill"; parts := [] |}.

Definition sampleTranslate (key : string) : string := key.

(** ** Data URLs

    A string holds the UTF-8 bytes of the JavaScript string, so a pattern
    of ASCII characters matches at the same places in both. *)

Fixpoint untilChar (sep : ascii) (s : string) : string :=
  match s with
  | EmptyString => EmptyString
  | String c rest =>
      if Ascii.eqb c sep then EmptyString else String c (untilChar sep rest)
  end.

(** [s.split(sep)[1]] for a separator of one character: the text between
    the first separator and the second one, [undefined] when [s] has no
    separator. *)
Fixpoint secondSegment (sep : ascii) (s : string) : option string :=
  match s with
  | EmptyString => None
  | String c rest =>
      if Ascii.eqb c sep then Some (untilChar sep rest) else secondSegment sep rest
  end.

(** Whether a line terminator starts [s]: LF, CR, U+2028 or U+2029, the
    characters that [.] of a regular expression does not match. *)
Definition atLineTerminator (s : string) : bool :=
  match s with
  | EmptyString => false
  | String c rest =>
      Ascii.eqb c "010" || Ascii.eqb c "013"
      || (Ascii.eqb c "226"
          && match rest with
             | String c1 (String c2 _) =>
                 Ascii.eqb c1 "128" && (Ascii.eqb c2 "168" || Ascii.eqb c2 "169")
             | _ => false
             end)
  end.

(** The longest text that a greedy run of [.] can match at the start of
    [s]. *)
Fixpoint restOfLine (s : string) : string :=
  match s with
  | EmptyString => EmptyString
  | String c rest =>
      if atLineTerminator s then EmptyString else String c (restOfLine rest)
  end.

(** A greedy group of [.] followed by a semicolon, on a line: the group
    ends before the last semicolon of the line. *)
Fixpoint beforeLastSemicolon (line : string) : option string :=
  match line with
  | EmptyString => None
  | String c rest =>
      match beforeLastSemicolon rest with
      | Some group => Some (String c group)
      | None => if Ascii.eqb c ";" then Some EmptyString else None
      end
  end.

Definition afterDataPrefix (s : string) : option string :=
  match s with
  | String "d" (String "a" (String "t" (String "a" (String ":" rest)))) => Some rest
  | _ => None
  end.

(** [s.match(re)?.[1]] for the regular expression [re] that the source
    uses on data URLs: the text [data:], a greedy group of [.], a
    semicolon. The match is the leftmost one; the result is its group. *)
Fixpoint matchDataMime (s : string) : option string :=
  match afterDataPrefix s ≫= (λ rest, beforeLastSemicolon (restOfLine rest)) with
  | Some group => Some group
  | None =>
      match s with
      | EmptyString => None
      | String _ rest => matchDataMime rest
      end
  end.

(** [x || fallback] on an optional string. *)
Definition orElse (x : option string) (fallback : string) : string :=
  match x with
  | Some s => if String.eqb s "" then fallback else s
  | None => fallback
  end.

(** The [imagePart] that [generateVideoPrompt] and [editImage] send:
    [{ data: image.split(',')[1], mimeType: image.match(re)?.[1] || 'image/png' }]. *)
Record ImagePart := { part_data : option string; part_mimeType : string }.

Definition imagePart (image : string) : ImagePart :=
  {| part_data := secondSegment "," image;
     part_mimeType := orElse (matchDataMime image) "image/png" |}.

(** The data URL that [generateImage] and [editImage] make of a part:
    [`data:${mimeType};base64,${data}`]. *)
Definition dataUrlOf (d : InlineData) : string :=
  "data:" +:+ mimeType d +:+ ";base64," +:+ data d.

(** No character of [s] is one of [bad]. *)
Fixpoint noneOf (bad : list ascii) (s : string) : bool :=
  match s with
  | EmptyString => true
  | String c rest => negb (existsb (Ascii.eqb c) bad) && noneOf bad rest
  end.

(** *** Downloads ([StoryOutput]) *)

(** [handleDownloadSingle]: the [href] and the [download] name of the
    link it clicks, if it clicks one. *)
Definition handleDownloadSingle (imageSrc : Image) (baseFileName : string)
  : option (string * string) :=
  match imageSrc with
  | ImageReady src =>
      if String.eqb src "" then None else
      let mimeType := default "image/png" (matchDataMime src) in
      let extension := orElse (secondSegment "/" mimeType) "png" in
      Some (src, baseFileName +:+ "." +:+ extension)
  | _ => None
  end.

(** A computation [m] keeps the property [P] of the caller's state,
    whether it returns or throws. *)
Definition keeps {S A} (P : S -> Prop) (m : M S A) : Prop :=
  ∀ st, P st.2 → P (m st).2.2.

(** *** Recording callbacks

    Callbacks that only record that they were called, to observe the order
    in which a pipeline calls them. *)
Inductive CallbackCall :=
| ProgressCall (step : nat) (progress : option (nat * nat))
| StoryCall (title : JSValue) (paragraphs imagePrompts : list JSValue)
| ImageCall (image : option string) (index : nat).

Definition recordProgress (step : nat) (progress : option (nat * nat))
    (calls : list CallbackCall) : list CallbackCall :=
  calls ++ [ProgressCall step progress].

Definition recordStory (title : JSValue) (paragraphs imagePrompts : list JSValue)
    (calls : list CallbackCall) : list CallbackCall :=
  calls ++ [StoryCall title paragraphs imagePrompts].

Definition recordImage (image : option string) (index : nat)
    (calls : list CallbackCall) : list CallbackCall :=
  calls ++ [ImageCall image index].

(** *** [handleGenerate]: before and after the tasks *)

(** The state of [App] with its [isLoading] flag, which only
    [handleGenerate] changes. *)
Record Generation := { session : AppState; appIsLoading : bool }.

Definition setActiveStoryIndex (x : option nat) (s : AppState) : AppState :=
  {| store := store s; storyHistory := storyHistory s; activeStoryIndex := x;
     continuationMode := continuationMode s; error := error s;
     isEditModalOpen := isEditModalOpen s; editingSceneIndex := editingSceneIndex s;
     isEditingImage := isEditingImage s; generationStep := generationStep s;
     illustrationProgress := illustrationProgress s; renderError := renderError s |}.

Section Generate.
Variable t : string -> string.
Variable character1 : option File.
(** [parseInt(sceneCount, 10)]; [None] is NaN. *)
Variable sceneCountNum : option Z.
Variable storyVersions : nat.
(** The [storyMode] input. *)
Variable mode : StoryMode.
(** [Date.now()] as the [i]-th iteration of the loop reads it. *)
Variable now : nat -> Z.

Definition storyIdOf (i : nat) : Z := (now i + Z.of_nat i)%Z.

Definition placeholderOf (i : nat) : StoryResult :=
  {| id := storyIdOf i;
     title := JString (if (1 <? storyVersions)%nat
                       then t "generating" +:+ " #" +:+ pretty (i + 1)
                       else t "generating");
     scenes := []; storyMode := mode; isLoading := Some true |}.

Definition placeholders : list StoryResult := placeholderOf <$> seq 0 storyVersions.

Definition storyIds : list Z := storyIdOf <$> seq 0 storyVersions.

(** [setStoryHistory(prev => { setActiveStoryIndex(prev.length);
    return [...prev, ...placeholders] })] *)
Definition appendPlaceholders (s : AppState) : AppState :=
  setActiveStoryIndex (Some (length (storyHistory s)))
    (set_session (store s) (storyHistory s ++ placeholders) s).

(** The handler up to the start of the tasks: the ids of the versions it
    requests, or [None] when it returns early. *)
Definition handleGenerate_start (g : Generation) : Generation * option (list Z) :=
  match character1 with
  | None =>
      ({| session := setError (Some (t "errorAtLeastOne")) (session g);
          appIsLoading := appIsLoading g |}, None)
  | Some _ =>
      let invalid :=
        match sceneCountNum with
        | None => true
        | Some n => (n <? 2)%Z || (100 <? n)%Z
        end in
      if invalid then
        ({| session := setError (Some (t "errorInvalidSceneCount")) (session g);
            appIsLoading := appIsLoading g |}, None)
      else
        ({| session :=
              appendPlaceholders
                (setIllustrationProgress None
                   (setGenerationStep 0 (setError None (session g))));
            appIsLoading := true |}, Some storyIds)
  end.
End Generate.

(** What the task of version [storyId] leaves alone between two states:
    the length of the collection, the error shown, and every story with
    another id, at its place and with the scenes it shows. *)
Definition keepsOtherVersions (storyId : Z) (s s' : AppState) : Prop :=
  length (storyHistory s') = length (storyHistory s)
  ∧ error s' = error s
  ∧ ∀ k story,
      storyHistory s !! k = Some story → id story ≠ storyId →
      storyHistory s' !! k = Some story
      ∧ ∀ n, sceneAt (store s') story n = sceneAt (store s) story n.

(** The handler once every task has settled: [settled] pairs the id of a
    version with the outcome of its task. *)
Definition handleGenerate_finish (settled : list (Z * Result unit)) (g : Generation)
  : Generation :=
  let s1 :=
    foldl (λ s r, match r.2 with
                  | Ok _ => onGenerationSettled r.1 s
                  | Throw _ => s
                  end) (session g) settled in
  {| session := setIllustrationProgress None (setGenerationStep 0 s1);
     appIsLoading := false |}.


(** *** Further sample data *)

(** A parser that also knows a response of two paragraphs and two
    prompts. *)
Definition sampleReparse (jsonText : string) : Result JSValue :=
  if String.eqb jsonText "two paragraphs, two prompts" then Ok truncatedResponse
  else sampleParse jsonText.

(** A clock that stands still while the placeholders are made. *)
Definition sampleClock : nat -> Z := λ _, 1730000000100%Z.

Definition sampleGeneration : Generation :=
  {| session := sampleSession; appIsLoading := false |}.

(** The story of the sample session with a slot that holds no scene. *)
Definition storyWithHole : StoryResult :=
  {| id := 1730000000000; title := JString "The Red Kite";
     scenes := [Some 0; None]; storyMode := extend; isLoading := Some false |}.

(** The sample session with a second version that was just requested. *)
Definition sessionWithPlaceholder : AppState :=
  {| store := [kiteScene; hillScene];
     storyHistory := [ kiteStory;
                       {| id := 1730000000001; title := JString "Generating #2";
                          scenes := []; storyMode := conclude; isLoading := Some true |} ];
     activeStoryIndex := Some 1; continuationMode := None; error := None;
     isEditModalOpen := false; editingSceneIndex := None; isEditingImage := false;
     generationStep := 0; illustrationProgress := None; renderError := None |}.

(** * Properties *)

(** ** Response validation *)

Lemma lookupProp_assignProp_eq props key x :
  lookupProp (assignProp props key x) key = x.
Proof.
  induction props as [|[k v] rest IH]; simpl.
  - by rewrite String.eqb_refl.
  - destruct (String.eqb k key) eqn:E; simpl; by rewrite E.
Qed.

Lemma lookupProp_assignProp_ne props key key' x :
  key ≠ key' → lookupProp (assignProp props key x) key' = lookupProp props key'.
Proof.
  intros Hne. induction props as [|[k v] rest IH]; simpl.
  - destruct (String.eqb key key') eqn:E; [|done].
    by apply String.eqb_eq in E.
  - destruct (String.eqb k key) eqn:E; simpl.
    + apply String.eqb_eq in E as ->.
      destruct (String.eqb key key') eqn:E'; [|done].
      by apply String.eqb_eq in E'.
    + by rewrite IH.
Qed.

(** The first [if] lets through exactly the objects whose two fields are
    arrays. *)
Lemma missingStoryData_false parsed :
  missingStoryData parsed = Ok false →
  ∃ props ps qs, parsed = JObject props
    ∧ lookupProp props "storyParagraphs" = JArray ps
    ∧ lookupProp props "imagePrompts" = JArray qs.
Proof.
  unfold missingStoryData.
  destruct parsed as [| |b|n|s|items|props]; simpl; try discriminate.
  destruct (lookupProp props "storyParagraphs") as [| |b|[m e|neg]|s|ps|o] eqn:Hps;
    simpl; try discriminate;
    try (destruct b; simpl; discriminate);
    try (destruct (m =? 0)%Z; simpl; discriminate);
    try (destruct (String.eqb s ""); simpl; discriminate).
  destruct (lookupProp props "imagePrompts") as [| |b|[m e|neg]|s|qs|o] eqn:Hqs;
    simpl; try discriminate;
    try (destruct b; simpl; discriminate);
    try (destruct (m =? 0)%Z; simpl; discriminate);
    try (destruct (String.eqb s ""); simpl; discriminate).
  intros _. by exists props, ps, qs.
Qed.

Lemma missingStoryData_arrays props ps qs :
  lookupProp props "storyParagraphs" = JArray ps →
  lookupProp props "imagePrompts" = JArray qs →
  missingStoryData (JObject props) = Ok false.
Proof. unfold missingStoryData. simpl. by intros -> ->. Qed.

Lemma missingStoryData_not_arrays parsed sp ip :
  getProp parsed "storyParagraphs" = Ok sp →
  getProp parsed "imagePrompts" = Ok ip →
  Array_isArray sp && Array_isArray ip = false →
  missingStoryData parsed = Ok true.
Proof.
  unfold missingStoryData. intros -> ->. simpl.
  destruct sp as [| |b|[m e|neg]|s|ps|o]; simpl; try done;
    try (by destruct b); try (by destruct (m =? 0)%Z);
    try (by destruct (String.eqb s "")).
  destruct ip as [| |b|[m e|neg]|s|qs|o]; simpl; try done;
    try (by destruct b); try (by destruct (m =? 0)%Z);
    try (by destruct (String.eqb s "")).
Qed.

(** What the [try] block returns for an object with two array fields. *)
Lemma parseAndValidate_try_arrays trim JSON_parse responseText props ps qs :
  JSON_parse (trim responseText) = Ok (JObject props) →
  lookupProp props "storyParagraphs" = JArray ps →
  lookupProp props "imagePrompts" = JArray qs →
  parseAndValidate_try trim JSON_parse responseText =
    if (length ps =? 0)%nat || (length qs =? 0)%nat then Throw (ErrorObj EmptyGeneration)
    else if negb (length ps =? length qs)%nat then
      Ok (setProp (setProp (JObject props) "storyParagraphs"
                     (JArray (take (length ps `min` length qs) ps)))
            "imagePrompts" (JArray (take (length ps `min` length qs) qs)))
    else Ok (JObject props).
Proof.
  intros Hparse Hps Hqs. unfold parseAndValidate_try.
  rewrite Hparse. simpl. rewrite (missingStoryData_arrays props ps qs Hps Hqs).
  simpl. rewrite Hps, Hqs. simpl.
  destruct ((length ps =? 0)%nat || (length qs =? 0)%nat); [done|].
  destruct (negb (length ps =? length qs)%nat); [|done].
  simpl. rewrite lookupProp_assignProp_ne by done. by rewrite Hqs.
Qed.

(** C1: whenever [parseAndValidateStoryResponse] returns, the value it
    returns has two array fields [storyParagraphs] and [imagePrompts] of
    the same, non-zero, length. *)
Theorem parseAndValidate_invariant trim JSON_parse responseText r :
  parseAndValidateStoryResponse trim JSON_parse responseText = Ok r →
  ∃ storyParagraphs imagePrompts,
    getProp r "storyParagraphs" = Ok (JArray storyParagraphs)
    ∧ getProp r "imagePrompts" = Ok (JArray imagePrompts)
    ∧ length storyParagraphs = length imagePrompts
    ∧ 0 < length storyParagraphs.
Proof.
  unfold parseAndValidateStoryResponse.
  destruct (parseAndValidate_try trim JSON_parse responseText) as [parsed|e] eqn:Htry;
    [|destruct e as [message|]; simpl;
      [destruct (_ || _); discriminate | discriminate]].
  intros [= ->]. revert Htry.
  destruct (JSON_parse (trim responseText)) as [parsed|e] eqn:Hparse;
    [|unfold parseAndValidate_try; rewrite Hparse; discriminate].
  destruct (missingStoryData parsed) as [[]|e] eqn:Hmiss;
    try (unfold parseAndValidate_try; rewrite Hparse; simpl; rewrite Hmiss; discriminate).
  destruct (missingStoryData_false _ Hmiss) as (props & ps & qs & -> & Hps & Hqs).
  rewrite (parseAndValidate_try_arrays _ _ _ props ps qs Hparse Hps Hqs).
  destruct (length ps =? 0)%nat eqn:E1; [discriminate|].
  destruct (length qs =? 0)%nat eqn:E2; [discriminate|].
  apply Nat.eqb_neq in E1, E2. simpl.
  destruct (length ps =? length qs)%nat eqn:E3; simpl; intros [= <-].
  - apply Nat.eqb_eq in E3. exists ps, qs. simpl. rewrite Hps, Hqs.
    repeat split; [done|lia].
  - exists (take (length ps `min` length qs) ps), (take (length ps `min` length qs) qs).
    simpl. rewrite lookupProp_assignProp_eq.
    rewrite lookupProp_assignProp_ne, lookupProp_assignProp_eq by done.
    rewrite !length_take. repeat split; lia.
Qed.

(** C2: a parsed response whose two lists have different non-zero lengths
    [m] and [n] is accepted; both lists of the result have length
    [min m n] and are prefixes of the original ones. *)
Theorem truncation_law trim JSON_parse responseText parsed ps qs :
  JSON_parse (trim responseText) = Ok parsed →
  getProp parsed "storyParagraphs" = Ok (JArray ps) →
  getProp parsed "imagePrompts" = Ok (JArray qs) →
  length ps ≠ length qs → 0 < length ps → 0 < length qs →
  ∃ r ps' qs',
    parseAndValidateStoryResponse trim JSON_parse responseText = Ok r
    ∧ getProp r "storyParagraphs" = Ok (JArray ps')
    ∧ getProp r "imagePrompts" = Ok (JArray qs')
    ∧ length ps' = length ps `min` length qs
    ∧ length qs' = length ps `min` length qs
    ∧ ps' `prefix_of` ps ∧ qs' `prefix_of` qs.
Proof.
  intros Hparse Hps Hqs Hne Hm Hn.
  destruct parsed as [| |b|n|s|items|props]; try discriminate.
  simpl in Hps, Hqs. injection Hps as Hps. injection Hqs as Hqs.
  unfold parseAndValidateStoryResponse.
  rewrite (parseAndValidate_try_arrays _ _ _ props ps qs Hparse Hps Hqs).
  destruct (length ps =? 0)%nat eqn:E1; [apply Nat.eqb_eq in E1; lia|].
  destruct (length qs =? 0)%nat eqn:E2; [apply Nat.eqb_eq in E2; lia|].
  destruct (length ps =? length qs)%nat eqn:E3; [apply Nat.eqb_eq in E3; lia|].
  simpl. eexists _, (take (length ps `min` length qs) ps),
    (take (length ps `min` length qs) qs).
  split; [done|]. simpl. rewrite lookupProp_assignProp_eq.
  rewrite lookupProp_assignProp_ne, lookupProp_assignProp_eq by done.
  rewrite !length_take.
  repeat split; try lia; apply prefix_take.
Qed.

(** C3 (amended): a parsed response other than [null] in which a list
    field is missing or not an array is rejected with [MalformedResponse];
    one whose two fields are arrays, either of them empty, is rejected with
    [EmptyGeneration]; a response that parses to [null] is rejected with
    [UnparsableResponse]. Nothing is returned in any of these cases, so no
    truncation takes place. *)
Theorem rejection_law trim JSON_parse responseText parsed :
  JSON_parse (trim responseText) = Ok parsed →
  (∀ sp ip,
     getProp parsed "storyParagraphs" = Ok sp →
     getProp parsed "imagePrompts" = Ok ip →
     (Array_isArray sp && Array_isArray ip = false →
      parseAndValidateStoryResponse trim JSON_parse responseText
        = Throw (ErrorObj MalformedResponse))
     ∧ (Array_isArray sp && Array_isArray ip = true →
        arrayItems sp = [] ∨ arrayItems ip = [] →
        parseAndValidateStoryResponse trim JSON_parse responseText
          = Throw (ErrorObj EmptyGeneration)))
  ∧ (parsed = JNull →
     parseAndValidateStoryResponse trim JSON_parse responseText
       = Throw (ErrorObj UnparsableResponse)).
Proof.
  intros Hparse. split.
  - intros sp ip Hsp Hip. split.
    + intros Hnot. unfold parseAndValidateStoryResponse, parseAndValidate_try.
      rewrite Hparse. simpl.
      by rewrite (missingStoryData_not_arrays parsed sp ip Hsp Hip Hnot).
    + intros Harr Hempty.
      destruct parsed as [| |b|n|s|items|props]; try discriminate;
        try (simpl in Hsp; injection Hsp as <-; discriminate).
      simpl in Hsp, Hip. injection Hsp as Hsp. injection Hip as Hip.
      destruct sp as [| |b|n|s|ps|o]; try discriminate.
      destruct ip as [| |b|n|s|qs|o]; try discriminate.
      unfold parseAndValidateStoryResponse.
      rewrite (parseAndValidate_try_arrays _ _ _ props ps qs Hparse Hsp Hip).
      simpl in Hempty. destruct Hempty as [-> | ->]; simpl; [done|].
      by rewrite orb_true_r.
  - intros ->. unfold parseAndValidateStoryResponse, parseAndValidate_try.
    by rewrite Hparse.
Qed.

(** ** The illustration stage of the pipelines *)

Section Illustration.
Context {S : Type}.
Variable ai_generateContent : nat -> Request -> Result Response.
Variable updateProgress : nat -> option (nat * nat) -> S -> S.
Variable onImageGenerated : option string -> nat -> S -> S.
Variable character1Part : InlineData.
Variable character2Part : option InlineData.
Variable aspectRatio : string.
Variable total : nat.

Local Abbreviation attempt prompt :=
  (generateImage (S:=S) ai_generateContent prompt character1Part character2Part aspectRatio).
Local Abbreviation retry prompt :=
  (imageWithRetry (S:=S) ai_generateContent prompt character1Part character2Part aspectRatio).
Local Abbreviation loop :=
  (imageLoop ai_generateContent updateProgress onImageGenerated
     character1Part character2Part aspectRatio total).
Local Abbreviation request prompt :=
  (ImageRequest prompt character1Part character2Part aspectRatio).

(** One attempt issues one request and leaves the caller's state alone. *)
Lemma generateImage_state prompt st :
  (attempt prompt st).2 = (st.1 ++ [request prompt], st.2).
Proof.
  unfold generateImage, generateContent, mbind, M_bind. simpl.
  destruct (ai_generateContent _ _) as [response|e]; [|done].
  by destruct (firstInlineData _).
Qed.

(** The outcome of one attempt is decided by the number of requests
    issued before it. *)
Lemma generateImage_result prompt st st' :
  length st.1 = length st'.1 → (attempt prompt st).1 = (attempt prompt st').1.
Proof.
  intros Hlen. unfold generateImage, generateContent, mbind, M_bind. simpl.
  rewrite Hlen. destruct (ai_generateContent _ _) as [response|e]; [|done].
  by destruct (firstInlineData _).
Qed.

Lemma imageWithRetry_unfold prompt failedImageCount st :
  retry prompt failedImageCount st =
    match (attempt prompt st).1 with
    | Ok image => (Ok (Some image, failedImageCount), (attempt prompt st).2)
    | Throw _ =>
        match (attempt prompt (attempt prompt st).2).1 with
        | Ok image =>
            (Ok (Some image, failedImageCount), (attempt prompt (attempt prompt st).2).2)
        | Throw _ =>
            (Ok (None, Datatypes.S failedImageCount),
             (attempt prompt (attempt prompt st).2).2)
        end
    end.
Proof.
  unfold imageWithRetry, catch, sleep, mbind, M_bind, mret, M_ret.
  destruct (attempt prompt st) as [[image|e] st1]; simpl; [done|].
  by destruct (attempt prompt st1) as [[image|e'] st2].
Qed.

Lemma imageLoop_cons prompt rest i failedImageCount st :
  loop (prompt :: rest) i failedImageCount st =
    match retry prompt failedImageCount st with
    | (Ok r, st') =>
        loop rest (Datatypes.S i) r.2
          (st'.1, updateProgress 3 (Some (Datatypes.S i, total)) (onImageGenerated r.1 i st'.2))
    | (Throw e, st') => (Throw e, st')
    end.
Proof.
  simpl. unfold mbind, M_bind, notify.
  by destruct (retry prompt failedImageCount st) as [[r|e] st'].
Qed.

(** The loop over a list of prompts is the loop over a first part of it
    followed by the loop over the rest. *)
Lemma imageLoop_app l1 l2 i failedImageCount st :
  loop (l1 ++ l2) i failedImageCount st =
    match loop l1 i failedImageCount st with
    | (Ok failed, st') => loop l2 (i + length l1) failed st'
    | (Throw e, st') => (Throw e, st')
    end.
Proof.
  revert i failedImageCount st.
  induction l1 as [|prompt l1 IH]; intros i failedImageCount st.
  - simpl. unfold mret, M_ret. by rewrite Nat.add_0_r.
  - rewrite <- app_comm_cons, !imageLoop_cons.
    destruct (retry prompt failedImageCount st) as [[r|e] st']; [|done].
    rewrite IH. simpl. by rewrite Nat.add_succ_r.
Qed.

(** The loop itself never throws: it counts the failures. *)
Lemma imageLoop_returns prompts i failedImageCount st :
  ∃ failed st',
    loop prompts i failedImageCount st = (Ok failed, st')
    ∧ failedImageCount ≤ failed ≤ failedImageCount + length prompts.
Proof.
  revert i failedImageCount st.
  induction prompts as [|prompt rest IH]; intros i failedImageCount st.
  - exists failedImageCount, st. simpl. split; [done|lia].
  - rewrite imageLoop_cons, imageWithRetry_unfold.
    destruct (attempt prompt st).1 as [image|e].
    + edestruct IH as (failed & st' & -> & ?). exists failed, st'. simpl in *.
      split; [done|lia].
    + destruct (attempt prompt _).1 as [image|e'].
      * edestruct IH as (failed & st' & -> & ?). exists failed, st'. simpl in *.
        split; [done|lia].
      * edestruct IH as (failed & st' & -> & ?). exists failed, st'. simpl in *.
        split; [done|lia].
Qed.

Local Abbreviation outcome := (sceneOutcome ai_generateContent updateProgress
  onImageGenerated character1Part character2Part aspectRatio total).

Lemma imageWithRetry_cases prompt failedImageCount st :
  ∃ st',
    (∃ image, retry prompt failedImageCount st = (Ok (Some image, failedImageCount), st'))
    ∨ retry prompt failedImageCount st = (Ok (None, Datatypes.S failedImageCount), st').
Proof.
  rewrite imageWithRetry_unfold.
  destruct (attempt prompt st).1 as [image|e]; [eauto|].
  destruct (attempt prompt _).1 as [image|e']; eauto.
Qed.

Lemma sceneOutcome_head prompt rest i failedImageCount st :
  outcome (prompt :: rest) i failedImageCount st 0 =
    match retry prompt failedImageCount st with
    | (Ok r, _) => Some r.1
    | (Throw _, _) => None
    end.
Proof. done. Qed.

Lemma sceneOutcome_tail prompt rest i failedImageCount st r st' n :
  retry prompt failedImageCount st = (Ok r, st') →
  outcome (prompt :: rest) i failedImageCount st (Datatypes.S n) =
    outcome rest (Datatypes.S i) r.2
      (st'.1, updateProgress 3 (Some (Datatypes.S i, total)) (onImageGenerated r.1 i st'.2)) n.
Proof.
  intros Hretry. unfold sceneOutcome. simpl lookup.
  destruct (rest !! n) as [prompt'|]; [|done]. simpl.
  unfold mbind at 1, M_bind. by rewrite Hretry.
Qed.

(** The counter that the loop returns reaches the number of prompts
    exactly when every iteration ended with no image. *)
Lemma imageLoop_all_failed prompts i failedImageCount st failed st' :
  loop prompts i failedImageCount st = (Ok failed, st') →
  failed = failedImageCount + length prompts
  ↔ ∀ n, n < length prompts → outcome prompts i failedImageCount st n = Some None.
Proof.
  revert i failedImageCount st failed st'.
  induction prompts as [|prompt rest IH]; intros i failedImageCount st failed st' Hloop.
  - simpl in *. injection Hloop as <- <-. split; [intros _ n ?|intros _]; lia.
  - rewrite imageLoop_cons in Hloop.
    destruct (imageWithRetry_cases prompt failedImageCount st) as (st1 & [[image Hr] | Hr]);
      rewrite Hr in Hloop; simpl in Hloop.
    + destruct (imageLoop_returns rest (Datatypes.S i) failedImageCount
        (st1.1, updateProgress 3 (Some (Datatypes.S i, total))
                  (onImageGenerated (Some image) i st1.2))) as (f & st2 & Hf & Hbound).
      rewrite Hf in Hloop. injection Hloop as <- <-. simpl. split; [lia|].
      intros Hall. specialize (Hall 0 ltac:(lia)).
      rewrite sceneOutcome_head, Hr in Hall. discriminate.
    + specialize (IH _ _ _ _ _ Hloop). simpl. rewrite Nat.add_succ_r. simpl in IH.
      rewrite IH. split.
      * intros Hall [|n] Hn.
        -- by rewrite sceneOutcome_head, Hr.
        -- rewrite (sceneOutcome_tail _ _ _ _ _ _ _ _ Hr). apply Hall. lia.
      * intros Hall n Hn. specialize (Hall (Datatypes.S n) ltac:(lia)).
        by rewrite (sceneOutcome_tail _ _ _ _ _ _ _ _ Hr) in Hall.
Qed.

(** The end of both pipelines: the loop, then the all-failed check. *)
Lemma illustration_terminal_check prompts message st :
  1 ≤ length prompts →
  let finish : M S unit :=
    failedImageCount ← loop prompts 0 0;
    if (0 <? failedImageCount)%nat && (failedImageCount =? length prompts)%nat
    then throw (ErrorObj message)
    else notify (updateProgress 4 None) in
  ((∀ n, n < length prompts → outcome prompts 0 0 st n = Some None) →
   (finish st).1 = Throw (ErrorObj message))
  ∧ ((∃ n image, outcome prompts 0 0 st n = Some (Some image)) →
     (finish st).1 = Ok tt).
Proof.
  intros Hk finish. unfold finish, mbind, M_bind.
  destruct (imageLoop_returns prompts 0 0 st)
    as (failed & st' & Hloop & Hbound).
  rewrite Hloop.
  pose proof (imageLoop_all_failed _ _ _ _ _ _ Hloop) as Hiff. simpl in Hiff.
  split.
  - intros Hall. apply Hiff in Hall. subst failed.
    destruct (0 <? length prompts)%nat eqn:E1; [|apply Nat.ltb_ge in E1; lia].
    by rewrite Nat.eqb_refl.
  - intros (n & image & Hn).
    destruct (failed =? length prompts)%nat eqn:E2.
    + apply Nat.eqb_eq in E2. pose proof (proj1 Hiff E2) as Hall.
      assert (n < length prompts) as Hlt.
      { unfold sceneOutcome in Hn. destruct (prompts !! n) eqn:E; [|done].
        by apply lookup_lt_Some in E. }
      rewrite (Hall n Hlt) in Hn. discriminate.
    + by rewrite andb_false_r.
Qed.

(** Iteration [i] of the loop, whatever the callbacks are: when the first
    attempt fails, the image callback receives the image of the retry, or
    [null] when the retry fails too, in which case the failure counter
    grows by one. In both cases exactly two requests have been issued when
    the loop goes on, with the prompts after the [i]-th, and the loop as a
    whole returns. *)
Lemma imageLoop_retry_step prompts i prompt st0 :
  prompts !! i = Some prompt →
  ∃ failed st_i,
    loop (take i prompts) 0 0 st0 = (Ok failed, st_i)
    ∧ (∀ e image,
         (attempt prompt st_i).1 = Throw e →
         (attempt prompt (attempt prompt st_i).2).1 = Ok image →
         loop prompts 0 0 st0 =
           loop (drop (Datatypes.S i) prompts) (Datatypes.S i) failed
             (st_i.1 ++ [request prompt; request prompt],
              updateProgress 3 (Some (Datatypes.S i, total))
                (onImageGenerated (Some image) i st_i.2)))
    ∧ (∀ e e',
         (attempt prompt st_i).1 = Throw e →
         (attempt prompt (attempt prompt st_i).2).1 = Throw e' →
         loop prompts 0 0 st0 =
           loop (drop (Datatypes.S i) prompts) (Datatypes.S i) (Datatypes.S failed)
             (st_i.1 ++ [request prompt; request prompt],
              updateProgress 3 (Some (Datatypes.S i, total))
                (onImageGenerated None i st_i.2)))
    ∧ ∃ failed' st', loop prompts 0 0 st0 = (Ok failed', st').
Proof.
  intros Hi.
  destruct (imageLoop_returns (take i prompts) 0 0 st0) as (failed & st_i & Hpre & _).
  exists failed, st_i. split; [done|].
  assert (loop prompts 0 0 st0 =
          loop (prompt :: drop (Datatypes.S i) prompts) i failed st_i) as Hsplit.
  { rewrite <- (take_drop_middle prompts i prompt Hi) at 1.
    rewrite imageLoop_app, Hpre. simpl.
    by rewrite length_take_le by (apply lookup_lt_Some in Hi; lia). }
  rewrite Hsplit, imageLoop_cons, imageWithRetry_unfold.
  repeat split.
  - intros e image -> ->. simpl. rewrite !generateImage_state. simpl.
    by rewrite <- app_assoc.
  - intros e e' -> ->. simpl. rewrite !generateImage_state. simpl.
    by rewrite <- app_assoc.
  - rewrite <- imageWithRetry_unfold, <- imageLoop_cons.
    destruct (imageLoop_returns (prompt :: drop (Datatypes.S i) prompts) i failed st_i)
      as (failed' & st' & -> & _).
    eauto.
Qed.
End Illustration.

(** ** Running a pipeline step by step *)

Lemma bind_ok {S A B} (m : M S A) (f : A → M S B) st a st' :
  m st = (Ok a, st') → (m ≫= f) st = f a st'.
Proof. unfold mbind, M_bind. by intros ->. Qed.

Lemma bind_throw {S A B} (m : M S A) (f : A → M S B) st e st' :
  m st = (Throw e, st') → (m ≫= f) st = (Throw e, st').
Proof. unfold mbind, M_bind. by intros ->. Qed.

Lemma bind_notify {S B} (g : S → S) (f : unit → M S B) st :
  (notify g ≫= f) st = f tt (st.1, g st.2).
Proof. done. Qed.

Lemma bind_lift_ok {S A B} (a : A) (f : A → M S B) st :
  (lift (Ok a) ≫= f) st = f a st.
Proof. done. Qed.

Lemma bind_getState {S B} (f : S → M S B) st :
  (getState ≫= f) st = f st.2 st.
Proof. done. Qed.

Section Termination.
Context {S : Type}.
Variable trim : string -> string.
Variable JSON_parse : string -> Result JSValue.
Variable ai_generateContent : nat -> Request -> Result Response.
Variable updateProgress : nat -> option (nat * nat) -> S -> S.
Variable onImageGenerated : option string -> nat -> S -> S.
Variable sceneStore : S -> Store.
Variable isHole : nat -> bool.
Variable character1File : File.
Variable character2File : option File.
Variable language aspectRatio artStyle : string.
Variable sceneCount : nat.
Variable mode : StoryMode.

Local Abbreviation character1Part := (fileToGenerativePart character1File).
Local Abbreviation character2Part := (fileToGenerativePart <$> character2File).
Local Abbreviation outcome prompts st :=
  (sceneOutcome ai_generateContent updateProgress onImageGenerated
     character1Part character2Part aspectRatio (length prompts) prompts 0 0 st).

End Termination.

(** ** The story session: state updaters *)

Lemma set_scenes_same story : set_scenes (scenes story) story = story.
Proof. by destruct story. Qed.

Lemma set_session_same s : set_session (store s) (storyHistory s) s = s.
Proof. by destruct s. Qed.

Lemma sceneRef_ge scenes0 i : length scenes0 ≤ i → sceneRef scenes0 i = None.
Proof. intros Hle. unfold sceneRef. by rewrite lookup_ge_None_2. Qed.

(** An updater that returns every story as it is returns the collection
    as it is. *)
Lemma mapStories_id f i prev h :
  (∀ k story, prev !! k = Some story → f (i + k) story h = (Ok story, h)) →
  mapStories f i prev h = (Ok prev, h).
Proof.
  revert i. induction prev as [|story rest IH]; intros i Hf; [done|].
  simpl. pose proof (Hf 0 story eq_refl) as H0. rewrite Nat.add_0_r in H0.
  rewrite H0, IH; [done|].
  intros k story' Hk. rewrite Nat.add_succ_comm. by apply Hf.
Qed.

(** An updater by index changes the story at that index, if there is
    one. *)
Lemma mapStories_atActive g active i prev h story story' h' :
  prev !! active = Some story →
  g story h = (Ok story', h') →
  mapStories (atActive (i + active) g) i prev h = (Ok (<[active := story']> prev), h').
Proof.
  revert i active.
  induction prev as [|s0 rest IH]; intros i active Hlook Hg; [done|].
  destruct active as [|active]; simpl in Hlook.
  - injection Hlook as ->. simpl. unfold atActive at 1.
    rewrite Nat.add_0_r, Nat.eqb_refl. simpl. rewrite Hg.
    rewrite mapStories_id; [done|].
    intros k s' _. unfold atActive.
    destruct (S i + k =? i)%nat eqn:E; [apply Nat.eqb_eq in E; lia|done].
  - simpl. unfold atActive at 1.
    destruct (i =? i + S active)%nat eqn:E; [apply Nat.eqb_eq in E; lia|]. simpl.
    rewrite <- Nat.add_succ_comm. by rewrite (IH (S i) active Hlook Hg).
Qed.

Lemma mapStories_atActive_throw g active i prev h story e h' :
  prev !! active = Some story →
  g story h = (Throw e, h') →
  mapStories (atActive (i + active) g) i prev h = (Throw e, h').
Proof.
  revert i active.
  induction prev as [|s0 rest IH]; intros i active Hlook Hg; [done|].
  destruct active as [|active]; simpl in Hlook.
  - injection Hlook as ->. simpl. unfold atActive at 1.
    rewrite Nat.add_0_r, Nat.eqb_refl. simpl. by rewrite Hg.
  - simpl. unfold atActive at 1.
    destruct (i =? i + S active)%nat eqn:E; [apply Nat.eqb_eq in E; lia|]. simpl.
    rewrite <- Nat.add_succ_comm. by rewrite (IH (S i) active Hlook Hg).
Qed.

Lemma setStoryHistory_atActive g active s story story' h' :
  storyHistory s !! active = Some story →
  g story (store s) = (Ok story', h') →
  setStoryHistory (atActive active g) s
    = set_session h' (<[active := story']> (storyHistory s)) s.
Proof.
  intros Hlook Hg. unfold setStoryHistory.
  pose proof (mapStories_atActive g active 0 _ _ _ _ _ Hlook Hg) as Hmap.
  rewrite Nat.add_0_l in Hmap. by rewrite Hmap.
Qed.

(** The guarded image write returns the story as it is; it changes at most
    one object of the store. *)
Lemma writeImageIfPresent_story x i story h :
  (writeImageIfPresent x i story h).1 = Ok story.
Proof.
  unfold writeImageIfPresent. rewrite set_scenes_same.
  by destruct (i ≫= sceneRef (scenes story)).
Qed.

Lemma writeImageIfPresent_none x i story h :
  i ≫= sceneRef (scenes story) = None →
  writeImageIfPresent x i story h = (Ok story, h).
Proof. unfold writeImageIfPresent. intros ->. by rewrite set_scenes_same. Qed.

Lemma writeImageIfPresent_some x i story h l :
  i ≫= sceneRef (scenes story) = Some l →
  writeImageIfPresent x i story h = (Ok story, alter (set_image x) l h).
Proof. unfold writeImageIfPresent. intros ->. by rewrite set_scenes_same. Qed.

(** C10: an image callback whose index names no slot of the target's scene
    array (the array is too short, or the computed absolute index is
    negative or past the end) is skipped by the guard: the updater returns
    normally, and the collection, every scene object and the rest of the
    state are as before. *)
Theorem image_callback_out_of_range :
  (∀ s storyId image imgIndex,
     (∀ story, story ∈ storyHistory s → id story = storyId →
               length (scenes story) ≤ imgIndex) →
     mapStories (withId storyId (writeImageIfPresent (imageOfCallback image) (Some imgIndex)))
       0 (storyHistory s) (store s) = (Ok (storyHistory s), store s)
     ∧ onImageGenerated storyId image imgIndex s = s)
  ∧ (∀ c active image index story,
       storyHistory (app c) !! active = Some story →
       let absoluteIndex :=
         (Z.of_nat (length (scenes story)) - Z.of_nat (newSceneCount c) + Z.of_nat index)%Z in
       (absoluteIndex < 0 ∨ Z.of_nat (length (scenes story)) ≤ absoluteIndex)%Z →
       (writeImageIfPresent (imageOfCallback image) (indexOfZ absoluteIndex) story
          (store (app c))) = (Ok story, store (app c))
       ∧ onNewImageGenerated active image index c = c).
Proof.
  split.
  - intros s storyId image imgIndex Hshort.
    assert (mapStories
              (withId storyId (writeImageIfPresent (imageOfCallback image) (Some imgIndex)))
              0 (storyHistory s) (store s) = (Ok (storyHistory s), store s)) as Hmap.
    { apply mapStories_id. intros k story Hk. unfold withId.
      destruct (id story =? storyId)%Z eqn:E; [|done]. simpl.
      apply writeImageIfPresent_none. simpl. apply sceneRef_ge.
      apply Hshort; [by eapply list_elem_of_lookup_2|by apply Z.eqb_eq]. }
    split; [done|].
    unfold onImageGenerated, setStoryHistory. rewrite Hmap. apply set_session_same.
  - intros c active image index story Hlook absoluteIndex Hout.
    assert (indexOfZ absoluteIndex ≫= sceneRef (scenes story) = None) as Hnone.
    { unfold indexOfZ. destruct (absoluteIndex <? 0)%Z eqn:E; [done|].
      apply Z.ltb_ge in E. simpl. apply sceneRef_ge. lia. }
    split; [by apply writeImageIfPresent_none|].
    unfold onNewImageGenerated, inApp.
    erewrite setStoryHistory_atActive; [|done|by apply writeImageIfPresent_none].
    rewrite list_insert_id by done. rewrite set_session_same. by destruct c.
Qed.

(** ** Scene objects and references *)

Lemma sceneRef_elem story k l :
  sceneRef (scenes story) k = Some l → l ∈ sceneRefs story.
Proof.
  unfold sceneRef, sceneRefs. intros Hk. apply list_elem_of_omap.
  exists (Some l). split; [|done].
  destruct (scenes story !! k) as [slot|] eqn:E; [|done].
  simpl in Hk. subst slot. by eapply list_elem_of_lookup_2.
Qed.

(** Distinct slots of a story without sharing hold distinct objects. *)
Lemma NoDup_omap_lookup (slots : list (option loc)) k1 k2 l :
  NoDup (omap (λ slot, slot) slots) →
  slots !! k1 = Some (Some l) → slots !! k2 = Some (Some l) → k1 = k2.
Proof.
  revert k1 k2. induction slots as [|slot rest IH]; intros k1 k2 Hnd H1 H2; [done|].
  assert (∀ k, rest !! k = Some (Some l) → l ∈ omap (λ slot, slot) rest) as Hin.
  { intros k Hk. apply list_elem_of_omap. exists (Some l).
    split; [by eapply list_elem_of_lookup_2|done]. }
  destruct slot as [l0|]; simpl in Hnd.
  - apply NoDup_cons in Hnd as [Hnotin Hnd].
    destruct k1 as [|k1], k2 as [|k2]; simpl in *; try done.
    + injection H1 as ->. by apply Hin in H2.
    + injection H2 as ->. by apply Hin in H1.
    + f_equal. by apply IH.
  - destruct k1 as [|k1], k2 as [|k2]; simpl in *; try done.
    f_equal. by apply IH.
Qed.

Lemma sceneRef_inj story k1 k2 l :
  NoDup (sceneRefs story) →
  sceneRef (scenes story) k1 = Some l → sceneRef (scenes story) k2 = Some l → k1 = k2.
Proof.
  unfold sceneRef, sceneRefs. intros Hnd H1 H2.
  destruct (scenes story !! k1) as [[l1|]|] eqn:E1; try done.
  destruct (scenes story !! k2) as [[l2|]|] eqn:E2; try done.
  simpl in *. injection H1 as ->. injection H2 as ->.
  by eapply NoDup_omap_lookup.
Qed.

Lemma sceneRef_valid h story k l :
  storyWf h story → sceneRef (scenes story) k = Some l → l < length h.
Proof.
  intros [_ Hvalid] Hk. rewrite Forall_forall in Hvalid.
  apply Hvalid. by eapply sceneRef_elem.
Qed.

(** Allocation leaves the objects a well-formed story refers to alone. *)
Lemma sceneAt_alloc h new story k :
  storyWf h story → sceneAt (h ++ new) story k = sceneAt h story k.
Proof.
  intros Hwf. unfold sceneAt.
  destruct (sceneRef (scenes story) k) as [l|] eqn:E; [|done]. simpl.
  apply lookup_app_l. by eapply sceneRef_valid.
Qed.

(** What a scene of a story shows after one object of the store was
    written. *)
Lemma sceneAt_alter f l h story k :
  storyWf h story →
  sceneAt (alter f l h) story k =
    if decide (sceneRef (scenes story) k = Some l) then f <$> sceneAt h story k
    else sceneAt h story k.
Proof.
  intros Hwf. unfold sceneAt.
  destruct (sceneRef (scenes story) k) as [l'|] eqn:E; simpl.
  - destruct (decide (Some l' = Some l)) as [[= ->]|Hne].
    + by rewrite list_lookup_alter_eq.
    + rewrite list_lookup_alter_ne; [done|congruence].
  - by destruct (decide (None = Some l)).
Qed.

Lemma storyWf_alter f l h story : storyWf h story → storyWf (alter f l h) story.
Proof. intros [? ?]. split; [done|]. by rewrite length_alter. Qed.

(** ** Continuing a story *)

Lemma length_freshRefs (h : Store) n : length (freshRefs h n) = n.
Proof. unfold freshRefs. by rewrite length_fmap, length_seq. Qed.

Lemma lookup_freshRefs (h : Store) n k :
  k < n → freshRefs h n !! k = Some (Some (length h + k)).
Proof. intros Hk. unfold freshRefs. by rewrite list_lookup_fmap, lookup_seq_lt. Qed.

Lemma omap_freshRefs (h : Store) n :
  omap (λ slot, slot) (freshRefs h n) = seq (length h) n.
Proof.
  unfold freshRefs. generalize (length h). induction n as [|n IH]; intros a; [done|].
  simpl. by rewrite IH.
Qed.

Lemma length_scenePlaceholders paragraphs imagePrompts :
  length (scenePlaceholders paragraphs imagePrompts) = length paragraphs.
Proof. apply length_imap. Qed.

Lemma onNewStoryPartsGenerated_unfold active mode paragraphs imagePrompts c story :
  storyHistory (app c) !! active = Some story →
  onNewStoryPartsGenerated active mode paragraphs imagePrompts c =
    {| newSceneCount := length paragraphs;
       app := set_session
                (store (app c) ++ scenePlaceholders paragraphs imagePrompts)
                (<[active := set_storyMode mode
                     (set_scenes (scenes story
                                  ++ freshRefs (store (app c)) (length paragraphs)) story)]>
                   (storyHistory (app c)))
                (app c) |}.
Proof.
  intros Hlook. unfold onNewStoryPartsGenerated. f_equal.
  erewrite setStoryHistory_atActive; [|done|done].
  by rewrite length_scenePlaceholders.
Qed.

Lemma onNewImageGenerated_unfold active image index c story l :
  storyHistory (app c) !! active = Some story →
  indexOfZ (Z.of_nat (length (scenes story)) - Z.of_nat (newSceneCount c) + Z.of_nat index)
    ≫= sceneRef (scenes story) = Some l →
  onNewImageGenerated active image index c =
    {| newSceneCount := newSceneCount c;
       app := set_session (alter (set_image (imageOfCallback image)) l (store (app c)))
                (storyHistory (app c)) (app c) |}.
Proof.
  intros Hlook Hl. unfold onNewImageGenerated, inApp. f_equal.
  erewrite setStoryHistory_atActive; [|done|by apply writeImageIfPresent_some].
  by rewrite list_insert_id.
Qed.

(** C6: continuing the story at index [active], which has [j] scenes,
    with [p] new paragraphs yields a story of [j + p] scenes; the first [j]
    are the scenes it had, unchanged; the scene at [j + k] is made of the
    [k]-th new paragraph and image prompt, its image pending; and an image
    callback with relative index [i < p], at any later point of the
    continuation, sets the image of the scene at [j + i] and of no other
    scene. *)
Theorem continuation_append c active mode paragraphs imagePrompts story :
  storyHistory (app c) !! active = Some story →
  storyWf (store (app c)) story →
  let j := length (scenes story) in
  let p := length paragraphs in
  let c1 := onNewStoryPartsGenerated active mode paragraphs imagePrompts c in
  (∃ story1,
     storyHistory (app c1) !! active = Some story1
     ∧ length (scenes story1) = j + p
     ∧ take j (scenes story1) = scenes story
     ∧ (∀ k, k < j → sceneAt (store (app c1)) story1 k = sceneAt (store (app c)) story k)
     ∧ (∀ k paragraph, paragraphs !! k = Some paragraph →
          sceneAt (store (app c1)) story1 (j + k) =
            Some {| paragraph := paragraph;
                    imagePrompt := default JUndefined (imagePrompts !! k);
                    image := ImagePending; videoPrompt := None;
                    isVideoPromptLoading := None; isRegenerating := None |}))
  ∧ continuationInProgress active j p c1
  ∧ (∀ c' image i,
       continuationInProgress active j p c' → i < p →
       let c2 := onNewImageGenerated active image i c' in
       continuationInProgress active j p c2
       ∧ ∃ story',
           storyHistory (app c') !! active = Some story'
           ∧ storyHistory (app c2) = storyHistory (app c')
           ∧ (∃ scene,
                sceneAt (store (app c')) story' (j + i) = Some scene
                ∧ sceneAt (store (app c2)) story' (j + i)
                  = Some (set_image (imageOfCallback image) scene))
           ∧ ∀ k, k ≠ j + i →
                  sceneAt (store (app c2)) story' k = sceneAt (store (app c')) story' k).
Proof.
  intros Hlook Hwf j p c1.
  assert (length (store (app c)) ≤ length (store (app c))) as _ by done.
  pose (story1 := set_storyMode mode
          (set_scenes (scenes story ++ freshRefs (store (app c)) p) story)).
  assert (storyHistory (app c1) !! active = Some story1) as Hlook1.
  { unfold c1. rewrite (onNewStoryPartsGenerated_unfold _ _ _ _ _ _ Hlook). simpl.
    apply list_lookup_insert_eq. by eapply lookup_lt_Some. }
  assert (store (app c1) = store (app c) ++ scenePlaceholders paragraphs imagePrompts)
    as Hstore1.
  { unfold c1. by rewrite (onNewStoryPartsGenerated_unfold _ _ _ _ _ _ Hlook). }
  assert (length (scenes story1) = j + p) as Hlen1.
  { simpl. by rewrite length_app, length_freshRefs. }
  assert (∀ k, k < p → sceneRef (scenes story1) (j + k) = Some (length (store (app c)) + k))
    as Hnew.
  { intros k Hk. unfold sceneRef. simpl. rewrite lookup_app_r by (unfold j; lia).
    replace (j + k - length (scenes story)) with k by (unfold j; lia).
    by rewrite lookup_freshRefs. }
  assert (storyWf (store (app c1)) story1) as Hwf1.
  { destruct Hwf as [Hnd Hvalid]. rewrite Hstore1. unfold storyWf, sceneRefs. simpl.
    rewrite omap_app, omap_freshRefs. split.
    - apply NoDup_app. split; [done|]. split; [|apply NoDup_seq].
      intros l Hl Hl'. rewrite Forall_forall in Hvalid. apply Hvalid in Hl.
      apply elem_of_seq in Hl'. lia.
    - apply Forall_app. split.
      + eapply Forall_impl; [done|]. intros l Hl. simpl in Hl.
        rewrite length_app. lia.
      + apply Forall_forall. intros l Hl. apply elem_of_seq in Hl.
        rewrite length_app, length_scenePlaceholders. fold p. lia. }
  assert (newSceneCount c1 = p) as Hcount1.
  { unfold c1. by rewrite (onNewStoryPartsGenerated_unfold _ _ _ _ _ _ Hlook). }
  clearbody c1.
  split; [|split].
  - exists story1. split; [done|]. split; [done|]. split; [|split].
    + simpl. unfold j. by rewrite take_app_length.
    + intros k Hk. rewrite Hstore1. unfold sceneAt at 1, sceneRef. simpl.
      rewrite lookup_app_l by (unfold j in Hk; lia).
      fold (sceneRef (scenes story) k).
      destruct (sceneRef (scenes story) k) as [l|] eqn:E; [|by unfold sceneAt; rewrite E].
      unfold sceneAt. rewrite E. simpl.
      apply lookup_app_l. by eapply sceneRef_valid.
    + intros k paragraph Hk. unfold sceneAt.
      rewrite Hnew by (by eapply lookup_lt_Some). simpl. rewrite Hstore1.
      rewrite lookup_app_r by lia.
      replace (length (store (app c)) + k - length (store (app c))) with k by lia.
      unfold scenePlaceholders. by rewrite list_lookup_imap, Hk.
  - split; [done|]. exists story1. split; [done|]. split; [done|]. split; [done|].
    intros k Hk. by rewrite Hnew.
  - intros c' image i (Hcount & story' & Hlook' & Hlen' & Hwf' & Hslots) Hi c2.
    destruct (Hslots i Hi) as [l Hl].
    assert (indexOfZ (Z.of_nat (length (scenes story')) - Z.of_nat (newSceneCount c')
                      + Z.of_nat i) ≫= sceneRef (scenes story') = Some l) as Habs.
    { rewrite Hlen', Hcount. unfold indexOfZ.
      destruct (_ <? 0)%Z eqn:E; [apply Z.ltb_lt in E; lia|]. simpl.
      by replace (Z.to_nat (Z.of_nat (j + p) - Z.of_nat p + Z.of_nat i)) with (j + i) by lia. }
    assert (c2 = {| newSceneCount := newSceneCount c';
                    app := set_session
                             (alter (set_image (imageOfCallback image)) l (store (app c')))
                             (storyHistory (app c')) (app c') |}) as ->
      by (by apply onNewImageGenerated_unfold with story').
    simpl.
    destruct (lookup_lt_is_Some_2 (store (app c')) l
                ltac:(by eapply sceneRef_valid)) as [scene Hscene].
    split; [|exists story'; split; [done|]; split; [done|]; split].
    + split; [done|]. exists story'. split; [done|]. split; [done|].
      split; [by apply storyWf_alter|done].
    + exists scene. rewrite sceneAt_alter by done. rewrite decide_True by done.
      unfold sceneAt. rewrite Hl. simpl. by rewrite Hscene.
    + intros k Hk. rewrite sceneAt_alter by done.
      rewrite decide_False; [done|]. intros Hkl. apply Hk.
      by eapply sceneRef_inj; [apply Hwf'| |].
Qed.

(** ** Follow-up actions on a scene *)

Lemma arraySet_lt (a : list (option loc)) i x :
  i < length a → arraySet a i x = <[i := x]> a.
Proof.
  intros Hi. unfold arraySet.
  by destruct (i <? length a)%nat eqn:E; [|apply Nat.ltb_ge in E; lia].
Qed.

Lemma sceneRef_lt scenes0 i l : sceneRef scenes0 i = Some l → i < length scenes0.
Proof.
  unfold sceneRef. destruct (scenes0 !! i) eqn:E; [|done].
  intros _. by eapply lookup_lt_Some.
Qed.

(** Replacing the scene in a slot that holds one: a new object, made of
    the old one's fields and the changes, takes the slot. *)
Lemma setStoryHistory_replaceScene changes active k s story l scene :
  storyHistory s !! active = Some story →
  sceneRef (scenes story) k = Some l →
  store s !! l = Some scene →
  setStoryHistory (atActive active (replaceScene changes k)) s =
    set_session (store s ++ [changes scene])
      (<[active := set_scenes (<[k := Some (length (store s))]> (scenes story)) story]>
         (storyHistory s)) s.
Proof.
  intros Hlook Hk Hl. eapply setStoryHistory_atActive; [done|].
  unfold replaceScene, alloc. rewrite Hk. simpl. rewrite Hl. simpl.
  by rewrite arraySet_lt by (by eapply sceneRef_lt).
Qed.

Lemma sceneAt_replaced (h : Store) story k x :
  k < length (scenes story) →
  sceneAt (h ++ [x]) (set_scenes (<[k := Some (length h)]> (scenes story)) story) k = Some x.
Proof.
  intros Hk. unfold sceneAt, sceneRef. simpl.
  rewrite list_lookup_insert_eq by done. simpl.
  rewrite lookup_app_r by done. by rewrite Nat.sub_diag.
Qed.

Lemma generateVideoPrompt_run {S} trim ai_generateContent paragraph0 image0 character1File
    character2File artStyle language log (s : S) :
  generateVideoPrompt trim ai_generateContent paragraph0 image0 character1File
    character2File artStyle language (log, s) =
    (match ai_generateContent (length log)
             (VideoPromptRequest paragraph0 image0 (fileToGenerativePart character1File)
                (fileToGenerativePart <$> character2File) artStyle language) with
     | Ok response =>
         match text response with
         | Some responseText => Ok (trim responseText)
         | None => Throw (TypeError_read "undefined" "trim")
         end
     | Throw e => Throw e
     end,
     (log ++ [VideoPromptRequest paragraph0 image0 (fileToGenerativePart character1File)
                (fileToGenerativePart <$> character2File) artStyle language], s)).
Proof.
  unfold generateVideoPrompt, generateContent, mbind, M_bind. simpl.
  destruct (ai_generateContent _ _) as [response|e]; [|done].
  by destruct (text response).
Qed.

Lemma storyHistory_set_session h history s :
  storyHistory (set_session h history s) = history.
Proof. done. Qed.

Lemma store_set_session h history s : store (set_session h history s) = h.
Proof. done. Qed.

Lemma error_set_session h history s : error (set_session h history s) = error s.
Proof. done. Qed.

Section VideoPrompt.
Variable trim : string -> string.
Variable ai_generateContent : nat -> Request -> Result Response.
Variable t : string -> string.
Variable character1File : File.
Variable character2 : option File.
Variable artStyle language : string.

Local Abbreviation handler :=
  (handleGenerateVideoPrompt trim ai_generateContent t (Some character1File) character2
     language artStyle).
Local Abbreviation attempt :=
  (handleGenerateVideoPrompt_try trim ai_generateContent t character2 language artStyle).

End VideoPrompt.

Lemma editImage_run {S} ai_generateContent baseImage prompt character1Part character2Part
    log (s : S) :
  editImage ai_generateContent baseImage prompt character1Part character2Part (log, s) =
    (match ai_generateContent (length log)
             (EditRequest baseImage prompt character1Part character2Part) with
     | Ok response =>
         match firstInlineData (parts response) with
         | Some image => Ok image
         | None => Throw (ErrorObj NoEditedImageReturned)
         end
     | Throw e => Throw e
     end,
     (log ++ [EditRequest baseImage prompt character1Part character2Part], s)).
Proof.
  unfold editImage, generateContent, mbind, M_bind. simpl.
  destruct (ai_generateContent _ _) as [response|e]; [|done].
  by destruct (firstInlineData (parts response)).
Qed.

Lemma setStoryHistory_writeImage x active k s story l :
  storyHistory s !! active = Some story →
  sceneRef (scenes story) k = Some l →
  setStoryHistory (atActive active (writeImage x k)) s =
    set_session (alter (set_image x) l (store s)) (storyHistory s) s.
Proof.
  intros Hlook Hk. erewrite setStoryHistory_atActive; [|done|].
  - by rewrite list_insert_id.
  - unfold writeImage. by rewrite Hk, set_scenes_same.
Qed.

Section EditImage.
Variable ai_generateContent : nat -> Request -> Result Response.
Variable t : string -> string.
Variable character1File : File.
Variable character2 : option File.

(** C8: an edit-image action on a scene of the active story that has an
    image always returns, with the modal closed. When the remote call
    yields an image, that image is written into the scene object, in
    place: the collection is as before and no other object of the store
    changes. When the remote call fails, or yields no image, the store
    and the collection are exactly as before the action, so the scene's
    image, every other scene and the rest of the story are unchanged, and
    the error is shown. *)
Theorem edit_image_action s0 log active editingScene story l scene dataUrl editPrompt :
  activeStoryIndex s0 = Some active →
  editingSceneIndex s0 = Some editingScene →
  editPrompt ≠ "" →
  storyHistory s0 !! active = Some story →
  sceneRef (scenes story) editingScene = Some l →
  store s0 !! l = Some scene →
  image scene = ImageReady dataUrl →
  dataUrl ≠ "" →
  let request :=
    EditRequest dataUrl editPrompt (fileToGenerativePart character1File)
      (fileToGenerativePart <$> character2) in
  let outcome : Result string :=
    match ai_generateContent (length log) request with
    | Ok response =>
        match firstInlineData (parts response) with
        | Some image => Ok image
        | None => Throw (ErrorObj NoEditedImageReturned)
        end
    | Throw e => Throw e
    end in
  let run := handleEditImage ai_generateContent t (Some character1File) character2
               editPrompt (log, s0) in
  let final := run.2.2 in
  run.1 = Ok tt
  ∧ run.2.1 = log ++ [request]
  ∧ isEditingImage final = false
  ∧ isEditModalOpen final = false
  ∧ renderError final = renderError s0
  ∧ storyHistory final = storyHistory s0
  ∧ match outcome with
    | Ok newImage =>
        store final = alter (set_image (ImageReady newImage)) l (store s0)
        ∧ sceneAt (store final) story editingScene
          = Some (set_image (ImageReady newImage) scene)
        ∧ error final = None
    | Throw e =>
        store final = store s0
        ∧ sceneAt (store final) story editingScene = Some scene
        ∧ error final = Some (errorMessage t e "errorEditImage")
    end.
Proof.
  intros Hactive Hediting Hprompt Hlook Hk Hl Himage Hurl request outcome run final.
  pose (during := setError None (setIsEditingImage true s0)).
  pose proof (editImage_run ai_generateContent dataUrl editPrompt
                (fileToGenerativePart character1File) (fileToGenerativePart <$> character2)
                log during) as Hcall.
  fold request in Hcall. fold outcome in Hcall.
  assert (sceneAt (store s0) story editingScene = Some scene) as Hscene.
  { unfold sceneAt. rewrite Hk. simpl. done. }
  unfold final, run, handleEditImage. rewrite bind_getState. cbn [snd].
  rewrite Hactive, Hediting.
  destruct (String.eqb editPrompt "") eqn:E1; [by apply String.eqb_eq in E1|].
  rewrite Hlook, Hk, Hl. cbn [default]. change (Datatypes.id scene) with scene.
  rewrite Himage. cbn [imageTruthy].
  destruct (String.eqb dataUrl "") eqn:E2; [by apply String.eqb_eq in E2|].
  cbn [negb]. rewrite !bind_notify. cbn [fst snd]. fold during.
  unfold finally, catch. rewrite bind_getState. cbn [snd].
  change (store during) with (store s0). rewrite Hl. cbn [default].
  change (Datatypes.id scene) with scene. rewrite Himage.
  destruct outcome as [newImage|e].
  - rewrite (bind_ok _ _ _ _ _ Hcall). unfold notify at 1; cbn [fst snd].
    rewrite bind_notify. unfold notify; cbn [fst snd].
    erewrite setStoryHistory_writeImage; [|done..].
    repeat split; try done.
    simpl. unfold sceneAt. rewrite Hk. simpl. by rewrite list_lookup_alter_eq, Hl.
  - rewrite (bind_throw _ _ _ _ _ Hcall). unfold notify at 1; cbn [fst snd].
    rewrite bind_notify. unfold notify; cbn [fst snd].
    repeat split; done.
Qed.
End EditImage.

(** ** Callbacks and the rest of the collection *)

(** In a session without sharing, an object belongs to one story. *)
Lemma sessionWf_owner history k1 k2 story1 story2 l :
  NoDup (history ≫= sceneRefs) →
  history !! k1 = Some story1 → history !! k2 = Some story2 →
  l ∈ sceneRefs story1 → l ∈ sceneRefs story2 → k1 = k2.
Proof.
  revert k1 k2. induction history as [|story rest IH]; intros k1 k2 Hnd H1 H2 Hl1 Hl2; [done|].
  change ((story :: rest) ≫= sceneRefs) with (sceneRefs story ++ (rest ≫= sceneRefs)) in Hnd.
  apply NoDup_app in Hnd as (_ & Hdisj & Hnd).
  assert (∀ k story', rest !! k = Some story' → l ∈ sceneRefs story' →
          l ∈ rest ≫= sceneRefs) as Hin.
  { intros k story' Hk Hl. apply list_elem_of_bind. exists story'.
    split; [done|by eapply list_elem_of_lookup_2]. }
  destruct k1 as [|k1], k2 as [|k2]; simpl in H1, H2.
  - done.
  - injection H1 as ->. exfalso. eapply Hdisj; [done|by eapply Hin].
  - injection H2 as ->. exfalso. eapply Hdisj; [done|by eapply Hin].
  - f_equal. by eapply IH.
Qed.

Lemma sessionWf_story h history k story :
  sessionWf h history → history !! k = Some story → storyWf h story.
Proof.
  intros [Hnd Hvalid] Hk. apply list_elem_of_lookup_2 in Hk. split.
  - clear Hvalid. induction history as [|story' rest IH]; [by apply elem_of_nil in Hk|].
    change ((story' :: rest) ≫= sceneRefs) with (sceneRefs story' ++ (rest ≫= sceneRefs)) in Hnd.
    apply NoDup_app in Hnd as (Hnd1 & _ & Hnd2).
    apply elem_of_cons in Hk as [->|Hk]; [done|by apply IH].
  - rewrite Forall_forall in Hvalid |- *. intros l Hl. apply Hvalid.
    apply list_elem_of_bind. by exists story.
Qed.

(** The image callback of a version returns the collection as it is and
    writes only scene objects of stories with that version's id. *)
Lemma mapStories_onImageGenerated x imgIndex storyId i prev h :
  ∃ h',
    mapStories (withId storyId (writeImageIfPresent x (Some imgIndex))) i prev h = (Ok prev, h')
    ∧ length h' = length h
    ∧ ∀ l, (∀ story, story ∈ prev → id story = storyId →
                     sceneRef (scenes story) imgIndex ≠ Some l) →
           h' !! l = h !! l.
Proof.
  revert i h. induction prev as [|story rest IH]; intros i h.
  - exists h. by repeat split.
  - simpl. unfold withId at 1.
    destruct (id story =? storyId)%Z eqn:E; simpl.
    + apply Z.eqb_eq in E.
      destruct (sceneRef (scenes story) imgIndex) as [l0|] eqn:Hl0.
      * rewrite (writeImageIfPresent_some _ _ _ _ l0) by done.
        destruct (IH (S i) (alter (set_image x) l0 h)) as (h' & -> & Hlen & Hsame).
        exists h'. split; [done|]. split; [by rewrite Hlen, length_alter|].
        intros l Hl. rewrite Hsame.
        -- apply list_lookup_alter_ne. intros ->.
           by eapply (Hl story); [apply elem_of_cons; left| |].
        -- intros story' Hin. apply Hl. apply elem_of_cons. by right.
      * rewrite writeImageIfPresent_none by done.
        destruct (IH (S i) h) as (h' & -> & Hlen & Hsame).
        exists h'. split; [done|]. split; [done|].
        intros l Hl. apply Hsame. intros story' Hin. apply Hl. apply elem_of_cons. by right.
    + destruct (IH (S i) h) as (h' & -> & Hlen & Hsame).
      exists h'. split; [done|]. split; [done|].
      intros l Hl. apply Hsame. intros story' Hin. apply Hl. apply elem_of_cons. by right.
Qed.

(** The frame of an image callback: the collection holds the same
    stories, and every story of another version shows the same scenes. *)
Lemma onImageGenerated_frame s storyId image imgIndex :
  sessionWf (store s) (storyHistory s) →
  storyHistory (onImageGenerated storyId image imgIndex s) = storyHistory s
  ∧ renderError (onImageGenerated storyId image imgIndex s) = renderError s
  ∧ ∀ story k,
      story ∈ storyHistory s → id story ≠ storyId →
      sceneAt (store (onImageGenerated storyId image imgIndex s)) story k
        = sceneAt (store s) story k.
Proof.
  intros Hwf. unfold onImageGenerated, setStoryHistory.
  destruct (mapStories_onImageGenerated (imageOfCallback image) imgIndex storyId 0
              (storyHistory s) (store s)) as (h' & -> & Hlen & Hsame).
  split; [done|]. split; [done|].
  intros story k Hin Hid. simpl. unfold sceneAt.
  destruct (sceneRef (scenes story) k) as [l|] eqn:Hl; [|done]. simpl.
  apply Hsame. intros story' Hin' Hid' Hl'.
  apply list_elem_of_lookup in Hin as [k1 Hk1]. apply list_elem_of_lookup in Hin' as [k2 Hk2].
  assert (k1 = k2) as ->.
  { eapply sessionWf_owner; [apply Hwf|done|done| |]; by eapply sceneRef_elem. }
  congruence.
Qed.

(** The story callback of a version allocates the scenes of its stories:
    the store grows, no existing object is written, and the stories of the
    other versions are returned as they are. *)
Lemma mapStories_onStoryGenerated title paragraphs imagePrompts storyId i prev h :
  ∃ history' news,
    mapStories (withId storyId (λ story h0,
        (Ok (set_scenes (freshRefs h0 (length (scenePlaceholders paragraphs imagePrompts)))
               (set_title title story)),
         h0 ++ scenePlaceholders paragraphs imagePrompts))) i prev h
      = (Ok history', h ++ news)
    ∧ length history' = length prev
    ∧ ∀ k story, prev !! k = Some story → id story ≠ storyId → history' !! k = Some story.
Proof.
  revert i h. induction prev as [|story rest IH]; intros i h.
  - exists [], []. by rewrite app_nil_r.
  - simpl. unfold withId at 1.
    destruct (id story =? storyId)%Z eqn:E; simpl.
    + apply Z.eqb_eq in E.
      destruct (IH (S i) (h ++ scenePlaceholders paragraphs imagePrompts))
        as (history' & news & -> & Hlen & Hsame).
      eexists _, (scenePlaceholders paragraphs imagePrompts ++ news).
      split; [by rewrite app_assoc|]. split; [simpl; by rewrite Hlen|].
      intros [|k] story' Hk Hid; simpl in *; [congruence|by apply Hsame].
    + destruct (IH (S i) h) as (history' & news & -> & Hlen & Hsame).
      exists (story :: history'), news.
      split; [done|]. split; [simpl; by rewrite Hlen|].
      intros [|k] story' Hk Hid; simpl in *; [done|by apply Hsame].
Qed.

Lemma onStoryGenerated_frame s storyId title paragraphs imagePrompts :
  sessionWf (store s) (storyHistory s) →
  length (storyHistory (onStoryGenerated storyId title paragraphs imagePrompts s))
    = length (storyHistory s)
  ∧ (∀ k story,
       storyHistory s !! k = Some story → id story ≠ storyId →
       storyHistory (onStoryGenerated storyId title paragraphs imagePrompts s) !! k
         = Some story)
  ∧ ∀ story k,
      story ∈ storyHistory s →
      sceneAt (store (onStoryGenerated storyId title paragraphs imagePrompts s)) story k
        = sceneAt (store s) story k.
Proof.
  intros Hwf. unfold onStoryGenerated, setStoryHistory.
  destruct (mapStories_onStoryGenerated title paragraphs imagePrompts storyId 0
              (storyHistory s) (store s)) as (history' & news & -> & Hlen & Hsame).
  split; [done|]. split; [done|].
  intros story k Hin. simpl. apply sceneAt_alloc.
  apply list_elem_of_lookup in Hin as [k' Hk']. by eapply sessionWf_story.
Qed.

(** The frame of the callbacks of a continuation: the stories at the
    other indices are returned as they are and show the same scenes. *)
Lemma continuation_callbacks_frame c active mode paragraphs imagePrompts image index :
  sessionWf (store (app c)) (storyHistory (app c)) →
  let c1 := onNewStoryPartsGenerated active mode paragraphs imagePrompts c in
  let c2 := onNewImageGenerated active image index c in
  ∀ k story,
    storyHistory (app c) !! k = Some story → k ≠ active →
    (storyHistory (app c1) !! k = Some story
     ∧ ∀ n, sceneAt (store (app c1)) story n = sceneAt (store (app c)) story n)
    ∧ (storyHistory (app c2) !! k = Some story
       ∧ ∀ n, sceneAt (store (app c2)) story n = sceneAt (store (app c)) story n).
Proof.
  intros Hwf c1 c2 k story Hk Hne.
  pose proof (sessionWf_story _ _ _ _ Hwf Hk) as Hstory. split.
  - unfold c1, onNewStoryPartsGenerated. cbn [app].
    destruct (storyHistory (app c) !! active) as [target|] eqn:Htarget.
    + erewrite setStoryHistory_atActive; [|done|done].
      rewrite storyHistory_set_session, store_set_session.
      split; [by rewrite list_lookup_insert_ne|].
      intros n. by apply sceneAt_alloc.
    + unfold setStoryHistory. rewrite mapStories_id.
      * rewrite storyHistory_set_session, store_set_session.
        split; [done|]. intros n. by apply sceneAt_alloc.
      * intros k' story' Hk'. unfold atActive. simpl.
        destruct (k' =? active)%nat eqn:E; [|done].
        apply Nat.eqb_eq in E. subst k'. simpl in Hk'. congruence.
  - unfold c2, onNewImageGenerated, inApp. cbn [app].
    destruct (storyHistory (app c) !! active) as [target|] eqn:Htarget.
    + erewrite setStoryHistory_atActive;
        [|done|by rewrite (surjective_pairing (writeImageIfPresent _ _ _ _)),
                 writeImageIfPresent_story].
      rewrite storyHistory_set_session, store_set_session.
      split; [by rewrite list_lookup_insert_ne|].
      intros n. unfold writeImageIfPresent.
      destruct (indexOfZ _ ≫= sceneRef (scenes target)) as [l|] eqn:Hl; [|done].
      cbn [snd]. rewrite sceneAt_alter by done.
      rewrite decide_False; [done|]. intros Hn. apply Hne.
      destruct (indexOfZ _) as [m|]; [|done]. simpl in Hl.
      eapply sessionWf_owner; [apply Hwf|done|done| |]; by eapply sceneRef_elem.
    + unfold setStoryHistory. rewrite mapStories_id; [by rewrite set_session_same|].
      intros k' story' Hk'. unfold atActive. simpl.
      destruct (k' =? active)%nat eqn:E; [|done].
      apply Nat.eqb_eq in E. subst k'. congruence.
Qed.

Lemma mapStories_cons_store f i story rest h story' h1 :
  f i story h = (Ok story', h1) →
  (mapStories f i (story :: rest) h).2 = (mapStories f (S i) rest h1).2.
Proof.
  intros Hf. simpl. rewrite Hf.
  by destruct (mapStories f (S i) rest h1) as [[rest'|e] h2].
Qed.

Lemma withId_writeImageIfPresent_cases x imgIndex storyId i story h :
  (withId storyId (writeImageIfPresent x (Some imgIndex)) i story h = (Ok story, h)
   ∧ (id story = storyId → sceneRef (scenes story) imgIndex = None))
  ∨ ∃ l, id story = storyId
         ∧ sceneRef (scenes story) imgIndex = Some l
         ∧ withId storyId (writeImageIfPresent x (Some imgIndex)) i story h
           = (Ok story, alter (set_image x) l h).
Proof.
  unfold withId. destruct (id story =? storyId)%Z eqn:E; simpl.
  - apply Z.eqb_eq in E.
    destruct (sceneRef (scenes story) imgIndex) as [l|] eqn:Hl.
    + right. exists l. by rewrite (writeImageIfPresent_some _ _ _ _ l).
    + left. by rewrite writeImageIfPresent_none.
  - left. split; [done|]. intros Hid. apply Z.eqb_neq in E. congruence.
Qed.

(** Every scene object that the image callback of a version targets holds
    the image afterwards; the other objects are as before. *)
Lemma mapStories_onImageGenerated_store x imgIndex storyId i prev h l :
  let h' := (mapStories (withId storyId (writeImageIfPresent x (Some imgIndex))) i prev h).2 in
  h' !! l = set_image x <$> h !! l
  ∨ (h' !! l = h !! l
     ∧ ∀ story, story ∈ prev → id story = storyId →
                sceneRef (scenes story) imgIndex ≠ Some l).
Proof.
  revert i h. induction prev as [|story rest IH]; intros i h h'.
  - right. split; [done|]. intros story Hin. by apply elem_of_nil in Hin.
  - destruct (withId_writeImageIfPresent_cases x imgIndex storyId i story h)
      as [[Hf Hhead]|(l0 & Hid & Hl0 & Hf)];
      unfold h'; rewrite (mapStories_cons_store _ _ _ _ _ _ _ Hf).
    + destruct (IH (S i) h) as [Hw|[Hsame Hrest]]; [by left|right].
      split; [done|].
      intros story' Hin Hid'. apply elem_of_cons in Hin as [->|Hin]; [|by apply Hrest].
      by rewrite Hhead.
    + destruct (decide (l0 = l)) as [->|Hne].
      * left. destruct (IH (S i) (alter (set_image x) l h)) as [Hw|[Hsame _]].
        -- rewrite Hw, list_lookup_alter_eq. by destruct (h !! l).
        -- by rewrite Hsame, list_lookup_alter_eq.
      * destruct (IH (S i) (alter (set_image x) l0 h)) as [Hw|[Hsame Hrest]].
        -- left. by rewrite Hw, list_lookup_alter_ne.
        -- right. split; [by rewrite Hsame, list_lookup_alter_ne|].
           intros story' Hin Hid'. apply elem_of_cons in Hin as [->|Hin]; [|by apply Hrest].
           congruence.
Qed.

(** The image callback sets the image of the scene at its index in every
    story of its version; it does so in the scene object itself, so the
    story as the previous collection holds it shows the image too. *)
Lemma onImageGenerated_sets_image s storyId image imgIndex story scene :
  story ∈ storyHistory s → id story = storyId →
  sceneAt (store s) story imgIndex = Some scene →
  story ∈ storyHistory (onImageGenerated storyId image imgIndex s)
  ∧ sceneAt (store (onImageGenerated storyId image imgIndex s)) story imgIndex
    = Some (set_image (imageOfCallback image) scene).
Proof.
  intros Hin Hid Hscene. unfold onImageGenerated, setStoryHistory.
  destruct (sceneRef (scenes story) imgIndex) as [l|] eqn:Hl;
    [|by unfold sceneAt in Hscene; rewrite Hl in Hscene].
  pose proof (mapStories_onImageGenerated_store (imageOfCallback image) imgIndex storyId 0
                (storyHistory s) (store s) l) as Hstore.
  destruct (mapStories_onImageGenerated (imageOfCallback image) imgIndex storyId 0
              (storyHistory s) (store s)) as (h' & Hmap & _ & _).
  rewrite Hmap in Hstore |- *. simpl in *. split; [done|].
  unfold sceneAt in *. rewrite Hl in *. simpl in *.
  destruct Hstore as [->|[_ Hnot]]; [by rewrite Hscene|].
  by destruct (Hnot story Hin Hid).
Qed.

(** C9: the image-produced callback does not leave the previous
    collection alone. In the sample session the story that the previous
    collection holds shows its second scene pending; after the callback the
    new collection holds the same story and scene object, and that object,
    which the previous collection still refers to, has been given the
    image. The update that [handleRegenerateImage] makes of the same field
    copies the scene instead: the previous collection's story still shows
    the scene pending, the new collection's story shows the image. *)
Theorem image_callback_writes_previous_collection :
  let previous := storyHistory sampleSession in
  let image := "data:image/png;base64,AAAA" in
  let written := onImageGenerated 1730000000000 (Some image) 1 sampleSession in
  let copied :=
    setStoryHistory (atActive 0 (replaceScene (set_image (ImageReady image)) 1))
      sampleSession in
  previous !! 0 = Some kiteStory
  ∧ sceneAt (store sampleSession) kiteStory 1 = Some hillScene
  ∧ storyHistory written = previous
  ∧ sceneAt (store written) kiteStory 1 = Some (set_image (ImageReady image) hillScene)
  ∧ sceneAt (store copied) kiteStory 1 = Some hillScene
  ∧ (story ← storyHistory copied !! 0; sceneAt (store copied) story 1)
    = Some (set_image (ImageReady image) hillScene).
Proof. by vm_compute. Qed.


(** ** The session holds no shared scene object

    [sessionWf] holds of the empty session and is kept by every state
    update of the handlers. *)

Lemma sessionWf_empty : sessionWf [] [].
Proof. split; [apply NoDup_nil_2|apply Forall_nil_2]. Qed.

Lemma sessionWf_cons h story rest :
  sessionWf h (story :: rest) ↔
  storyWf h story ∧ sessionWf h rest
  ∧ ∀ l, l ∈ sceneRefs story → l ∉ rest ≫= sceneRefs.
Proof.
  unfold sessionWf, storyWf.
  change ((story :: rest) ≫= sceneRefs) with (sceneRefs story ++ (rest ≫= sceneRefs)).
  rewrite NoDup_app, Forall_app. split.
  - intros [(Hnd1 & Hdisj & Hnd2) [Hvalid1 Hvalid2]]. done.
  - intros ([Hnd1 Hvalid1] & [Hnd2 Hvalid2] & Hdisj). done.
Qed.

(** An updater by id whose change keeps the scene objects apart keeps the
    session without sharing. *)
Lemma mapStories_keepsScenesApart f i prev h :
  (∀ k, keepsScenesApart (f k)) →
  sessionWf h prev →
  ∃ history' h',
    mapStories f i prev h = (Ok history', h')
    ∧ length h ≤ length h'
    ∧ sessionWf h' history'
    ∧ Forall (λ l, l ∈ prev ≫= sceneRefs ∨ length h ≤ l) (history' ≫= sceneRefs).
Proof.
  intros Hf. revert i h. induction prev as [|story rest IH]; intros i h Hwf.
  - exists [], h. repeat split; try done; apply sessionWf_empty.
  - apply sessionWf_cons in Hwf as (Hstory & Hrest & Hdisj).
    destruct (Hf i story h Hstory) as (story' & h1 & Hg & Hlen1 & Hnd1 & Hrefs1).
    assert (sessionWf h1 rest) as Hrest1.
    { destruct Hrest as [? Hvalid]. split; [done|].
      eapply Forall_impl; [done|]. simpl. lia. }
    destruct (IH (S i) h1 Hrest1) as (rest' & h2 & Hmap & Hlen2 & Hwf2 & Hrefs2).
    exists (story' :: rest'), h2. simpl. rewrite Hg, Hmap.
    rewrite Forall_forall in Hrefs1, Hrefs2.
    split; [done|]. split; [lia|]. split.
    + apply sessionWf_cons. split; [|split; [done|]].
      * split; [done|]. apply Forall_forall. intros l Hl.
        destruct (Hrefs1 l Hl). lia.
      * intros l Hl Hl'. destruct (Hrefs1 l Hl) as [Hold Hlt].
        destruct (Hrefs2 l Hl') as [Hin|Hge]; [|lia].
        destruct Hold as [Hstory'|Hge]; [by eapply Hdisj|].
        destruct Hrest as [_ Hvalid]. rewrite Forall_forall in Hvalid.
        apply Hvalid in Hin. lia.
    + change ((story' :: rest') ≫= sceneRefs)
        with (sceneRefs story' ++ (rest' ≫= sceneRefs)).
      change ((story :: rest) ≫= sceneRefs)
        with (sceneRefs story ++ (rest ≫= sceneRefs)).
      apply Forall_app. split; apply Forall_forall; intros l Hl.
      * destruct (Hrefs1 l Hl) as [[Hin|Hge] _]; [left; apply elem_of_app; by left|by right].
      * destruct (Hrefs2 l Hl) as [Hin|Hge]; [left; apply elem_of_app; by right|right; lia].
Qed.

Lemma keepsScenesApart_withId storyId g k :
  keepsScenesApart g → keepsScenesApart (withId storyId g k).
Proof.
  intros Hg story h Hwf. unfold withId.
  destruct (id story =? storyId)%Z; simpl; [by apply Hg|].
  exists story, h. destruct Hwf as [Hnd Hvalid].
  split; [done|]. split; [done|]. split; [done|].
  rewrite Forall_forall in Hvalid |- *. intros l Hl. split; [by left|by apply Hvalid].
Qed.

Lemma keepsScenesApart_atActive active g k :
  keepsScenesApart g → keepsScenesApart (atActive active g k).
Proof.
  intros Hg story h Hwf. unfold atActive.
  destruct (k =? active)%nat; simpl; [by apply Hg|].
  exists story, h. destruct Hwf as [Hnd Hvalid].
  split; [done|]. split; [done|]. split; [done|].
  rewrite Forall_forall in Hvalid |- *. intros l Hl. split; [by left|by apply Hvalid].
Qed.

Lemma setStoryHistory_sessionWf f s :
  (∀ k, keepsScenesApart (f k)) →
  sessionWf (store s) (storyHistory s) →
  sessionWf (store (setStoryHistory f s)) (storyHistory (setStoryHistory f s)).
Proof.
  intros Hf Hwf. unfold setStoryHistory.
  by destruct (mapStories_keepsScenesApart f 0 _ _ Hf Hwf) as (history' & h' & -> & _ & ? & _).
Qed.

Lemma omap_replicate_None n :
  omap (λ slot : option loc, slot) (replicate n None) = [].
Proof. induction n as [|n IH]; [done|exact IH]. Qed.

(** The references of an array after one slot was given a new object. *)
Lemma omap_insert_fresh (slots : list (option loc)) k n :
  NoDup (omap (λ slot, slot) slots) →
  n ∉ omap (λ slot, slot) slots →
  NoDup (omap (λ slot, slot) (<[k := Some n]> slots))
  ∧ ∀ l, l ∈ omap (λ slot, slot) (<[k := Some n]> slots) →
         l ∈ omap (λ slot, slot) slots ∨ l = n.
Proof.
  revert k. induction slots as [|slot rest IH]; intros k Hnd Hn; [split; [done|by left]|].
  destruct k as [|k].
  - simpl. destruct slot as [l0|]; simpl in *.
    + apply NoDup_cons in Hnd as [_ Hnd]. apply not_elem_of_cons in Hn as [_ Hn]. split.
      * apply NoDup_cons. by split.
      * intros l Hl. apply elem_of_cons in Hl as [->|Hl]; [by right|].
        left. apply elem_of_cons. by right.
    + split.
      * apply NoDup_cons. by split.
      * intros l Hl. apply elem_of_cons in Hl as [->|Hl]; [by right|by left].
  - simpl. destruct slot as [l0|]; simpl in *.
    + apply NoDup_cons in Hnd as [Hl0 Hnd]. apply not_elem_of_cons in Hn as [Hne Hn].
      destruct (IH k Hnd Hn) as [Hnd' Hin']. split.
      * apply NoDup_cons. split; [|done].
        intros Hl. apply Hin' in Hl as [Hl| ->]; [done|]. by apply Hne.
      * intros l Hl. apply elem_of_cons in Hl as [->|Hl]; [left; apply elem_of_cons; by left|].
        apply Hin' in Hl as [Hl| ->]; [left; apply elem_of_cons; by right|by right].
    + by apply IH.
Qed.

Lemma arraySet_refs (slots : list (option loc)) k n :
  NoDup (omap (λ slot, slot) slots) →
  n ∉ omap (λ slot, slot) slots →
  NoDup (omap (λ slot, slot) (arraySet slots k (Some n)))
  ∧ ∀ l, l ∈ omap (λ slot, slot) (arraySet slots k (Some n)) →
         l ∈ omap (λ slot, slot) slots ∨ l = n.
Proof.
  intros Hnd Hn. unfold arraySet. destruct (k <? length slots)%nat.
  - by apply omap_insert_fresh.
  - rewrite !omap_app, omap_replicate_None. simpl. split.
    + apply NoDup_app. split; [done|]. split; [|apply NoDup_singleton].
      intros l Hl Hl'. apply list_elem_of_singleton in Hl'. by subst l.
    + intros l Hl. apply elem_of_app in Hl as [Hl|Hl]; [by left|].
      apply list_elem_of_singleton in Hl. by right.
Qed.

Lemma keepsScenesApart_replaceScene changes k :
  keepsScenesApart (replaceScene changes k).
Proof.
  intros story h [Hnd Hvalid]. unfold replaceScene, alloc.
  eexists _, _. split; [done|]. rewrite length_app. simpl. split; [lia|].
  rewrite Forall_forall in Hvalid.
  assert (length h ∉ sceneRefs story) as Hfresh.
  { intros Hin. apply Hvalid in Hin. lia. }
  destruct (arraySet_refs (scenes story) k (length h) Hnd Hfresh) as [Hnd' Hin'].
  split; [done|]. apply Forall_forall. intros l Hl. apply Hin' in Hl as [Hl| ->].
  - split; [by left|]. apply Hvalid in Hl. lia.
  - split; [by right|lia].
Qed.

Lemma keepsScenesApart_writeImageIfPresent x i :
  keepsScenesApart (writeImageIfPresent x i).
Proof.
  intros story h [Hnd Hvalid]. unfold writeImageIfPresent. rewrite set_scenes_same.
  rewrite Forall_forall in Hvalid.
  destruct (i ≫= sceneRef (scenes story)) as [l|];
    eexists _, _; (split; [done|]); rewrite ?length_alter;
    (split; [done|]); (split; [done|]);
    apply Forall_forall; intros l' Hl'; (split; [by left|by apply Hvalid]).
Qed.

Lemma keepsScenesApart_allocate (change : StoryResult → StoryResult) (news : list Scene) :
  keepsScenesApart (λ story h,
    (Ok (set_scenes (freshRefs h (length news)) (change story)), h ++ news)).
Proof.
  intros story h _. eexists _, _. split; [done|]. rewrite length_app. split; [lia|].
  unfold sceneRefs. simpl. rewrite omap_freshRefs. split; [apply NoDup_seq|].
  apply Forall_forall. intros l Hl. apply elem_of_seq in Hl. lia.
Qed.

Lemma keepsScenesApart_append (change : StoryResult → StoryResult) (news : list Scene) :
  (∀ story, scenes (change story) = scenes story) →
  keepsScenesApart (λ story h,
    (Ok (change (set_scenes (scenes story ++ freshRefs h (length news)) story)), h ++ news)).
Proof.
  intros Hchange story h [Hnd Hvalid]. eexists _, _. split; [done|].
  rewrite length_app. split; [lia|].
  unfold sceneRefs in *. rewrite Hchange. simpl. rewrite omap_app, omap_freshRefs.
  rewrite Forall_forall in Hvalid. split.
  - apply NoDup_app. split; [done|]. split; [|apply NoDup_seq].
    intros l Hl Hl'. apply Hvalid in Hl. apply elem_of_seq in Hl'. lia.
  - apply Forall_app. split; apply Forall_forall; intros l Hl.
    + split; [by left|]. apply Hvalid in Hl. lia.
    + apply elem_of_seq in Hl. lia.
Qed.

Lemma keepsScenesApart_fields (change : StoryResult → StoryResult) :
  (∀ story, scenes (change story) = scenes story) →
  keepsScenesApart (λ story h, (Ok (change story), h)).
Proof.
  intros Hchange story h [Hnd Hvalid]. eexists _, _. split; [done|]. split; [done|].
  unfold sceneRefs in *. rewrite Hchange. split; [done|].
  rewrite Forall_forall in Hvalid |- *. intros l Hl. split; [by left|by apply Hvalid].
Qed.

Lemma mapStories_atActive_absent g active i prev h :
  prev !! active = None →
  mapStories (atActive (i + active) g) i prev h = (Ok prev, h).
Proof.
  intros Hnone. apply mapStories_id. intros k story Hk. unfold atActive.
  destruct (i + k =? i + active)%nat eqn:E; [|done].
  apply Nat.eqb_eq in E. assert (k = active) as -> by lia. congruence.
Qed.

(** The callbacks of [handleGenerate] and the updates of the follow-up
    actions keep the session without sharing. *)
Lemma handleGenerate_callbacks_sessionWf t s :
  sessionWf (store s) (storyHistory s) →
  (∀ storyId title paragraphs imagePrompts,
     let s' := onStoryGenerated storyId title paragraphs imagePrompts s in
     sessionWf (store s') (storyHistory s'))
  ∧ (∀ storyId image imgIndex,
       let s' := onImageGenerated storyId image imgIndex s in
       sessionWf (store s') (storyHistory s'))
  ∧ (∀ storyId err,
       let s' := onGenerationFailed t storyId err s in
       sessionWf (store s') (storyHistory s'))
  ∧ (∀ storyId,
       let s' := onGenerationSettled storyId s in
       sessionWf (store s') (storyHistory s')).
Proof.
  intros Hwf. split; [|split; [|split]].
  - intros storyId newTitle paragraphs imagePrompts s'.
    apply setStoryHistory_sessionWf; [|done].
    intros k. apply keepsScenesApart_withId.
    apply (keepsScenesApart_allocate (set_title newTitle)).
  - intros storyId image imgIndex s'. apply setStoryHistory_sessionWf; [|done].
    intros k. apply keepsScenesApart_withId, keepsScenesApart_writeImageIfPresent.
  - intros storyId err s'. apply setStoryHistory_sessionWf; [|done].
    intros k. apply keepsScenesApart_withId.
    apply (keepsScenesApart_allocate
             (λ story, set_isLoading (Some false) (set_title (JString (t "errorTitle")) story))
             [_]).
  - intros storyId s'. apply setStoryHistory_sessionWf; [|done].
    intros k. apply keepsScenesApart_withId.
    by apply (keepsScenesApart_fields (set_isLoading (Some false))).
Qed.

Lemma follow_up_updates_sessionWf s active :
  sessionWf (store s) (storyHistory s) →
  (∀ changes sceneIndex,
     let s' := setStoryHistory (atActive active (replaceScene changes sceneIndex)) s in
     sessionWf (store s') (storyHistory s'))
  ∧ (∀ x sceneIndex,
       let s' := setStoryHistory (atActive active (writeImage x sceneIndex)) s in
       sessionWf (store s') (storyHistory s')).
Proof.
  intros Hwf. split.
  - intros changes sceneIndex s'. apply setStoryHistory_sessionWf; [|done].
    intros k. apply keepsScenesApart_atActive, keepsScenesApart_replaceScene.
  - intros x sceneIndex s'. unfold s', setStoryHistory.
    destruct (storyHistory s !! active) as [story|] eqn:Hlook.
    + destruct (sceneRef (scenes story) sceneIndex) as [l|] eqn:Hl.
      * pose proof (mapStories_atActive (writeImage x sceneIndex) active 0 _ (store s)
                      story story (alter (set_image x) l (store s)) Hlook) as Hmap.
        rewrite Nat.add_0_l in Hmap. rewrite Hmap.
        -- rewrite list_insert_id by done. simpl.
           destruct Hwf as [? ?]. split; [done|]. by rewrite length_alter.
        -- unfold writeImage. by rewrite Hl, set_scenes_same.
      * pose proof (mapStories_atActive_throw (writeImage x sceneIndex) active 0 _ (store s)
                      story (TypeError_set "undefined" "image") (store s) Hlook) as Hmap.
        rewrite Nat.add_0_l in Hmap. rewrite Hmap; [done|].
        unfold writeImage. by rewrite Hl.
    + pose proof (mapStories_atActive_absent (writeImage x sceneIndex) active 0 _ (store s)
                    Hlook) as Hmap.
      rewrite Nat.add_0_l in Hmap. by rewrite Hmap.
Qed.

Lemma continuation_callbacks_sessionWf c active :
  sessionWf (store (app c)) (storyHistory (app c)) →
  (∀ mode paragraphs imagePrompts,
     let c' := onNewStoryPartsGenerated active mode paragraphs imagePrompts c in
     sessionWf (store (app c')) (storyHistory (app c')))
  ∧ (∀ image index,
       let c' := onNewImageGenerated active image index c in
       sessionWf (store (app c')) (storyHistory (app c'))).
Proof.
  intros Hwf. split.
  - intros mode paragraphs imagePrompts c'.
    destruct (storyHistory (app c) !! active) as [story|] eqn:Hlook.
    + unfold c'. rewrite (onNewStoryPartsGenerated_unfold _ _ _ _ _ _ Hlook). cbn [app].
      pose proof (setStoryHistory_sessionWf
                    (atActive active (λ story h,
                       (Ok (set_storyMode mode
                              (set_scenes
                                 (scenes story
                                  ++ freshRefs h (length (scenePlaceholders paragraphs
                                                            imagePrompts))) story)),
                        h ++ scenePlaceholders paragraphs imagePrompts)))
                    (app c)) as Hkeep.
      erewrite setStoryHistory_atActive in Hkeep; [|done|done].
      rewrite length_scenePlaceholders in Hkeep. apply Hkeep; [|done].
      intros k. apply keepsScenesApart_atActive.
      rewrite <- (length_scenePlaceholders paragraphs imagePrompts).
      by apply (keepsScenesApart_append (set_storyMode mode)).
    + unfold c', onNewStoryPartsGenerated, setStoryHistory. cbn [app].
      rewrite storyHistory_set_session, store_set_session.
      pose proof (mapStories_atActive_absent
                    (λ story h,
                       (Ok (set_storyMode mode
                              (set_scenes
                                 (scenes story
                                  ++ freshRefs (store (app c))
                                       (length (scenePlaceholders paragraphs imagePrompts)))
                                 story)), h))
                    active 0 _ (store (app c) ++ scenePlaceholders paragraphs imagePrompts)
                    Hlook) as Hmap.
      rewrite Nat.add_0_l in Hmap. rewrite Hmap. simpl.
      destruct Hwf as [Hnd Hvalid]. split; [done|].
      eapply Forall_impl; [done|]. intros l Hl. simpl in Hl. rewrite length_app. lia.
  - intros image index c'. unfold c', onNewImageGenerated, inApp. cbn [app].
    apply setStoryHistory_sessionWf; [|done].
    intros k. apply keepsScenesApart_atActive. intros story h.
    apply keepsScenesApart_writeImageIfPresent.
Qed.

(** * The properties on the sample data *)

Lemma parseAndValidate_invariant_witness :
  ∃ storyParagraphs imagePrompts,
    getProp truncatedResponse "storyParagraphs" = Ok (JArray storyParagraphs)
    ∧ getProp truncatedResponse "imagePrompts" = Ok (JArray imagePrompts)
    ∧ length storyParagraphs = length imagePrompts
    ∧ 0 < length storyParagraphs.
Proof.
  apply (parseAndValidate_invariant sampleTrim sampleParse "three paragraphs, two prompts").
  reflexivity.
Defined.

Lemma truncation_law_witness :
  ∃ r ps' qs',
    parseAndValidateStoryResponse sampleTrim sampleParse "three paragraphs, two prompts" = Ok r
    ∧ getProp r "storyParagraphs" = Ok (JArray ps')
    ∧ getProp r "imagePrompts" = Ok (JArray qs')
    ∧ length ps' = 3 `min` 2
    ∧ length qs' = 3 `min` 2
    ∧ ps' `prefix_of` [JString "Sinta found a red kite."; JString "She ran up the hill.";
                       JString "The wind took the kite."]
    ∧ qs' `prefix_of` [JString "a girl holding a red kite";
                       JString "a girl running up a green hill"].
Proof.
  apply (truncation_law sampleTrim sampleParse "three paragraphs, two prompts"
           mismatchedResponse
           [JString "Sinta found a red kite."; JString "She ran up the hill.";
            JString "The wind took the kite."]
           [JString "a girl holding a red kite"; JString "a girl running up a green hill"]);
    simpl; (reflexivity || lia).
Defined.

(** C3 as stated fails: a response with an empty paragraph list and one
    prompt is rejected with [EmptyGeneration], not with
    [MalformedResponse]; and a response that parses to [null], which has
    neither field, is rejected with [UnparsableResponse]. *)
Lemma rejection_law_counterexample :
  getProp emptyParagraphsResponse "storyParagraphs" = Ok (JArray [])
  ∧ parseAndValidateStoryResponse sampleTrim sampleParse "no paragraph, one prompt"
    = Throw (ErrorObj EmptyGeneration)
  ∧ parseAndValidateStoryResponse sampleTrim sampleParse "no paragraph, one prompt"
    ≠ Throw (ErrorObj MalformedResponse)
  ∧ parseAndValidateStoryResponse sampleTrim sampleParse "null"
    ≠ Throw (ErrorObj MalformedResponse).
Proof. repeat split; try reflexivity; vm_compute; discriminate. Qed.

Lemma rejection_law_witness :
  parseAndValidateStoryResponse sampleTrim sampleParse "no paragraph, one prompt"
    = Throw (ErrorObj EmptyGeneration).
Proof.
  refine (proj2 (proj1 (rejection_law sampleTrim sampleParse "no paragraph, one prompt"
                          emptyParagraphsResponse _) (JArray [])
                   (JArray [JString "a girl holding a red kite"]) _ _) _ _);
    try reflexivity.
  by left.
Defined.


Lemma continuation_append_witness :
  continuationInProgress 0 2 2
    (onNewStoryPartsGenerated 0 conclude
       [JString "The wind took the kite."; JString "The kite landed in a tree."]
       [JString "a red kite high in the sky"; JString "a red kite caught in a tree"]
       {| app := sampleSession; newSceneCount := 0 |}).
Proof.
  refine (proj1 (proj2 (continuation_append {| app := sampleSession; newSceneCount := 0 |}
                          0 conclude
                          [JString "The wind took the kite."; JString "The kite landed in a tree."]
                          [JString "a red kite high in the sky";
                           JString "a red kite caught in a tree"]
                          kiteStory eq_refl _))).
  split.
  - change (NoDup [0; 1]). apply NoDup_cons. split; [|apply NoDup_singleton].
    intros Hin. apply list_elem_of_singleton in Hin. lia.
  - change (Forall (λ l, l < 2) [0; 1]). repeat constructor.
Defined.



Lemma edit_image_action_witness :
  let run := handleEditImage serviceDown sampleTranslate (Some sampleCharacter) None
               "make the kite blue" ([], sampleSession) in
  store run.2.2 = store sampleSession
  ∧ sceneAt (store run.2.2) kiteStory 0 = Some kiteScene
  ∧ error run.2.2 = Some "503 Service Unavailable".
Proof.
  refine (proj2 (proj2 (proj2 (proj2 (proj2 (proj2
            (edit_image_action serviceDown sampleTranslate sampleCharacter None
               sampleSession [] 0 0 kiteStory 0 kiteScene "data:image/png;base64,BBBB"
               "make the kite blue" eq_refl eq_refl _ eq_refl eq_refl eq_refl eq_refl _)))))));
    discriminate.
Defined.

Lemma image_callback_out_of_range_witness :
  onImageGenerated 1730000000000 (Some "data:image/png;base64,AAAA") 0 placeholderSession
  = placeholderSession.
Proof.
  refine (proj2 (proj1 image_callback_out_of_range placeholderSession 1730000000000%Z
                   (Some "data:image/png;base64,AAAA") 0 _)).
  intros story Hin _. apply list_elem_of_singleton in Hin. subst story. simpl. lia.
Defined.

(** * Further properties of the client and of the session *)

(** ** Response validation: what is returned and what is thrown *)

(** A returned value is the parsed object, or the parsed object with its
    two lists cut to the shorter length. *)
Lemma parseAndValidate_ok_inv trim JSON_parse responseText r :
  parseAndValidateStoryResponse trim JSON_parse responseText = Ok r →
  ∃ props ps qs,
    JSON_parse (trim responseText) = Ok (JObject props)
    ∧ lookupProp props "storyParagraphs" = JArray ps
    ∧ lookupProp props "imagePrompts" = JArray qs
    ∧ 0 < length ps ∧ 0 < length qs
    ∧ r = if (length ps =? length qs)%nat then JObject props
          else setProp (setProp (JObject props) "storyParagraphs"
                          (JArray (take (length ps `min` length qs) ps)))
                 "imagePrompts" (JArray (take (length ps `min` length qs) qs)).
Proof.
  unfold parseAndValidateStoryResponse.
  destruct (parseAndValidate_try trim JSON_parse responseText) as [parsed|e] eqn:Htry;
    [|destruct e as [message|]; simpl;
      [destruct (_ || _); discriminate | discriminate]].
  intros [= ->]. revert Htry.
  destruct (JSON_parse (trim responseText)) as [parsed|e] eqn:Hparse;
    [|unfold parseAndValidate_try; rewrite Hparse; discriminate].
  destruct (missingStoryData parsed) as [[]|e] eqn:Hmiss;
    try (unfold parseAndValidate_try; rewrite Hparse; simpl; rewrite Hmiss; discriminate).
  destruct (missingStoryData_false _ Hmiss) as (props & ps & qs & -> & Hps & Hqs).
  rewrite (parseAndValidate_try_arrays _ _ _ props ps qs Hparse Hps Hqs).
  destruct (length ps =? 0)%nat eqn:E1; [discriminate|].
  destruct (length qs =? 0)%nat eqn:E2; [discriminate|].
  apply Nat.eqb_neq in E1, E2. simpl.
  intros Hr. exists props, ps, qs. repeat split; try done; try lia.
  destruct (length ps =? length qs)%nat; simpl in Hr; by injection Hr as <-.
Qed.

(** A returned value is an object whose two lists have the same, non-zero,
    length; reading a property of it does not throw. *)
Lemma parseAndValidate_ok_fields trim JSON_parse responseText r :
  parseAndValidateStoryResponse trim JSON_parse responseText = Ok r →
  ∃ props paragraphs prompts,
    r = JObject props
    ∧ lookupProp props "storyParagraphs" = JArray paragraphs
    ∧ lookupProp props "imagePrompts" = JArray prompts
    ∧ length paragraphs = length prompts
    ∧ 0 < length prompts.
Proof.
  intros Hr.
  destruct (parseAndValidate_ok_inv _ _ _ _ Hr) as (props & ps & qs & _ & Hps & Hqs & Hp & Hq & ->).
  destruct (length ps =? length qs)%nat eqn:E.
  - apply Nat.eqb_eq in E. exists props, ps, qs. repeat split; try done.
  - simpl. eexists _, (take (length ps `min` length qs) ps),
      (take (length ps `min` length qs) qs).
    split; [done|].
    rewrite lookupProp_assignProp_eq.
    rewrite lookupProp_assignProp_ne, lookupProp_assignProp_eq by done.
    rewrite !length_take. repeat split; lia.
Qed.

(** An answer without text is rejected by the [catch] block. *)
Lemma parseAndValidateResponseText_ok trim JSON_parse text r :
  parseAndValidateResponseText trim JSON_parse text = Ok r →
  ∃ responseText,
    text = Some responseText
    ∧ parseAndValidateStoryResponse trim JSON_parse responseText = Ok r.
Proof.
  destruct text as [responseText|]; [by exists responseText|].
  intros Hr. by vm_compute in Hr.
Qed.

Lemma parseAndValidateResponseText_ok_fields trim JSON_parse text r :
  parseAndValidateResponseText trim JSON_parse text = Ok r →
  ∃ props paragraphs prompts,
    r = JObject props
    ∧ lookupProp props "storyParagraphs" = JArray paragraphs
    ∧ lookupProp props "imagePrompts" = JArray prompts
    ∧ length paragraphs = length prompts
    ∧ 0 < length prompts.
Proof.
  intros Hr. apply parseAndValidateResponseText_ok in Hr as (responseText & _ & Hr).
  by eapply parseAndValidate_ok_fields.
Qed.

(** X1: every failure of [parseAndValidateStoryResponse] is an [Error]
    whose message is the unparsable-response message, the
    unknown-processing message, or begins with one of the two prefixes the
    [catch] block lets through: no SyntaxError of [JSON.parse], TypeError
    or thrown non-error value reaches the caller as it is. *)
Theorem validation_failure_messages trim JSON_parse responseText e :
  parseAndValidateStoryResponse trim JSON_parse responseText = Throw e →
  ∃ message,
    e = ErrorObj message
    ∧ (String.prefix "AI response was malformed" message = true
       ∨ String.prefix "AI generated an empty story" message = true
       ∨ message = UnparsableResponse
       ∨ message = UnknownProcessingError).
Proof.
  unfold parseAndValidateStoryResponse.
  destruct (parseAndValidate_try trim JSON_parse responseText) as [parsed|e0]; [done|].
  destruct e0 as [message|]; simpl.
  - destruct (String.prefix "AI response was malformed" message) eqn:E1; simpl.
    + intros [= <-]. eauto.
    + destruct (String.prefix "AI generated an empty story" message) eqn:E2.
      * intros [= <-]. eauto.
      * intros [= <-]. eauto 6.
  - intros [= <-]. eauto 6.
Qed.

(** X2: validation changes nothing but the two lists: every other
    property of the returned object, [storyTitle] among them, reads as in
    the parsed one, whether it is present or not; and when the two lists
    have the same length the parsed object is returned as it is. *)
Theorem validation_keeps_other_fields trim JSON_parse responseText parsed r :
  JSON_parse (trim responseText) = Ok parsed →
  parseAndValidateStoryResponse trim JSON_parse responseText = Ok r →
  (∀ key, key ≠ "storyParagraphs" → key ≠ "imagePrompts" →
          getProp r key = getProp parsed key)
  ∧ (∀ ps qs,
       getProp parsed "storyParagraphs" = Ok (JArray ps) →
       getProp parsed "imagePrompts" = Ok (JArray qs) →
       length ps = length qs → r = parsed).
Proof.
  intros Hparse Hr.
  destruct (parseAndValidate_ok_inv _ _ _ _ Hr)
    as (props & ps & qs & Hparse' & Hps & Hqs & _ & _ & ->).
  rewrite Hparse in Hparse'. injection Hparse' as ->. split.
  - intros key Hk1 Hk2. destruct (length ps =? length qs)%nat; [done|].
    simpl. by rewrite !lookupProp_assignProp_ne.
  - intros ps' qs' Hps' Hqs' Hlen. simpl in Hps', Hqs'.
    rewrite Hps in Hps'. rewrite Hqs in Hqs'.
    injection Hps' as ->. injection Hqs' as ->.
    apply Nat.eqb_eq in Hlen. by rewrite Hlen.
Qed.

(** X3: validation is idempotent: a value it returned passes it again
    unchanged, whatever text it is parsed from. *)
Theorem validation_idempotent trim JSON_parse responseText r trim' JSON_parse' responseText' :
  parseAndValidateStoryResponse trim JSON_parse responseText = Ok r →
  JSON_parse' (trim' responseText') = Ok r →
  parseAndValidateStoryResponse trim' JSON_parse' responseText' = Ok r.
Proof.
  intros Hr Hparse.
  destruct (parseAndValidate_ok_fields _ _ _ _ Hr)
    as (props & ps & qs & -> & Hps & Hqs & Hlen & Hpos).
  unfold parseAndValidateStoryResponse.
  rewrite (parseAndValidate_try_arrays _ _ _ props ps qs Hparse Hps Hqs).
  destruct (length ps =? 0)%nat eqn:E1; [apply Nat.eqb_eq in E1; lia|].
  destruct (length qs =? 0)%nat eqn:E2; [apply Nat.eqb_eq in E2; lia|].
  apply Nat.eqb_eq in Hlen. by rewrite Hlen.
Qed.

(** ** The image of a response *)

Lemma firstInlineData_None ps :
  firstInlineData ps = None ↔ Forall (λ p, p = None) ps.
Proof.
  induction ps as [|[d|] rest IH]; simpl.
  - split; [constructor|done].
  - split; [done|]. intros H. by apply Forall_cons in H as [? _].
  - rewrite IH. split.
    + by constructor.
    + intros H. by apply Forall_cons in H as [_ ?].
Qed.

Lemma firstInlineData_first ps k d :
  ps !! k = Some (Some d) →
  (∀ j, j < k → ps !! j = Some None) →
  firstInlineData ps = Some (dataUrlOf d).
Proof.
  revert k. induction ps as [|p rest IH]; intros k Hk Hbefore; [done|].
  destruct k as [|k].
  - simpl in Hk. by injection Hk as ->.
  - pose proof (Hbefore 0 ltac:(lia)) as H0. simpl in H0. injection H0 as ->.
    simpl. apply (IH k); [done|].
    intros j Hj. apply (Hbefore (S j)). lia.
Qed.

Lemma generateImage_run {S} ai_generateContent prompt character1Part character2Part
    aspectRatio log (s : S) :
  generateImage ai_generateContent prompt character1Part character2Part aspectRatio (log, s) =
    (match ai_generateContent (length log)
             (ImageRequest prompt character1Part character2Part aspectRatio) with
     | Ok response =>
         match firstInlineData (parts response) with
         | Some image => Ok image
         | None => Throw (ErrorObj NoImageReturned)
         end
     | Throw e => Throw e
     end,
     (log ++ [ImageRequest prompt character1Part character2Part aspectRatio], s)).
Proof.
  unfold generateImage, generateContent, mbind, M_bind. simpl.
  destruct (ai_generateContent _ _) as [response|e]; [|done].
  by destruct (firstInlineData (parts response)).
Qed.


(** ** Data URLs *)

Lemma untilChar_free sep s :
  noneOf [sep] s = true → untilChar sep s = s.
Proof.
  induction s as [|c rest IH]; simpl; [done|].
  rewrite orb_false_r. destruct (Ascii.eqb c sep); simpl; [done|].
  intros H. by rewrite IH.
Qed.

Lemma secondSegment_app_free sep s1 s2 :
  noneOf [sep] s1 = true → secondSegment sep (s1 +:+ s2) = secondSegment sep s2.
Proof.
  induction s1 as [|c rest IH]; simpl; [done|].
  rewrite orb_false_r. destruct (Ascii.eqb c sep); simpl; [done|].
  apply IH.
Qed.

Lemma noneOf_weaken bad bad' s :
  (∀ c, In c bad' → In c bad) → noneOf bad s = true → noneOf bad' s = true.
Proof.
  intros Hincl. induction s as [|c rest IH]; simpl; [done|].
  intros [Hc Hrest]%andb_true_iff. rewrite IH by done. rewrite andb_true_r.
  apply negb_true_iff. apply negb_true_iff in Hc.
  destruct (existsb (Ascii.eqb c) bad') eqn:E; [|done].
  apply existsb_exists in E as (x & Hx & Hcx).
  rewrite <- Hc. symmetry. apply existsb_exists. exists x. auto.
Qed.

Ltac noneOf_weaker H := eapply noneOf_weaken; [|exact H]; simpl; tauto.

Lemma noneOf_app bad s1 s2 :
  noneOf bad (s1 +:+ s2) = noneOf bad s1 && noneOf bad s2.
Proof.
  induction s1 as [|c rest IH]; simpl; [done|].
  by rewrite IH, andb_assoc.
Qed.

Lemma restOfLine_free s :
  noneOf ["010"; "013"; "226"]%char s = true → restOfLine s = s.
Proof.
  induction s as [|c rest IH]; [done|].
  intros H. simpl in H. apply andb_true_iff in H as [Hc Hrest].
  apply negb_true_iff in Hc. rewrite orb_false_r in Hc.
  apply orb_false_iff in Hc as [H1 Hc]. apply orb_false_iff in Hc as [H2 H3].
  simpl. rewrite H1, H2, H3. simpl. by rewrite IH.
Qed.

Lemma beforeLastSemicolon_free s :
  noneOf [";"]%char s = true → beforeLastSemicolon s = None.
Proof.
  induction s as [|c rest IH]; simpl; [done|].
  rewrite orb_false_r. intros [Hc Hrest]%andb_true_iff.
  rewrite IH by done. apply negb_true_iff in Hc. by rewrite Hc.
Qed.

Lemma beforeLastSemicolon_last s1 s2 :
  noneOf [";"]%char s2 = true →
  beforeLastSemicolon (s1 +:+ String ";" s2) = Some s1.
Proof.
  intros H2. induction s1 as [|c rest IH]; simpl.
  - by rewrite beforeLastSemicolon_free.
  - by rewrite IH.
Qed.

Lemma matchDataMime_dataUrlOf d :
  noneOf ["010"; "013"; "226"]%char (mimeType d) = true →
  noneOf [";"; "010"; "013"; "226"]%char (data d) = true →
  matchDataMime (dataUrlOf d) = Some (mimeType d).
Proof.
  intros Hm Hd. unfold dataUrlOf.
  change ("data:" +:+ mimeType d +:+ ";base64," +:+ data d)
    with (String "d" (String "a" (String "t" (String "a" (String ":"
            (mimeType d +:+ String ";" ("base64," +:+ data d))))))).
  assert (noneOf [";"]%char (data d) = true) as Hsemi by noneOf_weaker Hd.
  assert (noneOf ["010"; "013"; "226"]%char (data d) = true) as Hline by noneOf_weaker Hd.
  cbn [matchDataMime afterDataPrefix mbind option_bind].
  rewrite restOfLine_free.
  - by rewrite beforeLastSemicolon_last.
  - by rewrite noneOf_app, Hm.
Qed.

Lemma secondSegment_dataUrlOf d :
  noneOf [","]%char (mimeType d) = true →
  noneOf [","]%char (data d) = true →
  secondSegment "," (dataUrlOf d) = Some (data d).
Proof.
  intros Hm Hd. unfold dataUrlOf.
  change ("data:" +:+ mimeType d +:+ ";base64," +:+ data d)
    with ("data:" +:+ (mimeType d +:+ (";base64," +:+ data d))).
  rewrite secondSegment_app_free by done.
  rewrite secondSegment_app_free by done.
  simpl. by rewrite untilChar_free.
Qed.

(** X5: the data URL that [generateImage] or [editImage] returns for a
    part decodes, in [generateVideoPrompt] and [editImage], to the payload
    and the MIME type of that part, provided neither contains a comma or a
    line terminator and the payload contains no semicolon, as is the case
    of base64 text and of MIME types. A part whose MIME type is empty is
    sent on as [image/png]. *)
Theorem imagePart_round_trip d :
  noneOf [","; "010"; "013"; "226"]%char (mimeType d) = true →
  noneOf [","; ";"; "010"; "013"; "226"]%char (data d) = true →
  imagePart (dataUrlOf d) =
    {| part_data := Some (data d);
       part_mimeType := if String.eqb (mimeType d) "" then "image/png" else mimeType d |}.
Proof.
  intros Hm Hd. unfold imagePart.
  rewrite matchDataMime_dataUrlOf, secondSegment_dataUrlOf; first done.
  all: first [noneOf_weaker Hm | noneOf_weaker Hd].
Qed.

(** X6: the single-image download of an image that the client returned
    offers the data URL itself, under the given base name with the subtype
    of the part's MIME type as extension, or [png] when the MIME type has
    no subtype. *)
Theorem download_name_of_generated_image d baseFileName :
  noneOf ["010"; "013"; "226"]%char (mimeType d) = true →
  noneOf [";"; "010"; "013"; "226"]%char (data d) = true →
  handleDownloadSingle (ImageReady (dataUrlOf d)) baseFileName =
    Some (dataUrlOf d,
          baseFileName +:+ "." +:+ orElse (secondSegment "/" (mimeType d)) "png").
Proof.
  intros Hm Hd. unfold handleDownloadSingle.
  by rewrite matchDataMime_dataUrlOf.
Qed.

(** ** The pipelines: requests, callbacks and the caller's state *)

Section ImageLoop.
Context {S : Type}.
Variable ai_generateContent : nat -> Request -> Result Response.
Variable updateProgress : nat -> option (nat * nat) -> S -> S.
Variable onImageGenerated : option string -> nat -> S -> S.
Variable character1Part : InlineData.
Variable character2Part : option InlineData.
Variable aspectRatio : string.

Local Abbreviation retry prompt :=
  (imageWithRetry (S:=S) ai_generateContent prompt character1Part character2Part aspectRatio).
Local Abbreviation loop total :=
  (imageLoop ai_generateContent updateProgress onImageGenerated
     character1Part character2Part aspectRatio total).
Local Abbreviation imageRequest prompt :=
  (ImageRequest prompt character1Part character2Part aspectRatio).

(** The [try] statement of one iteration issues one request or two and
    leaves the caller's state alone. *)
Lemma imageWithRetry_run prompt failedImageCount st :
  ∃ (image : option string) n,
    retry prompt failedImageCount st =
      (Ok (image, match image with
                  | Some _ => failedImageCount
                  | None => Datatypes.S failedImageCount
                  end),
       (st.1 ++ replicate n (imageRequest prompt), st.2))
    ∧ (n = 1 ∨ n = 2).
Proof.
  destruct st as [log s]. rewrite imageWithRetry_unfold.
  rewrite (generateImage_run _ _ _ _ _ log s). cbn [fst snd].
  rewrite (generateImage_run _ _ _ _ _ (log ++ [imageRequest prompt]) s). cbn [fst snd].
  destruct (ai_generateContent (length log) _) as [response|e].
  - destruct (firstInlineData (parts response)) as [image|].
    + exists (Some image), 1. auto.
    + destruct (match ai_generateContent _ _ with Ok _ => _ | Throw _ => _ end) as [image|e'].
      * exists (Some image), 2. rewrite <- app_assoc. auto.
      * exists None, 2. rewrite <- app_assoc. auto.
  - destruct (match ai_generateContent _ _ with Ok _ => _ | Throw _ => _ end) as [image|e'].
    + exists (Some image), 2. rewrite <- app_assoc. auto.
    + exists None, 2. rewrite <- app_assoc. auto.
Qed.

(** The loop keeps what its two callbacks keep. *)
Lemma imageLoop_preserves (P : S → Prop) total prompts i failedImageCount st :
  (∀ image index s, P s → P (onImageGenerated image index s)) →
  (∀ step progress s, P s → P (updateProgress step progress s)) →
  P st.2 → P (loop total prompts i failedImageCount st).2.2.
Proof.
  intros Himage Hprogress.
  revert i failedImageCount st.
  induction prompts as [|prompt rest IH]; intros i failedImageCount st HP; [done|].
  rewrite imageLoop_cons.
  destruct (imageWithRetry_run prompt failedImageCount st) as (image & n & -> & _).
  apply IH. cbn [fst snd]. auto.
Qed.

(** The requests of the loop: for each prompt in turn, one request or
    two. *)
Lemma imageLoop_log total prompts i failedImageCount st :
  ∃ counts,
    (loop total prompts i failedImageCount st).2.1 =
      st.1 ++ concat (zip_with (λ prompt n, replicate n (imageRequest prompt)) prompts counts)
    ∧ length counts = length prompts
    ∧ Forall (λ n, n = 1 ∨ n = 2) counts.
Proof.
  revert i failedImageCount st.
  induction prompts as [|prompt rest IH]; intros i failedImageCount st.
  - exists []. simpl. by rewrite app_nil_r.
  - rewrite imageLoop_cons.
    destruct (imageWithRetry_run prompt failedImageCount st) as (image & n & -> & Hn).
    edestruct IH as (counts & -> & Hlen & Hcounts).
    exists (n :: counts). cbn [fst snd]. simpl. rewrite <- app_assoc.
    repeat split; [by rewrite Hlen|by constructor].
Qed.

End ImageLoop.

Section Pipelines.
Context {S : Type}.
Variable trim : string -> string.
Variable JSON_parse : string -> Result JSValue.
Variable ai_generateContent : nat -> Request -> Result Response.
Variable updateProgress : nat -> option (nat * nat) -> S -> S.
Variable onImageGenerated : option string -> nat -> S -> S.
Variable sceneStore : S -> Store.
Variable isHole : nat -> bool.
Variable character1File : File.
Variable character2File : option File.
Variable language aspectRatio artStyle : string.
Variable sceneCount : nat.
Variable mode : StoryMode.

Local Abbreviation character1Part := (fileToGenerativePart character1File).
Local Abbreviation character2Part := (fileToGenerativePart <$> character2File).
Local Abbreviation retry prompt :=
  (imageWithRetry (S:=S) ai_generateContent prompt character1Part character2Part aspectRatio).
Local Abbreviation loop total :=
  (imageLoop ai_generateContent updateProgress onImageGenerated
     character1Part character2Part aspectRatio total).
Local Abbreviation imageRequest prompt :=
  (ImageRequest prompt character1Part character2Part aspectRatio).
Local Abbreviation storyRequest :=
  (StoryRequest character1Part character2Part language artStyle sceneCount mode).
Local Abbreviation newStory :=
  (generateStoryAndImages trim JSON_parse ai_generateContent updateProgress onImageGenerated
     character1File character2File language aspectRatio artStyle sceneCount mode).
Local Abbreviation continuation existingStory :=
  (continueStoryAndImages trim JSON_parse ai_generateContent updateProgress onImageGenerated
     sceneStore isHole existingStory character1File character2File language aspectRatio
     artStyle sceneCount mode).

(** The story stage of the new-story pipeline: one request, whose
    response is validated. *)
Lemma generateStoryAndPrompts_run log (s : S) :
  generateStoryAndPrompts trim JSON_parse ai_generateContent character1Part character2Part
    language artStyle sceneCount mode (log, s) =
    (ai_generateContent (length log) storyRequest
       ≫= (λ response, parseAndValidateResponseText trim JSON_parse (text response)),
     (log ++ [storyRequest], s)).
Proof.
  unfold generateStoryAndPrompts, generateContent, lift, mbind at 1, M_bind. simpl.
  by destruct (ai_generateContent _ _).
Qed.

(** The new-story pipeline, by the outcome of its story stage. *)
Lemma generateStoryAndImages_stages onStoryGenerated log s :
  newStory onStoryGenerated (log, s) =
    match ai_generateContent (length log) storyRequest
            ≫= (λ response, parseAndValidateResponseText trim JSON_parse (text response)) with
    | Throw e => (Throw e, (log ++ [storyRequest], updateProgress 1 None s))
    | Ok parsed =>
        let storyTitle := default JUndefined (match getProp parsed "storyTitle" with Ok v => Some v | Throw _ => None end) in
        let paragraphs := arrayItems (default JUndefined (match getProp parsed "storyParagraphs" with Ok v => Some v | Throw _ => None end)) in
        let prompts := arrayItems (default JUndefined (match getProp parsed "imagePrompts" with Ok v => Some v | Throw _ => None end)) in
        (failedImageCount ← loop (length prompts) prompts 0 0;
         if (0 <? failedImageCount)%nat && (failedImageCount =? length prompts)%nat
         then throw (ErrorObj AllImagesFailed)
         else notify (updateProgress 4 None))
          (log ++ [storyRequest],
           updateProgress 3 (Some (0, length prompts))
             (updateProgress 2 None
                (onStoryGenerated storyTitle paragraphs prompts (updateProgress 1 None s))))
    end.
Proof.
  unfold generateStoryAndImages.
  rewrite bind_notify. cbn [fst snd].
  destruct (ai_generateContent (length log) storyRequest
              ≫= (λ response, parseAndValidateResponseText trim JSON_parse (text response)))
    as [parsed|e] eqn:Hstage.
  - erewrite bind_ok; [|by rewrite generateStoryAndPrompts_run, Hstage].
    destruct (ai_generateContent (length log) storyRequest) as [response|]; [|done].
    simpl in Hstage.
    destruct (parseAndValidateResponseText_ok_fields _ _ _ _ Hstage)
      as (props & ps & qs & -> & Hps & Hqs & _ & _).
    simpl. rewrite !bind_lift_ok. rewrite !bind_notify. cbn [fst snd]. done.
  - erewrite bind_throw; [done|]. by rewrite generateStoryAndPrompts_run, Hstage.
Qed.

(** The story stage of the continuation pipeline. *)
Lemma continueStoryAndPrompts_run existingParagraphs log (s : S) :
  continueStoryAndPrompts trim JSON_parse ai_generateContent existingParagraphs
    character1Part character2Part language artStyle sceneCount mode (log, s) =
    (parsed ← (ai_generateContent (length log)
                 (ContinueRequest existingParagraphs character1Part character2Part
                    language artStyle sceneCount mode)
                 ≫= (λ response,
                       parseAndValidateResponseText trim JSON_parse (text response)));
     storyParagraphs ← getProp parsed "storyParagraphs";
     imagePrompts ← getProp parsed "imagePrompts";
     Ok (storyParagraphs, imagePrompts),
     (log ++ [ContinueRequest existingParagraphs character1Part character2Part
                language artStyle sceneCount mode], s)).
Proof.
  unfold continueStoryAndPrompts, generateContent, lift, mbind at 1 2 3 4, M_bind. simpl.
  destruct (ai_generateContent _ _) as [response|]; [|done]. simpl.
  destruct (parseAndValidateResponseText _ _ _) as [parsed|]; [|done]. simpl.
  destruct (getProp parsed "storyParagraphs"); [|done]. simpl.
  by destruct (getProp parsed "imagePrompts").
Qed.

(** The continuation pipeline, by the outcome of its story stage. *)
Lemma continueStoryAndImages_stages existingStory onNewStoryPartsGenerated log s :
  continuation existingStory onNewStoryPartsGenerated (log, s) =
    let s1 := updateProgress 1 None s in
    match paragraphsOf isHole (sceneStore s1) (scenes existingStory) 0 with
    | Throw e => (Throw e, (log, s1))
    | Ok existingParagraphs =>
        let request :=
          ContinueRequest existingParagraphs character1Part character2Part
            language artStyle sceneCount mode in
        match ai_generateContent (length log) request
                ≫= (λ response,
                      parseAndValidateResponseText trim JSON_parse (text response)) with
        | Throw e => (Throw e, (log ++ [request], s1))
        | Ok parsed =>
            let paragraphs := arrayItems (default JUndefined (match getProp parsed "storyParagraphs" with Ok v => Some v | Throw _ => None end)) in
            let prompts := arrayItems (default JUndefined (match getProp parsed "imagePrompts" with Ok v => Some v | Throw _ => None end)) in
            (failedImageCount ← loop (length prompts) prompts 0 0;
             if (0 <? failedImageCount)%nat && (failedImageCount =? length prompts)%nat
             then throw (ErrorObj AllNewImagesFailed)
             else notify (updateProgress 4 None))
              (log ++ [request],
               updateProgress 3 (Some (0, length prompts))
                 (updateProgress 2 None
                    (onNewStoryPartsGenerated paragraphs prompts s1)))
        end
    end.
Proof.
  unfold continueStoryAndImages.
  rewrite bind_notify, bind_getState. cbn [fst snd].
  destruct (paragraphsOf _ _ _ _) as [existingParagraphs|e]; [|done].
  rewrite bind_lift_ok. cbn zeta.
  destruct (ai_generateContent (length log) _ ≫= _) as [parsed|e] eqn:Hstage.
  - destruct (ai_generateContent (length log) _) as [response|] eqn:Hai; [|done].
    simpl in Hstage.
    destruct (parseAndValidateResponseText_ok_fields _ _ _ _ Hstage)
      as (props & ps & qs & -> & Hps & Hqs & _ & _).
    erewrite bind_ok;
      [|rewrite continueStoryAndPrompts_run, Hai; simpl; rewrite Hstage; simpl; done].
    simpl. rewrite !bind_notify. cbn [fst snd]. done.
  - erewrite bind_throw; [done|].
    rewrite continueStoryAndPrompts_run. by rewrite Hstage.
Qed.

(** The illustration stage and the final check keep what the two
    callbacks keep. *)
Lemma illustration_preserves (P : S → Prop) total prompts message st :
  (∀ image index s, P s → P (onImageGenerated image index s)) →
  (∀ step progress s, P s → P (updateProgress step progress s)) →
  P st.2 →
  P ((failedImageCount ← loop total prompts 0 0;
      if (0 <? failedImageCount)%nat && (failedImageCount =? length prompts)%nat
      then throw (ErrorObj message)
      else notify (updateProgress 4 None)) st).2.2.
Proof.
  intros Himage Hprogress HP.
  pose proof (imageLoop_preserves ai_generateContent updateProgress onImageGenerated
                character1Part character2Part aspectRatio P total prompts 0 0 st
                Himage Hprogress HP) as Hloop.
  destruct (imageLoop_returns ai_generateContent updateProgress onImageGenerated
              character1Part character2Part aspectRatio total prompts 0 0 st)
    as (failed & st' & Hrun & _).
  rewrite Hrun in Hloop. cbn [fst snd] in Hloop. erewrite bind_ok by exact Hrun.
  destruct (_ && _); unfold throw, notify; cbn [fst snd]; auto.
Qed.

Lemma generateStoryAndImages_preserves (P : S → Prop) onStoryGenerated st :
  (∀ image index s, P s → P (onImageGenerated image index s)) →
  (∀ step progress s, P s → P (updateProgress step progress s)) →
  (∀ title paragraphs prompts s, P s → P (onStoryGenerated title paragraphs prompts s)) →
  P st.2 → P (newStory onStoryGenerated st).2.2.
Proof.
  intros Himage Hprogress Hstory HP. destruct st as [log s].
  rewrite generateStoryAndImages_stages.
  destruct (ai_generateContent _ _ ≫= _) as [parsed|e]; [|cbn [fst snd]; auto].
  cbn zeta. apply illustration_preserves; auto.
  cbn [fst snd]. auto.
Qed.

Lemma continueStoryAndImages_preserves (P : S → Prop) existingStory
    onNewStoryPartsGenerated st :
  (∀ image index s, P s → P (onImageGenerated image index s)) →
  (∀ step progress s, P s → P (updateProgress step progress s)) →
  (∀ paragraphs prompts s, P s → P (onNewStoryPartsGenerated paragraphs prompts s)) →
  P st.2 → P (continuation existingStory onNewStoryPartsGenerated st).2.2.
Proof.
  intros Himage Hprogress Hstory HP. destruct st as [log s].
  rewrite continueStoryAndImages_stages. cbn zeta.
  destruct (paragraphsOf _ _ _ _) as [existingParagraphs|e]; [|cbn [fst snd]; auto].
  destruct (ai_generateContent _ _ ≫= _) as [parsed|e]; [|cbn [fst snd]; auto].
  apply illustration_preserves; auto.
  cbn [fst snd]. auto.
Qed.


(** [scenes.map(s => s.paragraph)] throws nothing but the TypeError of
    reading [paragraph] of [undefined]. *)
Lemma paragraphsOf_throw h slots i e :
  paragraphsOf isHole h slots i = Throw e → e = TypeError_read "undefined" "paragraph".
Proof.
  revert i e. induction slots as [|slot rest IH]; intros i e; simpl; [done|].
  destruct slot as [l|].
  - destruct (h !! l); [|by intros [= <-]].
    destruct (paragraphsOf isHole h rest (Datatypes.S i)) eqn:E; [done|].
    simpl. intros [= <-]. by eapply IH.
  - destruct (isHole i); [|by intros [= <-]].
    destruct (paragraphsOf isHole h rest (Datatypes.S i)) eqn:E; [done|].
    simpl. intros [= <-]. by eapply IH.
Qed.

(** It throws when some slot is an element with the value [undefined]. *)
Lemma paragraphsOf_undefined h slots i n :
  slots !! n = Some None → isHole (i + n) = false →
  paragraphsOf isHole h slots i = Throw (TypeError_read "undefined" "paragraph").
Proof.
  revert i n. induction slots as [|slot rest IH]; intros i n Hn Hhole; [done|].
  destruct n as [|n]; simpl in Hn.
  - injection Hn as ->. simpl. rewrite Nat.add_0_r in Hhole. by rewrite Hhole.
  - rewrite <- Nat.add_succ_comm in Hhole.
    pose proof (IH (Datatypes.S i) n Hn Hhole) as Hrest.
    simpl. destruct slot as [l|]; [destruct (h !! l)|destruct (isHole i)];
      by rewrite ?Hrest.
Qed.

(** When every slot holds a scene or is a hole, it returns the paragraphs
    in order, with a hole for a hole. *)
Lemma paragraphsOf_returns h slots i :
  (∀ n slot, slots !! n = Some slot →
     match slot with
     | Some l => is_Some (h !! l)
     | None => isHole (i + n) = true
     end) →
  paragraphsOf isHole h slots i
  = Ok ((λ slot : option loc, paragraph <$> (slot ≫= (h !!.))) <$> slots).
Proof.
  revert i. induction slots as [|slot rest IH]; intros i Hslots; [done|].
  assert (paragraphsOf isHole h rest (Datatypes.S i)
          = Ok ((λ slot : option loc, paragraph <$> (slot ≫= (h !!.))) <$> rest)) as Hrest.
  { apply IH. intros n slot' Hn. rewrite Nat.add_succ_comm. by apply (Hslots (Datatypes.S n)). }
  pose proof (Hslots 0 slot eq_refl) as H0. rewrite Nat.add_0_r in H0.
  simpl. destruct slot as [l|].
  - destruct H0 as [scene Hl]. rewrite Hl, Hrest. simpl. by rewrite Hl.
  - rewrite H0, Hrest. by simpl.
Qed.


End Pipelines.

(** ** The order of the callbacks *)

Lemma imageLoop_calls ai_generateContent character1Part character2Part aspectRatio total
    prompts i failedImageCount log calls :
  ∃ images failed log',
    imageLoop ai_generateContent recordProgress recordImage
      character1Part character2Part aspectRatio total prompts i failedImageCount (log, calls)
      = (Ok failed,
         (log',
          calls ++ concat (imap (λ k image,
                                   [ImageCall image (i + k);
                                    ProgressCall 3 (Some (Datatypes.S (i + k), total))])
                             images)))
    ∧ length images = length prompts
    ∧ failedImageCount ≤ failed ≤ failedImageCount + length images
    ∧ (failed = failedImageCount + length images ↔ Forall (λ image, image = None) images).
Proof.
  revert i failedImageCount log calls.
  induction prompts as [|prompt rest IH]; intros i failedImageCount log calls.
  - exists [], failedImageCount, log. simpl. rewrite app_nil_r.
    repeat split; try done; try lia.
  - rewrite imageLoop_cons.
    destruct (imageWithRetry_run ai_generateContent character1Part character2Part
                aspectRatio prompt failedImageCount (log, calls)) as (image & n & -> & _).
    cbn [fst snd].
    edestruct (IH (Datatypes.S i)) as (images & failed & log' & -> & Hlen & Hle & Hall).
    exists (image :: images), failed, log'.
    split; [|split; [|split]].
    + f_equal. f_equal. unfold recordProgress, recordImage.
      rewrite <- !app_assoc. f_equal. simpl. rewrite Nat.add_0_r. f_equal. f_equal.
      f_equal. apply imap_ext. intros k image' _. simpl.
      by rewrite Nat.add_succ_r.
    + simpl. by rewrite Hlen.
    + destruct image; simpl in *; lia.
    + simpl. rewrite Forall_cons. destruct image as [dataUrl|]; simpl in *.
      * split; [lia|]. by intros [? _].
      * rewrite <- Hall. split; [intros; split; [done|lia]|intros [_ ?]; lia].
Qed.

Section CallbackOrder.
Variable trim : string -> string.
Variable JSON_parse : string -> Result JSValue.
Variable ai_generateContent : nat -> Request -> Result Response.
Variable character1File : File.
Variable character2File : option File.
Variable language aspectRatio artStyle : string.
Variable sceneCount : nat.
Variable mode : StoryMode.

End CallbackOrder.

(** ** [handleGenerate]: the placeholders *)

Lemma lookup_placeholders t storyVersions mode now i :
  i < storyVersions →
  placeholders t storyVersions mode now !! i = Some (placeholderOf t storyVersions mode now i).
Proof.
  intros Hi. unfold placeholders. rewrite list_lookup_fmap, lookup_seq_lt by done. done.
Qed.

Lemma length_placeholders t storyVersions mode now :
  length (placeholders t storyVersions mode now) = storyVersions.
Proof. unfold placeholders. by rewrite length_fmap, length_seq. Qed.

Lemma sceneRefs_placeholders t storyVersions mode now :
  placeholders t storyVersions mode now ≫= sceneRefs = [].
Proof.
  unfold placeholders. induction (seq 0 storyVersions) as [|i rest IH]; [done|].
  rewrite fmap_cons, bind_cons, IH. done.
Qed.

(** X11: with a character image and a scene count from 2 to 100,
    [handleGenerate] appends one placeholder per requested version to the
    collection, keeps the stories and the scene objects that were there, and
    makes the first placeholder the active story. Each placeholder is loading
    and has no scene. If the clock does not go backwards while the
    placeholders are made, and every story of the collection has an id below
    the clock's first reading, then each id the handler hands to a task is
    the id of exactly one story of the collection: the placeholder of that
    task. *)
Theorem handleGenerate_start_placeholders t character1File n storyVersions mode now g :
  (2 ≤ n ≤ 100)%Z →
  (∀ i j, i ≤ j → j < storyVersions → (now i ≤ now j)%Z) →
  (∀ story, story ∈ storyHistory (session g) → (id story < now 0%nat)%Z) →
  sessionWf (store (session g)) (storyHistory (session g)) →
  let previous := storyHistory (session g) in
  ∃ g' ids,
    handleGenerate_start t (Some character1File) (Some n) storyVersions mode now g
      = (g', Some ids)
    ∧ length ids = storyVersions
    ∧ length (storyHistory (session g')) = length previous + storyVersions
    ∧ take (length previous) (storyHistory (session g')) = previous
    ∧ store (session g') = store (session g)
    ∧ sessionWf (store (session g')) (storyHistory (session g'))
    ∧ (0 < storyVersions → activeStoryIndex (session g') = Some (length previous))
    ∧ ∀ i storyId,
        ids !! i = Some storyId →
        ∃ story,
          storyHistory (session g') !! (length previous + i) = Some story
          ∧ id story = storyId ∧ scenes story = [] ∧ isLoading story = Some true
          ∧ storyMode story = mode
          ∧ ∀ k other,
              storyHistory (session g') !! k = Some other →
              id other = storyId → k = length previous + i.
Proof.
  intros Hn Hclock Holder Hwf previous.
  unfold handleGenerate_start.
  assert ((n <? 2)%Z || (100 <? n)%Z = false) as ->.
  { apply orb_false_iff. split; apply Z.ltb_ge; lia. }
  eexists _, _. split; [done|]. cbn [session].
  unfold appendPlaceholders. cbn [storyHistory store activeStoryIndex setActiveStoryIndex
    set_session setIllustrationProgress setGenerationStep setError].
  fold previous.
  split; [by unfold storyIds; rewrite length_fmap, length_seq|].
  split; [by rewrite length_app, length_placeholders|].
  split; [by rewrite take_app_length|].
  split; [done|].
  split.
  { destruct Hwf as [Hnodup Hvalid]. unfold sessionWf.
    rewrite bind_app, sceneRefs_placeholders, app_nil_r. done. }
  split; [done|].
  intros i storyId Hi. unfold storyIds in Hi.
  assert (i < storyVersions) as Hlt.
  { apply lookup_lt_Some in Hi. by rewrite length_fmap, length_seq in Hi. }
  rewrite list_lookup_fmap, lookup_seq_lt in Hi by done.
  injection Hi as <-. simpl.
  exists (placeholderOf t storyVersions mode now i).
  split.
  { rewrite lookup_app_r by lia.
    replace (length previous + i - length previous) with i by lia.
    by apply lookup_placeholders. }
  do 4 (split; [done|]).
  intros k other Hk Hid.
  destruct (decide (k < length previous)) as [Hold|Hnew].
  - rewrite lookup_app_l in Hk by done.
    apply list_elem_of_lookup_2 in Hk. apply Holder in Hk.
    pose proof (Hclock 0 i ltac:(lia) Hlt). unfold storyIdOf in Hid. lia.
  - rewrite lookup_app_r in Hk by lia.
    assert (k - length previous < storyVersions) as Hj.
    { apply lookup_lt_Some in Hk. by rewrite length_placeholders in Hk. }
    rewrite lookup_placeholders in Hk by done. injection Hk as <-.
    simpl in Hid. unfold storyIdOf in Hid.
    destruct (decide (k - length previous = i)) as [|Hne]; [lia|].
    destruct (decide (k - length previous < i)).
    + pose proof (Hclock (k - length previous) i ltac:(lia) Hlt). lia.
    + pose proof (Hclock i (k - length previous) ltac:(lia) Hj). lia.
Qed.

(** ** The task of one version *)

Lemma error_setStoryHistory f s : error (setStoryHistory f s) = error s.
Proof. unfold setStoryHistory. by destruct (mapStories f 0 _ _) as [[history|e] h]. Qed.

(** A change by id, story by story: a story with another id is kept, a
    story with the id is changed in the store as it is when the updater
    reaches it, and objects are only added. *)
Lemma mapStories_withId_pointwise storyId g i prev h :
  (∀ story h0, ∃ story' news, g story h0 = (Ok story', h0 ++ news)) →
  ∃ history' h',
    mapStories (withId storyId g) i prev h = (Ok history', h')
    ∧ h `prefix_of` h'
    ∧ length history' = length prev
    ∧ ∀ k story,
        prev !! k = Some story →
        ∃ story',
          history' !! k = Some story'
          ∧ (id story ≠ storyId → story' = story)
          ∧ (id story = storyId →
             ∃ h0 news, h `prefix_of` h0 ∧ g story h0 = (Ok story', h0 ++ news)
                        ∧ (h0 ++ news) `prefix_of` h').
Proof.
  intros Hg. revert i h. induction prev as [|story rest IH]; intros i h.
  - exists [], h. repeat split; try done.
  - simpl. unfold withId at 1.
    destruct (id story =? storyId)%Z eqn:E; simpl.
    + apply Z.eqb_eq in E.
      destruct (Hg story h) as (story' & news & Hstory). rewrite Hstory.
      destruct (IH (S i) (h ++ news)) as (history' & h' & -> & Hpre & Hlen & Hpoint).
      exists (story' :: history'), h'.
      split; [done|]. split; [by etrans; [apply prefix_app_r|exact Hpre]|].
      split; [simpl; by rewrite Hlen|].
      intros [|k] story0 Hk; simpl in *.
      * injection Hk as <-. exists story'. split; [done|]. split; [done|].
        intros _. by exists h, news.
      * destruct (Hpoint k story0 Hk) as (story1 & Hk1 & Hne & Heq).
        exists story1. split; [done|]. split; [done|].
        intros Hid. destruct (Heq Hid) as (h0 & news0 & Hpre0 & Hg0 & Hpre1).
        exists h0, news0. split; [|done].
        by etrans; [apply prefix_app_r|exact Hpre0].
    + apply Z.eqb_neq in E.
      destruct (IH (S i) h) as (history' & h' & -> & Hpre & Hlen & Hpoint).
      exists (story :: history'), h'.
      split; [done|]. split; [done|]. split; [simpl; by rewrite Hlen|].
      intros [|k] story0 Hk; simpl in *.
      * injection Hk as <-. exists story. by repeat split.
      * by apply Hpoint.
Qed.

Lemma setStoryHistory_withId_pointwise storyId g s :
  (∀ story h0, ∃ story' news, g story h0 = (Ok story', h0 ++ news)) →
  let s' := setStoryHistory (withId storyId g) s in
  store s `prefix_of` store s'
  ∧ length (storyHistory s') = length (storyHistory s)
  ∧ renderError s' = renderError s
  ∧ ∀ k story,
      storyHistory s !! k = Some story →
      ∃ story',
        storyHistory s' !! k = Some story'
        ∧ (id story ≠ storyId → story' = story)
        ∧ (id story = storyId →
           ∃ h0 news, store s `prefix_of` h0 ∧ g story h0 = (Ok story', h0 ++ news)
                      ∧ (h0 ++ news) `prefix_of` store s').
Proof.
  intros Hg s'. subst s'. unfold setStoryHistory.
  destruct (mapStories_withId_pointwise storyId g 0 (storyHistory s) (store s) Hg)
    as (history' & h' & -> & Hpre & Hlen & Hpoint).
  by rewrite storyHistory_set_session, store_set_session.
Qed.

Lemma sceneAt_prefix h h' story n :
  storyWf h story → h `prefix_of` h' → sceneAt h' story n = sceneAt h story n.
Proof. intros Hwf [news ->]. by apply sceneAt_alloc. Qed.

Lemma keepsOtherVersions_refl storyId s : keepsOtherVersions storyId s s.
Proof. by repeat split. Qed.

Lemma keepsOtherVersions_trans storyId s1 s2 s3 :
  keepsOtherVersions storyId s1 s2 → keepsOtherVersions storyId s2 s3 →
  keepsOtherVersions storyId s1 s3.
Proof.
  intros (Hlen1 & Herr1 & Hkeep1) (Hlen2 & Herr2 & Hkeep2).
  split; [congruence|]. split; [congruence|].
  intros k story Hk Hid.
  destruct (Hkeep1 k story Hk Hid) as [Hk2 Hscenes1].
  destruct (Hkeep2 k story Hk2 Hid) as [Hk3 Hscenes2].
  split; [done|]. intros n. by rewrite Hscenes2.
Qed.

Lemma keepsOtherVersions_withId storyId g s :
  (∀ story h0, ∃ story' news, g story h0 = (Ok story', h0 ++ news)) →
  sessionWf (store s) (storyHistory s) →
  keepsOtherVersions storyId s (setStoryHistory (withId storyId g) s).
Proof.
  intros Hg Hwf.
  destruct (setStoryHistory_withId_pointwise storyId g s Hg) as (Hpre & Hlen & _ & Hpoint).
  split; [done|]. split; [apply error_setStoryHistory|].
  intros k story Hk Hid.
  destruct (Hpoint k story Hk) as (story' & Hk' & Hne & _).
  rewrite (Hne Hid) in Hk'. split; [done|].
  intros n. apply sceneAt_prefix; [|done]. by eapply sessionWf_story.
Qed.

Lemma keepsOtherVersions_onImageGenerated storyId image imgIndex s :
  sessionWf (store s) (storyHistory s) →
  keepsOtherVersions storyId s (onImageGenerated storyId image imgIndex s).
Proof.
  intros Hwf.
  destruct (onImageGenerated_frame s storyId image imgIndex Hwf) as (Hhistory & _ & Hscenes).
  split; [by rewrite Hhistory|]. split; [apply error_setStoryHistory|].
  intros k story Hk Hid. rewrite Hhistory. split; [done|].
  intros n. apply Hscenes; [|done]. by eapply list_elem_of_lookup_2.
Qed.

Lemma keepsOtherVersions_handleProgressUpdate storyId step progress s :
  keepsOtherVersions storyId s (handleProgressUpdate step progress s).
Proof.
  assert (store (handleProgressUpdate step progress s) = store s
          ∧ storyHistory (handleProgressUpdate step progress s) = storyHistory s
          ∧ error (handleProgressUpdate step progress s) = error s) as (Hs & Hh & He).
  { unfold handleProgressUpdate. destruct progress; [destruct (step =? 3)%nat|]; done. }
  unfold keepsOtherVersions. rewrite Hs, Hh, He. by repeat split.
Qed.

Lemma sessionWf_handleProgressUpdate step progress s :
  sessionWf (store s) (storyHistory s) →
  sessionWf (store (handleProgressUpdate step progress s))
    (storyHistory (handleProgressUpdate step progress s)).
Proof.
  unfold handleProgressUpdate. destruct progress; [destruct (step =? 3)%nat|]; done.
Qed.

(** An update of the collection changes the collection and the store,
    and the render error when the updater throws. *)
Lemma setStoryHistory_fields f s :
  activeStoryIndex (setStoryHistory f s) = activeStoryIndex s
  ∧ continuationMode (setStoryHistory f s) = continuationMode s
  ∧ isEditModalOpen (setStoryHistory f s) = isEditModalOpen s
  ∧ editingSceneIndex (setStoryHistory f s) = editingSceneIndex s
  ∧ isEditingImage (setStoryHistory f s) = isEditingImage s
  ∧ generationStep (setStoryHistory f s) = generationStep s
  ∧ illustrationProgress (setStoryHistory f s) = illustrationProgress s.
Proof. unfold setStoryHistory. by destruct (mapStories f 0 _ _) as [[history|e] h]. Qed.

Section Task.
Variable trim : string -> string.
Variable JSON_parse : string -> Result JSValue.
Variable ai_generateContent : nat -> Request -> Result Response.
Variable t : string -> string.
Variable character1File : File.
Variable character2 : option File.
Variable language aspectRatio artStyle : string.
Variable sceneCount : nat.
Variable mode : StoryMode.
Variable storyId : Z.
Variable index : nat.

Local Abbreviation task :=
  (generationTask trim JSON_parse ai_generateContent t character2 language aspectRatio
     artStyle character1File sceneCount mode storyId index).
Local Abbreviation progressHandler :=
  (if (index =? 0)%nat then handleProgressUpdate else λ _ _ s, s).
Local Abbreviation pipeline :=
  (generateStoryAndImages trim JSON_parse ai_generateContent
     progressHandler (onImageGenerated storyId)
     character1File character2 language aspectRatio artStyle sceneCount mode
     (onStoryGenerated storyId)).

Lemma generationTask_unfold st :
  task st =
    match pipeline st with
    | (Ok a, st') => (Ok a, st')
    | (Throw e, st') => (Throw e, (st'.1, onGenerationFailed t storyId e st'.2))
    end.
Proof.
  unfold generationTask, catch.
  destruct (generateStoryAndImages _ _ _ _ _ _ _ _ _ _ _ _ _ st) as [[a|e] st']; [done|].
  by rewrite bind_notify.
Qed.

(** What every callback of the task keeps. *)
Lemma task_callbacks_keep s0 :
  let P := λ s, sessionWf (store s) (storyHistory s) ∧ keepsOtherVersions storyId s0 s in
  (∀ image imgIndex s, P s → P (onImageGenerated storyId image imgIndex s))
  ∧ (∀ step progress s, P s → P (progressHandler step progress s))
  ∧ (∀ title paragraphs prompts s, P s → P (onStoryGenerated storyId title paragraphs prompts s))
  ∧ (∀ err s, P s → P (onGenerationFailed t storyId err s)).
Proof.
  intros P. subst P. cbn beta.
  split; [|split; [|split]].
  - intros image imgIndex s [Hwf Hkeep]. split.
    + by apply (handleGenerate_callbacks_sessionWf t).
    + eapply keepsOtherVersions_trans; [exact Hkeep|].
      by apply keepsOtherVersions_onImageGenerated.
  - intros step progress s [Hwf Hkeep].
    destruct (index =? 0)%nat; [|done]. split.
    + by apply sessionWf_handleProgressUpdate.
    + eapply keepsOtherVersions_trans; [exact Hkeep|].
      apply keepsOtherVersions_handleProgressUpdate.
  - intros title paragraphs prompts s [Hwf Hkeep]. split.
    + by apply (handleGenerate_callbacks_sessionWf t).
    + eapply keepsOtherVersions_trans; [exact Hkeep|].
      apply keepsOtherVersions_withId; [|done].
      intros story h0. by eexists _, _.
  - intros err s [Hwf Hkeep]. split.
    + by apply (handleGenerate_callbacks_sessionWf t).
    + eapply keepsOtherVersions_trans; [exact Hkeep|].
      apply keepsOtherVersions_withId; [|done].
      intros story h0. by eexists _, [_].
Qed.

(** X12: the task of one version, run from a session without shared
    scene objects, leaves such a session. Whether it returns or throws, it
    changes neither the length of the collection nor the error shown, and
    every story with another id stays at its place, showing the scenes it
    showed. *)
Theorem task_leaves_other_versions log s :
  sessionWf (store s) (storyHistory s) →
  let final := (task (log, s)).2.2 in
  sessionWf (store final) (storyHistory final)
  ∧ length (storyHistory final) = length (storyHistory s)
  ∧ error final = error s
  ∧ ∀ k story,
      storyHistory s !! k = Some story → id story ≠ storyId →
      storyHistory final !! k = Some story
      ∧ ∀ n, sceneAt (store final) story n = sceneAt (store s) story n.
Proof.
  intros Hwf final.
  destruct (task_callbacks_keep s) as (Himage & Hprogress & Hstory & Hfailed).
  assert (sessionWf (store final) (storyHistory final) ∧ keepsOtherVersions storyId s final)
    as [Hwf' Hkeep]; [|by destruct Hkeep as (? & ? & ?)].
  subst final. rewrite generationTask_unfold.
  pose proof (generateStoryAndImages_preserves trim JSON_parse ai_generateContent
                progressHandler (onImageGenerated storyId)
                character1File character2 language aspectRatio artStyle sceneCount mode
                _ (onStoryGenerated storyId) (log, s) Himage Hprogress Hstory
                (conj Hwf (keepsOtherVersions_refl storyId s))) as HP.
  destruct (generateStoryAndImages _ _ _ _ _ _ _ _ _ _ _ _ _ _) as [[a|e] st']; [done|].
  cbn [fst snd] in *. by apply Hfailed.
Qed.

(** X13: the task of a version changes the collection, the store and, for
    the first version of a batch only, the step and the progress shown: the
    active index, the continuation mode and the state of the edit modal are
    as before, and the task of a later version leaves the step and the
    progress alone. *)
Theorem task_reports_progress_for_first_version log s :
  let final :=
    (generationTask trim JSON_parse ai_generateContent t character2 language aspectRatio
       artStyle character1File sceneCount mode storyId index (log, s)).2.2 in
  activeStoryIndex final = activeStoryIndex s
  ∧ continuationMode final = continuationMode s
  ∧ isEditModalOpen final = isEditModalOpen s
  ∧ editingSceneIndex final = editingSceneIndex s
  ∧ isEditingImage final = isEditingImage s
  ∧ (index ≠ 0 →
     generationStep final = generationStep s
     ∧ illustrationProgress final = illustrationProgress s).
Proof.
  intros final.
  pose (P := λ s' : AppState,
          activeStoryIndex s' = activeStoryIndex s
          ∧ continuationMode s' = continuationMode s
          ∧ isEditModalOpen s' = isEditModalOpen s
          ∧ editingSceneIndex s' = editingSceneIndex s
          ∧ isEditingImage s' = isEditingImage s
          ∧ (index ≠ 0 →
             generationStep s' = generationStep s
             ∧ illustrationProgress s' = illustrationProgress s)).
  assert (∀ f s', P s' → P (setStoryHistory f s')) as Hupdate.
  { intros f s' (H1 & H2 & H3 & H4 & H5 & H6).
    destruct (setStoryHistory_fields f s') as (E1 & E2 & E3 & E4 & E5 & E6 & E7).
    unfold P. rewrite E1, E2, E3, E4, E5, E6, E7. done. }
  assert (∀ step progress s', P s' → P (progressHandler step progress s')) as Hprogress.
  { intros step progress s' HP. destruct (index =? 0)%nat eqn:E; [|done].
    apply Nat.eqb_eq in E. destruct HP as (H1 & H2 & H3 & H4 & H5 & _).
    unfold handleProgressUpdate.
    destruct progress; [destruct (step =? 3)%nat|]; by repeat split. }
  change (P final). subst final. rewrite generationTask_unfold.
  pose proof (generateStoryAndImages_preserves trim JSON_parse ai_generateContent
                progressHandler (onImageGenerated storyId)
                character1File character2 language aspectRatio artStyle sceneCount mode
                P (onStoryGenerated storyId) (log, s)) as HP.
  destruct (generateStoryAndImages _ _ _ _ _ _ _ _ _ _ _ _ _ _) as [[a|e] st'];
    cbn [fst snd] in *.
  - apply HP; try done; intros; by apply Hupdate.
  - apply Hupdate. apply HP; try done; intros; by apply Hupdate.
Qed.

(** X14: when the task of a version throws, every story with the id of
    that version is left as an error card: the error title, not loading,
    and a single scene whose paragraph is the message of the error and whose
    image is [null]. The scenes the version had been given are no longer
    shown, and the task throws the error that made it fail. *)
Theorem task_failure_card log s e :
  (task (log, s)).1 = Throw e →
  let final := (task (log, s)).2.2 in
  (pipeline (log, s)).1 = Throw e
  ∧ ∀ story,
      story ∈ storyHistory final → id story = storyId →
      title story = JString (t "errorTitle")
      ∧ isLoading story = Some false
      ∧ length (scenes story) = 1
      ∧ sceneAt (store final) story 0
        = Some {| paragraph := JString (errorMessage t e "errorUnknown");
                  imagePrompt := JString ""; image := ImageFailed;
                  videoPrompt := None; isVideoPromptLoading := None;
                  isRegenerating := None |}.
Proof.
  intros Hthrow final. subst final. revert Hthrow. rewrite generationTask_unfold.
  destruct (generateStoryAndImages _ _ _ _ _ _ _ _ _ _ _ _ _ _) as [[a|e'] st']; [done|].
  cbn [fst snd]. intros [= ->]. split; [done|].
  intros story Hin Hid.
  unfold onGenerationFailed in *.
  match type of Hin with context [withId storyId ?g0] => set (g := g0) in * end.
  assert (∀ story0 h0, ∃ story' news, g story0 h0 = (Ok story', h0 ++ news)) as Hg.
  { intros story0 h0. by eexists _, [_]. }
  destruct (setStoryHistory_withId_pointwise storyId g st'.2 Hg) as (_ & Hlen & _ & Hpoint).
  apply list_elem_of_lookup_1 in Hin as [k Hk].
  assert (is_Some (storyHistory st'.2 !! k)) as [story0 Hk0].
  { apply lookup_lt_is_Some. rewrite <- Hlen. by eapply lookup_lt_Some. }
  destruct (Hpoint k story0 Hk0) as (story' & Hk' & Hne & Heq).
  rewrite Hk in Hk'. injection Hk' as <-.
  destruct (decide (id story0 = storyId)) as [Hid0|Hid0];
    [|rewrite (Hne Hid0) in Hid; done].
  destruct (Heq Hid0) as (h0 & news & _ & Hchange & Hpre).
  unfold g in Hchange. simpl in Hchange. injection Hchange as Hstory Hnews.
  apply app_inv_head in Hnews. subst story news.
  repeat split; try done.
  unfold sceneAt, sceneRef. simpl.
  eapply prefix_lookup_Some; [|exact Hpre].
  rewrite lookup_app_r by done. by rewrite Nat.sub_diag.
Qed.

End Task.

(** ** [handleGenerate]: once the tasks have settled *)

Lemma mapStories_withId_fields storyId (change : StoryResult → StoryResult) i prev h :
  mapStories (withId storyId (λ story h0, (Ok (change story), h0))) i prev h
    = (Ok ((λ story, if (id story =? storyId)%Z then change story else story) <$> prev), h).
Proof.
  revert i. induction prev as [|story rest IH]; intros i; [done|].
  simpl. unfold withId at 1.
  destruct (id story =? storyId)%Z; simpl; by rewrite IH.
Qed.

Lemma onGenerationSettled_unfold storyId s :
  onGenerationSettled storyId s =
    set_session (store s)
      ((λ story, if (id story =? storyId)%Z then set_isLoading (Some false) story else story)
         <$> storyHistory s) s.
Proof. unfold onGenerationSettled, setStoryHistory. by rewrite mapStories_withId_fields. Qed.

Lemma settle_versions (settled : list (Z * Result unit)) (finished : list Z) s :
  (∀ story, story ∈ storyHistory s → id story ∈ finished → isLoading story = Some false) →
  (∀ storyId e story,
     (storyId, Throw e) ∈ settled → story ∈ storyHistory s → id story = storyId →
     isLoading story = Some false) →
  let s' := foldl (λ s r, match r.2 with
                          | Ok _ => onGenerationSettled r.1 s
                          | Throw _ => s
                          end) s settled in
  store s' = store s
  ∧ scenes <$> storyHistory s' = scenes <$> storyHistory s
  ∧ id <$> storyHistory s' = id <$> storyHistory s
  ∧ ∀ story, story ∈ storyHistory s' →
             id story ∈ finished ∨ id story ∈ settled.*1 → isLoading story = Some false.
Proof.
  revert finished s. induction settled as [|[storyId result] rest IH];
    intros finished s Hfinished Hrejected; cbn zeta.
  - simpl. repeat split; try done. intros story Hin [Hid|Hid]; [by apply Hfinished|].
    by apply elem_of_nil in Hid.
  - simpl. destruct result as [[]|e].
    + specialize (IH (storyId :: finished) (onGenerationSettled storyId s)).
      cbn zeta in IH. rewrite onGenerationSettled_unfold in IH |- *.
      rewrite storyHistory_set_session, store_set_session in IH.
      destruct IH as (Hstore & Hscenes & Hids & Hloading).
      * intros story Hin Hid. apply list_elem_of_fmap in Hin as (story0 & -> & Hin0).
        destruct (id story0 =? storyId)%Z eqn:E; [done|].
        apply elem_of_cons in Hid as [Hid|Hid]; [by apply Z.eqb_neq in E|].
        by apply Hfinished.
      * intros storyId' e story Hrest Hin Hid.
        apply list_elem_of_fmap in Hin as (story0 & -> & Hin0).
        destruct (id story0 =? storyId)%Z eqn:E; [done|].
        eapply Hrejected; [right; exact Hrest|done..].
      * split; [done|]. split.
        { rewrite Hscenes, <- list_fmap_compose. apply list_fmap_ext.
          intros k story _. simpl. by destruct (id story =? storyId)%Z. }
        split.
        { rewrite Hids, <- list_fmap_compose. apply list_fmap_ext.
          intros k story _. simpl. by destruct (id story =? storyId)%Z. }
        intros story Hin Hid. apply Hloading; [done|].
        destruct Hid as [Hid|Hid]; [left; by right|].
        apply elem_of_cons in Hid as [Hid|Hid]; [left; rewrite Hid; left|by right].
    + specialize (IH (storyId :: finished) s). cbn zeta in IH.
      destruct IH as (Hstore & Hscenes & Hids & Hloading).
      * intros story Hin Hid.
        apply elem_of_cons in Hid as [Hid|Hid]; [|by apply Hfinished].
        eapply Hrejected; [left|done|done].
      * intros storyId' e' story Hrest Hin Hid.
        eapply Hrejected; [right; exact Hrest|done..].
      * repeat split; try done.
        intros story Hin Hid. apply Hloading; [done|].
        destruct Hid as [Hid|Hid]; [left; by right|].
        apply elem_of_cons in Hid as [Hid|Hid]; [left; rewrite Hid; left|by right].
Qed.

(** X15: once every task has settled, no version of the batch is left
    loading. The end of [handleGenerate] clears the loading flag of every
    story whose task was fulfilled; the stories of a rejected task are not
    loading by then, the task having marked them itself. So afterwards no
    story with the id of a settled task is loading, the handler's own
    loading flag and progress are reset, and the scenes of every story are
    the ones it had. *)
Theorem no_version_left_loading settled g :
  (∀ storyId e story,
     (storyId, Throw e) ∈ settled → story ∈ storyHistory (session g) → id story = storyId →
     isLoading story = Some false) →
  let g' := handleGenerate_finish settled g in
  appIsLoading g' = false
  ∧ generationStep (session g') = 0
  ∧ illustrationProgress (session g') = None
  ∧ store (session g') = store (session g)
  ∧ scenes <$> storyHistory (session g') = scenes <$> storyHistory (session g)
  ∧ ∀ story, story ∈ storyHistory (session g') → id story ∈ settled.*1 →
             isLoading story = Some false.
Proof.
  intros Hrejected g'. subst g'. unfold handleGenerate_finish. cbn [session appIsLoading].
  destruct (settle_versions settled [] (session g)) as (Hstore & Hscenes & _ & Hloading);
    [by intros ? ? ?%elem_of_nil|done|].
  cbn zeta in *.
  repeat split; try done. intros story Hin Hid. apply Hloading; [done|by right].
Qed.

(** ** A version that was generated *)

(** The image callback of a version writes the scene of that index and
    no other scene of a story with the id. *)
Lemma onImageGenerated_sceneAt s storyId image imgIndex a story n :
  sessionWf (store s) (storyHistory s) →
  storyHistory s !! a = Some story → id story = storyId →
  sceneAt (store (onImageGenerated storyId image imgIndex s)) story n =
    if decide (n = imgIndex)
    then set_image (imageOfCallback image) <$> sceneAt (store s) story n
    else sceneAt (store s) story n.
Proof.
  intros Hwf Ha Hid. unfold onImageGenerated, setStoryHistory.
  assert (story ∈ storyHistory s) as Hin by (by eapply list_elem_of_lookup_2).
  pose proof (mapStories_onImageGenerated_store (imageOfCallback image) imgIndex storyId 0
                (storyHistory s) (store s)) as Hstore.
  destruct (mapStories_onImageGenerated (imageOfCallback image) imgIndex storyId 0
              (storyHistory s) (store s)) as (h' & Hmap & _ & Hframe).
  rewrite Hmap in Hstore |- *. cbn [snd] in Hstore. rewrite store_set_session.
  unfold sceneAt.
  destruct (sceneRef (scenes story) n) as [l|] eqn:Hl; simpl; [|by destruct (decide _)].
  destruct (decide (n = imgIndex)) as [->|Hne].
  - destruct (Hstore l) as [->|[_ Hnot]]; [done|]. by destruct (Hnot story Hin Hid).
  - apply Hframe. intros story' Hin' Hid' Hl'.
    apply list_elem_of_lookup_1 in Hin' as [a' Ha'].
    assert (a' = a) as ->.
    { destruct Hwf as [Hnodup _].
      eapply (sessionWf_owner _ a' a story' story l Hnodup); try done;
        by eapply sceneRef_elem. }
    assert (story' = story) as -> by congruence.
    destruct Hwf as [Hnodup Hvalid].
    assert (NoDup (sceneRefs story)) as Hstory.
    { by destruct (sessionWf_story _ _ _ _ (conj Hnodup Hvalid) Ha). }
    by pose proof (sceneRef_inj story n imgIndex l Hstory Hl Hl').
Qed.

Lemma lookup_scenePlaceholders paragraphs imagePrompts n paragraph :
  paragraphs !! n = Some paragraph →
  scenePlaceholders paragraphs imagePrompts !! n =
    Some {| paragraph := paragraph; imagePrompt := default JUndefined (imagePrompts !! n);
            image := ImagePending; videoPrompt := None;
            isVideoPromptLoading := None; isRegenerating := None |}.
Proof.
  intros Hn. unfold scenePlaceholders. rewrite list_lookup_imap, Hn. done.
Qed.

Section TaskResult.
Variable trim : string -> string.
Variable JSON_parse : string -> Result JSValue.
Variable ai_generateContent : nat -> Request -> Result Response.
Variable t : string -> string.
Variable character1File : File.
Variable character2 : option File.
Variable language aspectRatio artStyle : string.
Variable sceneCount : nat.
Variable mode : StoryMode.
Variable storyId : Z.
Variable index : nat.

Local Abbreviation task :=
  (generationTask trim JSON_parse ai_generateContent t character2 language aspectRatio
     artStyle character1File sceneCount mode storyId index).
Local Abbreviation progressHandler :=
  (if (index =? 0)%nat then handleProgressUpdate else λ _ _ s, s).
Local Abbreviation character1Part := (fileToGenerativePart character1File).
Local Abbreviation character2Part := (fileToGenerativePart <$> character2).
Local Abbreviation loop total :=
  (imageLoop ai_generateContent progressHandler (onImageGenerated storyId)
     character1Part character2Part aspectRatio total).
Local Abbreviation outcome total :=
  (sceneOutcome ai_generateContent progressHandler (onImageGenerated storyId)
     character1Part character2Part aspectRatio total).

Lemma progressHandler_session step progress s :
  store (progressHandler step progress s) = store s
  ∧ storyHistory (progressHandler step progress s) = storyHistory s.
Proof.
  destruct (index =? 0)%nat; [|done].
  unfold handleProgressUpdate. destruct progress; [destruct (step =? 3)%nat|]; done.
Qed.

(** The illustration stage of a task, seen from a story with the id of
    the version: the collection is not changed, and each scene of the story
    is given the image with which its iteration ends. *)
Lemma imageLoop_task_scenes total rest i failedImageCount st a story :
  sessionWf (store st.2) (storyHistory st.2) →
  storyHistory st.2 !! a = Some story → id story = storyId →
  let st' := (loop total rest i failedImageCount st).2 in
  storyHistory st'.2 = storyHistory st.2
  ∧ (∀ n, n < i → sceneAt (store st'.2) story n = sceneAt (store st.2) story n)
  ∧ (∀ n, n < length rest →
          ∃ image,
            outcome total rest i failedImageCount st n = Some image
            ∧ sceneAt (store st'.2) story (i + n)
              = set_image (imageOfCallback image) <$> sceneAt (store st.2) story (i + n)).
Proof.
  revert i failedImageCount st.
  induction rest as [|prompt rest IH]; intros i failedImageCount st Hwf Ha Hid; cbn zeta.
  - simpl. split; [done|]. split; [done|]. intros n Hn. lia.
  - rewrite imageLoop_cons.
    destruct (imageWithRetry_run ai_generateContent character1Part character2Part
                aspectRatio prompt failedImageCount st) as (image & k & Hretry & _).
    rewrite Hretry. cbn [fst snd].
    set (st1 := (st.1 ++ replicate k (ImageRequest prompt character1Part character2Part
                                         aspectRatio),
                 progressHandler 3 (Some (Datatypes.S i, total))
                   (onImageGenerated storyId image i st.2))).
    destruct (progressHandler_session 3 (Some (Datatypes.S i, total))
                (onImageGenerated storyId image i st.2)) as [Hstore1 Hhistory1].
    assert (storyHistory st1.2 = storyHistory st.2) as Hh1.
    { unfold st1. cbn [snd]. rewrite Hhistory1.
      by destruct (onImageGenerated_frame st.2 storyId image i Hwf) as (-> & _). }
    assert (sessionWf (store st1.2) (storyHistory st1.2)) as Hwf1.
    { unfold st1. cbn [snd]. rewrite Hstore1, Hhistory1.
      by apply (handleGenerate_callbacks_sessionWf (λ key, key)). }
    assert (∀ n, sceneAt (store st1.2) story n =
                 if decide (n = i)
                 then set_image (imageOfCallback image) <$> sceneAt (store st.2) story n
                 else sceneAt (store st.2) story n) as Hscenes1.
    { intros n. unfold st1. cbn [snd]. rewrite Hstore1.
      by apply (onImageGenerated_sceneAt _ _ _ _ a). }
    destruct (IH (Datatypes.S i) (match image with
                                  | Some _ => failedImageCount
                                  | None => Datatypes.S failedImageCount
                                  end) st1 Hwf1 ltac:(by rewrite Hh1) Hid)
      as (Hh' & Hbefore & Hafter).
    cbn zeta in Hh', Hbefore, Hafter.
    split; [by rewrite Hh'|]. split.
    + intros n Hn. rewrite Hbefore by lia. rewrite Hscenes1.
      destruct (decide (n = i)); [lia|done].
    + intros [|n] Hn.
      * exists image. split.
        { rewrite sceneOutcome_head. by rewrite Hretry. }
        rewrite Nat.add_0_r, Hbefore by lia. rewrite Hscenes1.
        by destruct (decide (i = i)).
      * destruct (Hafter n ltac:(simpl in Hn; lia)) as (image' & Houtcome & Hscene).
        exists image'. split.
        { erewrite sceneOutcome_tail by exact Hretry. exact Houtcome. }
        replace (i + Datatypes.S n) with (Datatypes.S i + n) by lia.
        rewrite Hscene, Hscenes1. destruct (decide (Datatypes.S i + n = i)); [lia|done].
Qed.


(** X16: a task that returns has made of its placeholder the story that
    was generated. A story with the id of the version keeps its place, id,
    mode and loading flag; it has the title of the validated response and one
    scene per paragraph; scene [n] holds paragraph [n], image prompt [n],
    and the image with which iteration [n] of the illustration stage ended,
    [null] when both attempts failed; it has no video prompt. *)
Theorem task_success_story log s a story0 parsed storyTitle paragraphs prompts :
  sessionWf (store s) (storyHistory s) →
  storyHistory s !! a = Some story0 → id story0 = storyId →
  ai_generateContent (length log)
      (StoryRequest character1Part character2Part language artStyle sceneCount mode)
    ≫= (λ response, parseAndValidateResponseText trim JSON_parse (text response))
    = Ok parsed →
  getProp parsed "storyTitle" = Ok storyTitle →
  getProp parsed "storyParagraphs" = Ok (JArray paragraphs) →
  getProp parsed "imagePrompts" = Ok (JArray prompts) →
  (task (log, s)).1 = Ok tt →
  let illustrating :=
    (log ++ [StoryRequest character1Part character2Part language artStyle sceneCount mode],
     progressHandler 3 (Some (0, length prompts))
       (progressHandler 2 None
          (onStoryGenerated storyId storyTitle paragraphs prompts
             (progressHandler 1 None s)))) in
  let final := (task (log, s)).2.2 in
  ∃ story,
    storyHistory final !! a = Some story
    ∧ id story = storyId
    ∧ title story = storyTitle
    ∧ storyMode story = storyMode story0
    ∧ isLoading story = isLoading story0
    ∧ length (scenes story) = length paragraphs
    ∧ ∀ n paragraph prompt,
        paragraphs !! n = Some paragraph → prompts !! n = Some prompt →
        ∃ image,
          outcome (length prompts) prompts 0 0 illustrating n = Some image
          ∧ sceneAt (store final) story n
            = Some {| paragraph := paragraph; imagePrompt := prompt;
                      image := imageOfCallback image; videoPrompt := None;
                      isVideoPromptLoading := None; isRegenerating := None |}.
Proof.
  intros Hwf Ha Hid Hstage Htitle Hparagraphs Hprompts Hok illustrating final.
  subst final. revert Hok. unfold generationTask, catch.
  rewrite generateStoryAndImages_stages, Hstage, Htitle, Hparagraphs, Hprompts.
  unfold default.
  change (Datatypes.id (JArray prompts)) with (JArray prompts).
  change (Datatypes.id (JArray paragraphs)) with (JArray paragraphs).
  change (Datatypes.id storyTitle) with storyTitle.
  cbn [arrayItems]. cbn zeta. fold illustrating.
  (* the state in which the illustration stage starts *)
  destruct (progressHandler_session 1 None s) as [Hstore0 Hhistory0].
  set (s1 := progressHandler 1 None s) in *.
  assert (sessionWf (store s1) (storyHistory s1)) as Hwf1 by (by rewrite Hstore0, Hhistory0).
  set (s2 := onStoryGenerated storyId storyTitle paragraphs prompts s1) in *.
  assert (sessionWf (store s2) (storyHistory s2)) as Hwf2.
  { by apply (handleGenerate_callbacks_sessionWf t). }
  set (g := λ (story : StoryResult) (h0 : Store),
         (Ok (set_scenes (freshRefs h0 (length (scenePlaceholders paragraphs prompts)))
                (set_title storyTitle story)),
          h0 ++ scenePlaceholders paragraphs prompts)).
  assert (∀ story h0, ∃ story' news, g story h0 = (Ok story', h0 ++ news)) as Hg.
  { intros story h0. by eexists _, _. }
  destruct (setStoryHistory_withId_pointwise storyId g s1 Hg) as (_ & _ & _ & Hpoint).
  fold (onStoryGenerated storyId storyTitle paragraphs prompts s1) in Hpoint. fold s2 in Hpoint.
  destruct (Hpoint a story0 ltac:(by rewrite Hhistory0)) as (story & Ha2 & _ & Hchanged).
  destruct (Hchanged Hid) as (h0 & news & _ & Hchange & Hpre).
  unfold g in Hchange. injection Hchange as Hstory Hnews.
  apply app_inv_head in Hnews. subst news.
  rewrite length_scenePlaceholders in Hstory.
  destruct (progressHandler_session 2 None s2) as [Hstore3 Hhistory3].
  destruct (progressHandler_session 3 (Some (0, length prompts)) (progressHandler 2 None s2))
    as [Hstore4 Hhistory4].
  assert (store illustrating.2 = store s2) as Hstore by (by unfold illustrating; cbn [snd]; congruence).
  assert (storyHistory illustrating.2 = storyHistory s2) as Hhistory
    by (by unfold illustrating; cbn [snd]; congruence).
  assert (sessionWf (store illustrating.2) (storyHistory illustrating.2)) as Hwfi.
  { unfold illustrating. cbn [snd]. by rewrite Hstore4, Hhistory4, Hstore3, Hhistory3. }
  assert (storyHistory illustrating.2 !! a = Some story) as Hai.
  { unfold illustrating. cbn [snd]. by rewrite Hhistory4, Hhistory3. }
  assert (id story = storyId) as Hid' by (by subst story).
  destruct (imageLoop_task_scenes (length prompts) prompts 0 0 illustrating a story
              Hwfi Hai Hid') as (Hh' & _ & Hscenes).
  cbn zeta in Hh', Hscenes.
  destruct (imageLoop_returns ai_generateContent progressHandler (onImageGenerated storyId)
              character1Part character2Part aspectRatio (length prompts) prompts 0 0
              illustrating) as (failed & st' & Hrun & _).
  rewrite Hrun in Hh', Hscenes. cbn [fst snd] in Hh', Hscenes.
  erewrite bind_ok by exact Hrun.
  destruct (_ && _); [unfold throw; by rewrite bind_notify|].
  intros _. unfold notify. cbn [fst snd].
  destruct (progressHandler_session 4 None st'.2) as [-> ->].
  exists story. rewrite Hh', Hhistory.
  split; [done|]. subst story. do 4 (split; [done|]).
  split; [simpl; by rewrite length_freshRefs|].
  intros n paragraph prompt Hn Hprompt.
  destruct (Hscenes n ltac:(by eapply lookup_lt_Some)) as (image & Houtcome & Hscene).
  exists image. split; [done|].
  simpl in Hscene. rewrite Hscene, Hstore4, Hstore3.
  assert (n < length paragraphs) as Hlt by (by eapply lookup_lt_Some).
  unfold sceneAt, sceneRef. cbn [scenes set_scenes].
  rewrite lookup_freshRefs by done. simpl.
  erewrite prefix_lookup_Some; [| |exact Hpre].
  2:{ rewrite lookup_app_r by lia.
      replace (length h0 + n - length h0) with n by lia.
      by apply lookup_scenePlaceholders. }
  simpl. by rewrite Hprompt.
Qed.

End TaskResult.

(** ** Regenerating the image of a scene *)

(** One copy-on-write update of a scene of the active story. *)
Lemma replaceScene_step changes active k s story l scene :
  storyHistory s !! active = Some story →
  sceneRef (scenes story) k = Some l →
  store s !! l = Some scene →
  let s' := setStoryHistory (atActive active (replaceScene changes k)) s in
  store s' = store s ++ [changes scene]
  ∧ error s' = error s
  ∧ activeStoryIndex s' = activeStoryIndex s
  ∧ ∃ story',
      storyHistory s' !! active = Some story'
      ∧ sceneRef (scenes story') k = Some (length (store s))
      ∧ scenes story' = <[k := Some (length (store s))]> (scenes story)
      ∧ id story' = id story ∧ title story' = title story.
Proof.
  intros Hlook Hk Hl s'. subst s'.
  rewrite (setStoryHistory_replaceScene changes active k s story l scene Hlook Hk Hl).
  split; [done|]. split; [done|]. split; [done|].
  eexists. rewrite storyHistory_set_session.
  split; [apply list_lookup_insert_eq; by eapply lookup_lt_Some|].
  split; [|done].
  unfold sceneRef. simpl. rewrite list_lookup_insert_eq; [done|]. by eapply sceneRef_lt.
Qed.

Section Regenerate.
Variable ai_generateContent : nat -> Request -> Result Response.
Variable t : string -> string.
Variable character1File : File.
Variable character2 : option File.
Variable aspectRatio : string.

Local Abbreviation handler :=
  (handleRegenerateImage ai_generateContent t (Some character1File) character2 aspectRatio).

End Regenerate.

(** ** Actions that do not reach the remote service *)

Section Guards.
Variable trim : string -> string.
Variable ai_generateContent : nat -> Request -> Result Response.
Variable t : string -> string.
Variable character1File : File.
Variable character2 : option File.
Variable language aspectRatio artStyle : string.

Local Abbreviation regenerate :=
  (handleRegenerateImage ai_generateContent t (Some character1File) character2 aspectRatio).
Local Abbreviation videoPromptAction :=
  (handleGenerateVideoPrompt trim ai_generateContent t (Some character1File) character2
     language artStyle).
Local Abbreviation edit :=
  (handleEditImage ai_generateContent t (Some character1File) character2).

(** X18: the actions on a scene that is not there, or has no image. For
    an index at which the active story has no scene, the regenerate-image
    action returns without any effect, whereas the video-prompt action and
    the edit action throw a TypeError, having changed nothing and issued no
    request. For a scene whose image is absent, failed or the empty string,
    the video-prompt action and the edit action return without any
    effect. *)
Theorem scene_actions_without_target s0 log active sceneIndex story editPrompt :
  activeStoryIndex s0 = Some active →
  storyHistory s0 !! active = Some story →
  editingSceneIndex s0 = Some sceneIndex →
  editPrompt ≠ "" →
  (sceneRef (scenes story) sceneIndex = None →
   regenerate sceneIndex (log, s0) = (Ok tt, (log, s0))
   ∧ videoPromptAction sceneIndex (log, s0)
     = (Throw (TypeError_read "undefined" "image"), (log, s0))
   ∧ edit editPrompt (log, s0) = (Throw (TypeError_read "undefined" "image"), (log, s0)))
  ∧ (∀ l scene,
       sceneRef (scenes story) sceneIndex = Some l →
       store s0 !! l = Some scene →
       imageTruthy (image scene) = false →
       videoPromptAction sceneIndex (log, s0) = (Ok tt, (log, s0))
       ∧ edit editPrompt (log, s0) = (Ok tt, (log, s0))).
Proof.
  intros Hactive Hlook Hediting Hprompt.
  assert (String.eqb editPrompt "" = false) as Hprompt'.
  { destruct (String.eqb editPrompt "") eqn:E; [by apply String.eqb_eq in E|done]. }
  split.
  - intros Hk. split; [|split].
    + unfold handleRegenerateImage. rewrite bind_getState. cbn [snd].
      rewrite Hactive. unfold closedOverScene. rewrite Hlook. simpl. by rewrite Hk.
    + unfold handleGenerateVideoPrompt. rewrite bind_getState. cbn [snd].
      by rewrite Hactive, Hlook, Hk.
    + unfold handleEditImage. rewrite bind_getState. cbn [snd].
      by rewrite Hactive, Hediting, Hprompt', Hlook, Hk.
  - intros l scene Hk Hl Himage. split.
    + unfold handleGenerateVideoPrompt. rewrite bind_getState. cbn [snd].
      rewrite Hactive, Hlook, Hk, Hl. cbn [default].
      change (Datatypes.id scene) with scene. by rewrite Himage.
    + unfold handleEditImage. rewrite bind_getState. cbn [snd].
      rewrite Hactive, Hediting, Hprompt', Hlook, Hk, Hl. cbn [default].
      change (Datatypes.id scene) with scene. by rewrite Himage.
Qed.
End Guards.

(** ** Continuing a story: the whole action *)

Lemma length_mapStories f i prev h history' h' :
  mapStories f i prev h = (Ok history', h') → length history' = length prev.
Proof.
  revert i h history' h'. induction prev as [|story rest IH]; intros i h history' h'; simpl.
  - by intros [= <- _].
  - destruct (f i story h) as [[story'|e] h1]; [|done].
    destruct (mapStories f (S i) rest h1) as [[rest'|e] h2] eqn:Hrest; [|done].
    intros [= <- _]. simpl. by rewrite (IH _ _ _ _ Hrest).
Qed.

Lemma length_setStoryHistory f s :
  length (storyHistory (setStoryHistory f s)) = length (storyHistory s).
Proof.
  unfold setStoryHistory.
  destruct (mapStories f 0 (storyHistory s) (store s)) as [[history'|e] h'] eqn:Hmap; [|done].
  rewrite storyHistory_set_session. by eapply length_mapStories.
Qed.

Section Continue.
Variable trim : string -> string.
Variable JSON_parse : string -> Result JSValue.
Variable ai_generateContent : nat -> Request -> Result Response.
Variable t : string -> string.
Variable character1File : File.
Variable character2 : option File.
Variable language aspectRatio artStyle : string.
Variable isHole : nat -> bool.

Local Abbreviation handler sceneCountNum :=
  (handleContinueStory trim JSON_parse ai_generateContent t (Some character1File) character2
     language aspectRatio artStyle sceneCountNum isHole).

(** What the callbacks of a continuation keep, from the state [c0] in
    which the action started. *)
Lemma continuation_callbacks_keep active mode c0 :
  let P := λ c,
    sessionWf (store (app c)) (storyHistory (app c))
    ∧ error (app c) = None
    ∧ length (storyHistory (app c)) = length (storyHistory (app c0))
    ∧ ∀ k story,
        storyHistory (app c0) !! k = Some story → k ≠ active →
        storyHistory (app c) !! k = Some story
        ∧ ∀ n, sceneAt (store (app c)) story n = sceneAt (store (app c0)) story n in
  (∀ image index c, P c → P (onNewImageGenerated active image index c))
  ∧ (∀ step progress c, P c → P (inApp (handleProgressUpdate step progress) c))
  ∧ (∀ paragraphs prompts c, P c → P (onNewStoryPartsGenerated active mode paragraphs prompts c)).
Proof.
  intros P. subst P. cbn beta. split; [|split].
  - intros image index c (Hwf & Herror & Hlen & Hkeep).
    split; [by apply continuation_callbacks_sessionWf|].
    split; [by unfold onNewImageGenerated, inApp; cbn [app]; rewrite error_setStoryHistory|].
    split; [by unfold onNewImageGenerated, inApp; cbn [app]; rewrite length_setStoryHistory|].
    intros k story Hk Hne. destruct (Hkeep k story Hk Hne) as [Hk' Hscenes].
    destruct (continuation_callbacks_frame c active mode [] [] image index Hwf k story Hk' Hne)
      as [_ [Hk2 Hscenes2]].
    split; [done|]. intros n. by rewrite Hscenes2.
  - intros step progress c (Hwf & Herror & Hlen & Hkeep).
    assert (store (handleProgressUpdate step progress (app c)) = store (app c)
            ∧ storyHistory (handleProgressUpdate step progress (app c)) = storyHistory (app c)
            ∧ error (handleProgressUpdate step progress (app c)) = error (app c))
      as (Hs & Hh & He).
    { unfold handleProgressUpdate. destruct progress; [destruct (step =? 3)%nat|]; done. }
    unfold inApp. cbn [app]. rewrite Hs, Hh, He.
    exact (conj Hwf (conj Herror (conj Hlen Hkeep))).
  - intros paragraphs prompts c (Hwf & Herror & Hlen & Hkeep).
    split; [by apply continuation_callbacks_sessionWf|].
    split.
    { unfold onNewStoryPartsGenerated. cbn [app]. by rewrite error_setStoryHistory. }
    split.
    { unfold onNewStoryPartsGenerated. cbn [app].
      by rewrite length_setStoryHistory, storyHistory_set_session. }
    intros k story Hk Hne. destruct (Hkeep k story Hk Hne) as [Hk' Hscenes].
    destruct (continuation_callbacks_frame c active mode paragraphs prompts None 0 Hwf
                k story Hk' Hne) as [[Hk2 Hscenes2] _].
    split; [done|]. intros n. by rewrite Hscenes2.
Qed.

(** X19: [handleContinueStory] never throws. With a scene count that is
    not a number from 1 to 100 it shows the invalid-count error and does
    nothing else. Otherwise it runs the continuation pipeline on the active
    story and, whether the pipeline returns or throws, ends with the
    continuation mode, the step and the progress reset; the error shown is
    the one the pipeline threw, none if it returned. The session is left
    without shared scene objects, and every story but the active one stays
    at its place, showing the scenes it showed. *)
Theorem continue_story_settles c0 log active existingStory sceneCountNum mode :
  activeStoryIndex (app c0) = Some active →
  storyHistory (app c0) !! active = Some existingStory →
  sessionWf (store (app c0)) (storyHistory (app c0)) →
  let run := handler sceneCountNum mode (log, c0) in
  let final := app run.2.2 in
  let invalid :=
    match sceneCountNum with
    | None => true
    | Some n => (n <? 1)%Z || (100 <? n)%Z
    end in
  run.1 = Ok tt
  ∧ (invalid = true →
     run.2 = (log, inApp (setError (Some (t "errorInvalidSceneCount"))) c0))
  ∧ (invalid = false →
     let prepared :=
       inApp (setIllustrationProgress None)
         (inApp (setGenerationStep 0)
            (inApp (setError None) (inApp (setContinuationMode (Some mode)) c0))) in
     let pipeline :=
       continueStoryAndImages trim JSON_parse ai_generateContent
         (λ step progress, inApp (handleProgressUpdate step progress))
         (onNewImageGenerated active) (λ c, store (app c)) isHole
         existingStory character1File character2 language aspectRatio artStyle
         (Z.to_nat (default 0%Z sceneCountNum)) mode
         (onNewStoryPartsGenerated active mode) (log, prepared) in
     run.2.1 = pipeline.2.1
     ∧ continuationMode final = None
     ∧ generationStep final = 0
     ∧ illustrationProgress final = None
     ∧ error final = match pipeline.1 with
                     | Ok _ => None
                     | Throw e => Some (errorMessage t e "errorUnknown")
                     end
     ∧ sessionWf (store final) (storyHistory final)
     ∧ length (storyHistory final) = length (storyHistory (app c0))
     ∧ ∀ k story,
         storyHistory (app c0) !! k = Some story → k ≠ active →
         storyHistory final !! k = Some story
         ∧ ∀ n, sceneAt (store final) story n = sceneAt (store (app c0)) story n).
Proof.
  intros Hactive Hlook Hwf run final invalid.
  unfold final, run, handleContinueStory. rewrite bind_getState. cbn [snd].
  rewrite Hactive, Hlook.
  destruct sceneCountNum as [n|]; [|by repeat split].
  subst invalid. destruct ((n <? 1)%Z || (100 <? n)%Z); [by repeat split|].
  rewrite !bind_notify. cbn [fst snd].
  split; [|split; [done|]].
  { unfold finally, catch.
    destruct (continueStoryAndImages _ _ _ _ _ _ _ _ _ _ _ _ _ _ _ _ _) as [[[]|e] st'];
      by rewrite ?bind_notify. }
  intros _. unfold default. change (Datatypes.id n) with n.
  unfold finally, catch.
  set (prepared := inApp (setIllustrationProgress None) _).
  set (pipeline := continueStoryAndImages _ _ _ _ _ _ _ _ _ _ _ _ _ _ _ _ _).
  destruct (continuation_callbacks_keep active mode c0) as (Himage & Hprogress & Hparts).
  pose proof (continueStoryAndImages_preserves trim JSON_parse ai_generateContent
                (λ step progress, inApp (handleProgressUpdate step progress))
                (onNewImageGenerated active) (λ c, store (app c)) isHole
                character1File character2 language aspectRatio artStyle (Z.to_nat n) mode
                _ existingStory (onNewStoryPartsGenerated active mode) (log, prepared)
                Himage Hprogress Hparts) as HP.
  fold pipeline in HP. cbn beta in HP.
  destruct HP as (Hwf' & Herror' & Hlen' & Hkeep').
  { split; [done|]. split; [done|]. split; [done|]. intros k story Hk _. by split. }
  destruct pipeline as [[[]|e] [log' c']]; rewrite ?bind_notify; unfold notify, inApp;
    cbn [fst snd app] in *; split_and!; done.
Qed.
End Continue.

(** ** A story that was continued *)

Lemma handleProgressUpdate_session step progress s :
  store (handleProgressUpdate step progress s) = store s
  ∧ storyHistory (handleProgressUpdate step progress s) = storyHistory s.
Proof.
  unfold handleProgressUpdate. destruct progress; [destruct (step =? 3)%nat|]; done.
Qed.

(** The image callback of a continuation writes the new scene of that
    index and no other scene of the active story. *)
Lemma onNewImageGenerated_sceneAt c active image i story j :
  storyHistory (app c) !! active = Some story →
  storyWf (store (app c)) story →
  length (scenes story) = j + newSceneCount c →
  let c' := onNewImageGenerated active image i c in
  storyHistory (app c') = storyHistory (app c)
  ∧ newSceneCount c' = newSceneCount c
  ∧ storyWf (store (app c')) story
  ∧ ∀ n, sceneAt (store (app c')) story n =
         if decide (n = j + i)
         then set_image (imageOfCallback image) <$> sceneAt (store (app c)) story n
         else sceneAt (store (app c)) story n.
Proof.
  intros Hlook Hwf Hlen c'. subst c'. unfold onNewImageGenerated, inApp. cbn [app newSceneCount].
  assert (indexOfZ (Z.of_nat (length (scenes story)) - Z.of_nat (newSceneCount c) + Z.of_nat i)
          = Some (j + i)) as Hindex.
  { unfold indexOfZ. rewrite Hlen.
    destruct (_ <? 0)%Z eqn:E; [apply Z.ltb_lt in E; lia|]. f_equal. lia. }
  destruct (sceneRef (scenes story) (j + i)) as [l|] eqn:Hl.
  - erewrite setStoryHistory_atActive;
      [|done|by apply writeImageIfPresent_some; rewrite Hindex].
    rewrite storyHistory_set_session, store_set_session.
    split; [by apply list_insert_id|]. split; [done|].
    split; [by apply storyWf_alter|].
    intros n. rewrite sceneAt_alter by done.
    destruct (decide (n = j + i)) as [->|Hne].
    + by rewrite decide_True.
    + rewrite decide_False; [done|]. intros Hn. apply Hne.
      destruct Hwf as [Hnodup _]. by eapply sceneRef_inj.
  - erewrite setStoryHistory_atActive;
      [|done|by apply writeImageIfPresent_none; rewrite Hindex].
    rewrite storyHistory_set_session, store_set_session.
    split; [by apply list_insert_id|]. split; [done|]. split; [done|].
    intros n. destruct (decide (n = j + i)) as [->|]; [|done].
    unfold sceneAt. by rewrite Hl.
Qed.

Section ContinuationResult.
Variable trim : string -> string.
Variable JSON_parse : string -> Result JSValue.
Variable ai_generateContent : nat -> Request -> Result Response.
Variable character1File : File.
Variable character2 : option File.
Variable language aspectRatio artStyle : string.
Variable sceneCount : nat.
Variable mode : StoryMode.
Variable active : nat.
Variable isHole : nat -> bool.

Local Abbreviation progress :=
  (λ step progress, inApp (handleProgressUpdate step progress)).
Local Abbreviation character1Part := (fileToGenerativePart character1File).
Local Abbreviation character2Part := (fileToGenerativePart <$> character2).
Local Abbreviation loop total :=
  (imageLoop ai_generateContent progress (onNewImageGenerated active)
     character1Part character2Part aspectRatio total).
Local Abbreviation outcome total :=
  (sceneOutcome ai_generateContent progress (onNewImageGenerated active)
     character1Part character2Part aspectRatio total).
Local Abbreviation pipeline existingStory :=
  (continueStoryAndImages trim JSON_parse ai_generateContent progress
     (onNewImageGenerated active) (λ c, store (app c)) isHole
     existingStory character1File character2 language aspectRatio artStyle sceneCount mode
     (onNewStoryPartsGenerated active mode)).

(** The illustration stage of a continuation, seen from the active
    story, which has [j] scenes before the new ones. *)
Lemma imageLoop_continuation_scenes total rest i failedImageCount st story j :
  storyHistory (app st.2) !! active = Some story →
  storyWf (store (app st.2)) story →
  length (scenes story) = j + newSceneCount st.2 →
  let st' := (loop total rest i failedImageCount st).2 in
  storyHistory (app st'.2) = storyHistory (app st.2)
  ∧ (∀ n, n < j + i → sceneAt (store (app st'.2)) story n = sceneAt (store (app st.2)) story n)
  ∧ (∀ n, n < length rest →
          ∃ image,
            outcome total rest i failedImageCount st n = Some image
            ∧ sceneAt (store (app st'.2)) story (j + (i + n))
              = set_image (imageOfCallback image)
                  <$> sceneAt (store (app st.2)) story (j + (i + n))).
Proof.
  revert i failedImageCount st.
  induction rest as [|prompt rest IH]; intros i failedImageCount st Hlook Hwf Hlen; cbn zeta.
  - simpl. split; [done|]. split; [done|]. intros n Hn. lia.
  - rewrite imageLoop_cons.
    destruct (imageWithRetry_run ai_generateContent character1Part character2Part
                aspectRatio prompt failedImageCount st) as (image & k & Hretry & _).
    rewrite Hretry. cbn [fst snd].
    destruct (onNewImageGenerated_sceneAt st.2 active image i story j Hlook Hwf Hlen)
      as (Hh1 & Hcount1 & Hwf1 & Hscenes1).
    destruct (handleProgressUpdate_session 3 (Some (Datatypes.S i, total))
                (app (onNewImageGenerated active image i st.2))) as [Hstore2 Hhistory2].
    set (st1 := (st.1 ++ replicate k (ImageRequest prompt character1Part character2Part
                                         aspectRatio),
                 inApp (handleProgressUpdate 3 (Some (Datatypes.S i, total)))
                   (onNewImageGenerated active image i st.2))).
    assert (storyHistory (app st1.2) = storyHistory (app st.2)) as Hh.
    { unfold st1, inApp. cbn [snd app]. by rewrite Hhistory2. }
    assert (store (app st1.2) = store (app (onNewImageGenerated active image i st.2))) as Hs.
    { unfold st1, inApp. cbn [snd app]. by rewrite Hstore2. }
    destruct (IH (Datatypes.S i) (match image with
                                  | Some _ => failedImageCount
                                  | None => Datatypes.S failedImageCount
                                  end) st1) as (Hh' & Hbefore & Hafter).
    { by rewrite Hh. }
    { by rewrite Hs. }
    { unfold st1, inApp. cbn [snd newSceneCount]. by rewrite Hcount1. }
    cbn zeta in Hh', Hbefore, Hafter.
    split; [by rewrite Hh'|]. split.
    + intros n Hn. rewrite Hbefore by lia. rewrite Hs, Hscenes1.
      destruct (decide (n = j + i)); [lia|done].
    + intros [|n] Hn.
      * exists image. split.
        { rewrite sceneOutcome_head. by rewrite Hretry. }
        rewrite Nat.add_0_r, Hbefore by lia. rewrite Hs, Hscenes1.
        by destruct (decide (j + i = j + i)).
      * destruct (Hafter n ltac:(simpl in Hn; lia)) as (image' & Houtcome & Hscene).
        exists image'. split.
        { erewrite sceneOutcome_tail by exact Hretry. exact Houtcome. }
        replace (j + (i + Datatypes.S n)) with (j + (Datatypes.S i + n)) by lia.
        rewrite Hscene, Hs, Hscenes1.
        destruct (decide (j + (Datatypes.S i + n) = j + i)); [lia|done].
Qed.


End ContinuationResult.

(** ** The follow-up actions keep the scene objects apart *)

Lemma keeps_mret {S A} (P : S → Prop) (a : A) : keeps P (mret a : M S A).
Proof. by intros st. Qed.

Lemma keeps_throw {S A} (P : S → Prop) e : keeps P (throw e : M S A).
Proof. by intros st. Qed.

Lemma keeps_notify {S} (P : S → Prop) (f : S → S) :
  (∀ s, P s → P (f s)) → keeps P (notify f).
Proof. intros Hf st HP. by apply Hf. Qed.

Lemma keeps_bind {S A B} (P : S → Prop) (m : M S A) (k : A → M S B) :
  keeps P m → (∀ a, keeps P (k a)) → keeps P (m ≫= k).
Proof.
  intros Hm Hk st HP. unfold mbind, M_bind.
  specialize (Hm st HP). destruct (m st) as [[a|e] st']; [by apply Hk|done].
Qed.

Lemma keeps_getState {S B} (P : S → Prop) (k : S → M S B) :
  (∀ s, P s → keeps P (k s)) → keeps P (getState ≫= k).
Proof. intros Hk st HP. rewrite bind_getState. by apply Hk. Qed.

Lemma keeps_catch {S A} (P : S → Prop) (m : M S A) (h : Thrown → M S A) :
  keeps P m → (∀ e, keeps P (h e)) → keeps P (catch m h).
Proof.
  intros Hm Hh st HP. unfold catch.
  specialize (Hm st HP). destruct (m st) as [[a|e] st']; [done|by apply Hh].
Qed.

Lemma keeps_finally {S A} (P : S → Prop) (m : M S A) (f : M S unit) :
  keeps P m → keeps P f → keeps P (finally m f).
Proof.
  intros Hm Hf st HP. unfold finally.
  specialize (Hm st HP). destruct (m st) as [r st'].
  specialize (Hf st' Hm). by destruct (f st') as [[[]|e] st''].
Qed.

Lemma keeps_generateImage {S} (P : S → Prop) ai_generateContent prompt character1Part
    character2Part aspectRatio :
  keeps P (generateImage ai_generateContent prompt character1Part character2Part aspectRatio).
Proof. intros [log s] HP. by rewrite generateImage_run. Qed.

Lemma keeps_editImage {S} (P : S → Prop) ai_generateContent baseImage prompt
    character1Part character2Part :
  keeps P (editImage ai_generateContent baseImage prompt character1Part character2Part).
Proof. intros [log s] HP. by rewrite editImage_run. Qed.

Lemma keeps_generateVideoPrompt {S} (P : S → Prop) trim ai_generateContent paragraph0
    image0 character1File character2File artStyle language :
  keeps P (generateVideoPrompt trim ai_generateContent paragraph0 image0 character1File
             character2File artStyle language).
Proof. intros [log s] HP. by rewrite generateVideoPrompt_run. Qed.

Section FollowUpInvariant.
Variable trim : string -> string.
Variable ai_generateContent : nat -> Request -> Result Response.
Variable t : string -> string.
Variable character1 : option File.
Variable character2 : option File.
Variable language aspectRatio artStyle : string.

Local Abbreviation apart := (λ s : AppState, sessionWf (store s) (storyHistory s)).

Lemma keeps_replaceScene active changes sceneIndex :
  keeps apart (notify (setStoryHistory (atActive active (replaceScene changes sceneIndex)))).
Proof.
  apply keeps_notify. intros s Hwf.
  by destruct (follow_up_updates_sessionWf s active Hwf) as [Hreplace _].
Qed.

Lemma keeps_writeImage active x sceneIndex :
  keeps apart (notify (setStoryHistory (atActive active (writeImage x sceneIndex)))).
Proof.
  apply keeps_notify. intros s Hwf.
  by destruct (follow_up_updates_sessionWf s active Hwf) as [_ Hwrite].
Qed.

Ltac keeps_step :=
  first
    [ progress cbn zeta
    | match goal with
      | |- ∀ _, _ => intros ?
      | |- keeps _ (getState ≫= _) => apply keeps_getState; intros ? ?
      | |- keeps _ (_ ≫= _) => apply keeps_bind
      | |- keeps _ (catch _ _) => apply keeps_catch
      | |- keeps _ (finally _ _) => apply keeps_finally
      | |- keeps _ (notify (setStoryHistory (atActive _ (replaceScene _ _)))) =>
          apply keeps_replaceScene
      | |- keeps _ (notify (setStoryHistory (atActive _ (writeImage _ _)))) =>
          apply keeps_writeImage
      | |- keeps _ (notify _) =>
          apply keeps_notify; let H := fresh in intros ? H; exact H
      | |- keeps _ (generateImage _ _ _ _ _) => apply keeps_generateImage
      | |- keeps _ (editImage _ _ _ _ _) => apply keeps_editImage
      | |- keeps _ (generateVideoPrompt _ _ _ _ _ _ _ _) => apply keeps_generateVideoPrompt
      | |- keeps _ (mret _) => apply keeps_mret
      | |- keeps _ (throw _) => apply keeps_throw
      | |- keeps _ (match ?x with _ => _ end) => destruct x
      | |- keeps _ (if ?x then _ else _) => destruct x
      end ].

(** X21: the three follow-up actions on a scene, started in any state of
    a session without shared scene objects, leave such a session, whatever
    the remote service answers and whether the action returns or throws. *)
Theorem follow_up_actions_keep_scenes_apart s0 log :
  sessionWf (store s0) (storyHistory s0) →
  (∀ sceneIndex,
     let final := (handleRegenerateImage ai_generateContent t character1 character2
                     aspectRatio sceneIndex (log, s0)).2.2 in
     sessionWf (store final) (storyHistory final))
  ∧ (∀ sceneIndex,
       let final := (handleGenerateVideoPrompt trim ai_generateContent t character1
                       character2 language artStyle sceneIndex (log, s0)).2.2 in
       sessionWf (store final) (storyHistory final))
  ∧ (∀ editPrompt,
       let final := (handleEditImage ai_generateContent t character1 character2
                       editPrompt (log, s0)).2.2 in
       sessionWf (store final) (storyHistory final)).
Proof.
  intros Hwf. split; [|split].
  - intros sceneIndex.
    assert (keeps apart (handleRegenerateImage ai_generateContent t character1 character2
                           aspectRatio sceneIndex)) as Hkeeps; [|by apply (Hkeeps (log, s0))].
    unfold handleRegenerateImage. apply keeps_getState. intros s _.
    destruct (activeStoryIndex s) as [active|], character1 as [character1File|];
      try apply keeps_mret.
    destruct (closedOverScene s active sceneIndex); [|apply keeps_mret].
    repeat keeps_step.
  - intros sceneIndex.
    assert (keeps apart (handleGenerateVideoPrompt trim ai_generateContent t character1
                           character2 language artStyle sceneIndex)) as Hkeeps;
      [|by apply (Hkeeps (log, s0))].
    unfold handleGenerateVideoPrompt. apply keeps_getState. intros s _.
    destruct (activeStoryIndex s) as [active|], character1 as [character1File|];
      try apply keeps_mret.
    destruct (storyHistory s !! active) as [currentStory|]; [|apply keeps_mret].
    destruct (sceneRef (scenes currentStory) sceneIndex) as [l|]; [|apply keeps_throw].
    destruct (negb _); [apply keeps_mret|].
    unfold handleGenerateVideoPrompt_try.
    repeat keeps_step.
  - intros editPrompt.
    assert (keeps apart (handleEditImage ai_generateContent t character1 character2
                           editPrompt)) as Hkeeps; [|by apply (Hkeeps (log, s0))].
    unfold handleEditImage. apply keeps_getState. intros s _.
    destruct (activeStoryIndex s) as [active|], (editingSceneIndex s) as [editingScene|],
      character1 as [character1File|]; try apply keeps_mret.
    destruct (String.eqb editPrompt ""); [apply keeps_mret|].
    destruct (storyHistory s !! active) as [currentStory|]; [|apply keeps_mret].
    destruct (sceneRef (scenes currentStory) editingScene) as [l|]; [|apply keeps_throw].
    destruct (negb _); [apply keeps_mret|].
    repeat keeps_step.
Qed.
End FollowUpInvariant.

(** * The further properties on the sample data *)

Ltac sample_apart :=
  unfold sessionWf; split; apply (bool_decide_unpack _); vm_compute; exact I.


Lemma validation_failure_messages_witness :
  parseAndValidateStoryResponse sampleTrim sampleParse "not JSON"
    = Throw (ErrorObj UnparsableResponse)
  ∧ ∃ message,
      ErrorObj UnparsableResponse = ErrorObj message
      ∧ (String.prefix "AI response was malformed" message = true
         ∨ String.prefix "AI generated an empty story" message = true
         ∨ message = UnparsableResponse
         ∨ message = UnknownProcessingError).
Proof.
  split; [reflexivity|].
  apply (validation_failure_messages sampleTrim sampleParse "not JSON"). reflexivity.
Defined.

Lemma validation_keeps_other_fields_witness :
  getProp truncatedResponse "storyTitle" = getProp mismatchedResponse "storyTitle"
  ∧ ∀ r, parseAndValidateStoryResponse sampleTrim sampleReparse "two paragraphs, two prompts"
           = Ok r →
         r = truncatedResponse.
Proof.
  split.
  - apply (proj1 (validation_keeps_other_fields sampleTrim sampleParse
                    "three paragraphs, two prompts" mismatchedResponse truncatedResponse
                    eq_refl eq_refl)); discriminate.
  - intros r Hr.
    exact (proj2 (validation_keeps_other_fields sampleTrim sampleReparse
                    "two paragraphs, two prompts" truncatedResponse r eq_refl Hr)
             [JString "Sinta found a red kite."; JString "She ran up the hill."]
             [JString "a girl holding a red kite"; JString "a girl running up a green hill"]
             eq_refl eq_refl eq_refl).
Defined.

Lemma validation_idempotent_witness :
  parseAndValidateStoryResponse sampleTrim sampleReparse "two paragraphs, two prompts"
    = Ok truncatedResponse.
Proof.
  apply (validation_idempotent sampleTrim sampleParse "three paragraphs, two prompts"
           truncatedResponse sampleTrim sampleReparse "two paragraphs, two prompts");
    reflexivity.
Defined.


Lemma imagePart_round_trip_witness :
  imagePart "data:image/png;base64,AAAA"
    = {| part_data := Some "AAAA"; part_mimeType := "image/png" |}.
Proof. exact (imagePart_round_trip sampleImage eq_refl eq_refl). Defined.

Lemma download_name_of_generated_image_witness :
  handleDownloadSingle (ImageReady "data:image/png;base64,AAAA") "scene_1"
    = Some ("data:image/png;base64,AAAA", "scene_1.png").
Proof. exact (download_name_of_generated_image sampleImage "scene_1" eq_refl eq_refl). Defined.




Lemma handleGenerate_start_placeholders_witness :
  ∃ g' ids,
    handleGenerate_start sampleTranslate (Some sampleCharacter) (Some 4%Z) 6 conclude
      sampleClock sampleGeneration = (g', Some ids)
    ∧ length ids = 6
    ∧ length (storyHistory (session g')) = 7
    ∧ activeStoryIndex (session g') = Some 1.
Proof.
  destruct (handleGenerate_start_placeholders sampleTranslate sampleCharacter 4 6 conclude
              sampleClock sampleGeneration)
    as (g' & ids & Hstart & Hids & Hlen & _ & _ & _ & Hactive & _).
  - lia.
  - intros i j _ _. unfold sampleClock. lia.
  - intros story Hin. apply list_elem_of_singleton in Hin. subst story. reflexivity.
  - sample_apart.
  - exists g', ids. split; [exact Hstart|]. split; [exact Hids|].
    split; [exact Hlen|]. apply Hactive. lia.
Defined.

Lemma task_leaves_other_versions_witness :
  let final :=
    (generationTask sampleTrim sampleParse serviceRecovering sampleTranslate None
       "en" "16:9" "2d" sampleCharacter 2 conclude 1730000000001 1
       ([], sessionWithPlaceholder)).2.2 in
  storyHistory final !! 0 = Some kiteStory
  ∧ sceneAt (store final) kiteStory 0 = Some kiteScene
  ∧ sceneAt (store final) kiteStory 1 = Some hillScene.
Proof.
  intros final.
  destruct (task_leaves_other_versions sampleTrim sampleParse serviceRecovering
              sampleTranslate sampleCharacter None "en" "16:9" "2d" 2 conclude
              1730000000001 1 [] sessionWithPlaceholder)
    as (_ & _ & _ & Hkeep); [sample_apart|].
  destruct (Hkeep 0 kiteStory eq_refl) as [Hstory Hscenes]; [discriminate|].
  split; [exact Hstory|]. split; [exact (Hscenes 0)|exact (Hscenes 1)].
Defined.

Lemma task_failure_card_witness :
  let final :=
    (generationTask sampleTrim sampleParse serviceWithoutImages sampleTranslate None
       "en" "16:9" "2d" sampleCharacter 2 conclude 1730000000001 1
       ([], sessionWithPlaceholder)).2.2 in
  let card :=
    {| id := 1730000000001; title := JString "errorTitle"; scenes := [Some 4];
       storyMode := conclude; isLoading := Some false |} in
  storyHistory final = [kiteStory; card]
  ∧ sceneAt (store final) card 0
    = Some {| paragraph := JString AllImagesFailed;
              imagePrompt := JString ""; image := ImageFailed;
              videoPrompt := None; isVideoPromptLoading := None;
              isRegenerating := None |}.
Proof.
  intros final card. split; [reflexivity|].
  refine (proj2 (proj2 (proj2 (proj2 (task_failure_card sampleTrim sampleParse
                                        serviceWithoutImages sampleTranslate sampleCharacter
                                        None "en" "16:9" "2d" 2 conclude 1730000000001 1 []
                                        sessionWithPlaceholder (ErrorObj AllImagesFailed)
                                        eq_refl) card _ eq_refl)))).
  apply (list_elem_of_lookup_2 _ 1). reflexivity.
Defined.

Lemma no_version_left_loading_witness :
  let g' :=
    handleGenerate_finish
      [(1730000000001%Z, Ok tt); (1730000000000%Z, Throw (ErrorObj AllImagesFailed))]
      {| session := sessionWithPlaceholder; appIsLoading := true |} in
  appIsLoading g' = false
  ∧ ∀ story, story ∈ storyHistory (session g') → isLoading story = Some false.
Proof.
  intros g'.
  destruct (no_version_left_loading
              [(1730000000001%Z, Ok tt); (1730000000000%Z, Throw (ErrorObj AllImagesFailed))]
              {| session := sessionWithPlaceholder; appIsLoading := true |})
    as (Happ & _ & _ & _ & _ & Hloading).
  - intros storyId e story Hsettled Hin Hid.
    apply elem_of_cons in Hin as [->|Hin]; [reflexivity|].
    apply list_elem_of_singleton in Hin. subst story.
    apply elem_of_cons in Hsettled as [Hsettled|Hsettled]; [discriminate|].
    apply list_elem_of_singleton in Hsettled. injection Hsettled as -> _. discriminate.
  - split; [exact Happ|].
    intros story Hin. apply Hloading; [exact Hin|].
    apply elem_of_cons in Hin as [->|Hin]; [by right; left|].
    apply list_elem_of_singleton in Hin. subst story. by left.
Defined.

Lemma task_success_story_witness :
  let final :=
    (generationTask sampleTrim sampleParse serviceRecovering sampleTranslate None
       "en" "16:9" "2d" sampleCharacter 2 conclude 1730000000000 0
       ([], placeholderSession)).2.2 in
  ∃ story,
    storyHistory final !! 0 = Some story
    ∧ title story = JString "The Red Kite"
    ∧ length (scenes story) = 2
    ∧ sceneAt (store final) story 0
      = Some {| paragraph := JString "Sinta found a red kite.";
                imagePrompt := JString "a girl holding a red kite";
                image := ImageFailed; videoPrompt := None;
                isVideoPromptLoading := None; isRegenerating := None |}
    ∧ sceneAt (store final) story 1
      = Some {| paragraph := JString "She ran up the hill.";
                imagePrompt := JString "a girl running up a green hill";
                image := ImageReady "data:image/png;base64,AAAA"; videoPrompt := None;
                isVideoPromptLoading := None; isRegenerating := None |}.
Proof.
  intros final.
  destruct (task_success_story sampleTrim sampleParse serviceRecovering sampleTranslate
              sampleCharacter None "en" "16:9" "2d" 2 conclude 1730000000000 0
              [] placeholderSession 0
              {| id := 1730000000000; title := JString "Generating";
                 scenes := []; storyMode := conclude; isLoading := Some true |}
              truncatedResponse (JString "The Red Kite")
              [JString "Sinta found a red kite."; JString "She ran up the hill."]
              [JString "a girl holding a red kite"; JString "a girl running up a green hill"])
    as (story & Hstory & _ & Htitle & _ & _ & Hlen & Hscenes);
    [sample_apart|reflexivity..|].
  exists story. split; [exact Hstory|]. split; [exact Htitle|]. split; [exact Hlen|].
  split.
  - destruct (Hscenes 0 _ _ eq_refl eq_refl) as (image & Houtcome & Hscene).
    vm_compute in Houtcome. injection Houtcome as <-. exact Hscene.
  - destruct (Hscenes 1 _ _ eq_refl eq_refl) as (image & Houtcome & Hscene).
    vm_compute in Houtcome. injection Houtcome as <-. exact Hscene.
Defined.


Lemma scene_actions_without_target_witness :
  handleGenerateVideoPrompt sampleTrim serviceUp sampleTranslate (Some sampleCharacter) None
    "en" "2d" 5 ([], handleOpenEditModal 5 sampleSession)
  = (Throw (TypeError_read "undefined" "image"), ([], handleOpenEditModal 5 sampleSession))
  ∧ handleEditImage serviceUp sampleTranslate (Some sampleCharacter) None
      "make the kite blue" ([], handleOpenEditModal 1 sampleSession)
    = (Ok tt, ([], handleOpenEditModal 1 sampleSession)).
Proof.
  split.
  - refine (proj1 (proj2 (proj1 (scene_actions_without_target sampleTrim serviceUp
                                   sampleTranslate sampleCharacter None "en" "16:9" "2d"
                                   (handleOpenEditModal 5 sampleSession) [] 0 5 kiteStory
                                   "make the kite blue" eq_refl eq_refl eq_refl _)
                            eq_refl))).
    discriminate.
  - refine (proj2 (proj2 (scene_actions_without_target sampleTrim serviceUp
                            sampleTranslate sampleCharacter None "en" "16:9" "2d"
                            (handleOpenEditModal 1 sampleSession) [] 0 1 kiteStory
                            "make the kite blue" eq_refl eq_refl eq_refl _)
                     1 hillScene eq_refl eq_refl eq_refl)).
    discriminate.
Defined.

Lemma continue_story_settles_witness :
  let run := handleContinueStory sampleTrim sampleParse serviceRecovering sampleTranslate
               (Some sampleCharacter) None "en" "16:9" "2d" (Some 2%Z) (λ _, false) conclude
               ([], {| app := sampleSession; newSceneCount := 0 |}) in
  run.1 = Ok tt
  ∧ continuationMode (app run.2.2) = None
  ∧ error (app run.2.2) = None
  ∧ sessionWf (store (app run.2.2)) (storyHistory (app run.2.2)).
Proof.
  intros run.
  destruct (continue_story_settles sampleTrim sampleParse serviceRecovering sampleTranslate
              sampleCharacter None "en" "16:9" "2d" (λ _, false)
              {| app := sampleSession; newSceneCount := 0 |} [] 0 kiteStory (Some 2%Z)
              conclude eq_refl eq_refl) as (Hreturns & _ & Hvalid); [sample_apart|].
  destruct (Hvalid eq_refl) as (_ & Hmode & _ & _ & Herror & Hwf & _).
  split; [exact Hreturns|]. split; [exact Hmode|]. split; [exact Herror|exact Hwf].
Defined.


Lemma follow_up_actions_keep_scenes_apart_witness :
  let final := (handleRegenerateImage serviceUp sampleTranslate (Some sampleCharacter) None
                  "16:9" 1 ([], sampleSession)).2.2 in
  sessionWf (store final) (storyHistory final).
Proof.
  refine (proj1 (follow_up_actions_keep_scenes_apart sampleTrim serviceUp sampleTranslate
                   (Some sampleCharacter) None "en" "16:9" "2d" sampleSession [] _) 1).
  sample_apart.
Defined.

Lemma task_reports_progress_for_first_version_witness :
  let final :=
    (generationTask sampleTrim sampleParse serviceRecovering sampleTranslate None
       "en" "16:9" "2d" sampleCharacter 2 conclude 1730000000001 1
       ([], sessionWithPlaceholder)).2.2 in
  generationStep final = 0 ∧ illustrationProgress final = None.
Proof.
  refine (proj2 (proj2 (proj2 (proj2 (proj2
            (task_reports_progress_for_first_version sampleTrim sampleParse
               serviceRecovering sampleTranslate sampleCharacter None "en" "16:9" "2d"
               2 conclude 1730000000001 1 [] sessionWithPlaceholder))))) _).
  discriminate.
Defined.
